(** * Geminal wavefunctions: Slater determinants, permanents, projection
      spaces, overlaps and the projected Schroedinger equations

    A shallow embedding of [geminals/geminal.py], [wfns/math_tools.py] and
    [prowl/lib/apig.py].

    Conventions of the embedding:
    - a Slater determinant is a Python integer used as a bit mask; it is an
      [N] here, and an argument that may be [None] is an [option N];
    - a numpy array of floats is a shape together with an indexing function
      into the real numbers: floating-point arithmetic is idealised as exact
      arithmetic in [R];
    - a Python exception is the [Raise] case of [result];
    - [a is b] on two integers is the identity of objects as CPython
      decides it: one object for each integer from -5 to 256, a new one
      for every other integer that is computed. *)

From Stdlib Require Import String.
From Stdlib Require Import List Arith NArith Bool Lia.
From Stdlib Require Import Reals Lra Permutation Sorted.
Import ListNotations.

(** ** Exceptions *)

Inductive exn : Type :=
| AssertionError
| IndexError
| ValueError
| TypeError
| Exception (msg : nat).

Inductive result (A : Type) : Type :=
| Ok (a : A)
| Raise (e : exn).

Arguments Ok {A} a.
Arguments Raise {A} e.

Definition bind {A B : Type} (m : result A) (k : A -> result B) : result B :=
  match m with
  | Ok a => k a
  | Raise e => Raise e
  end.

Notation "x <- m ;; k" := (bind m (fun x => k))
  (at level 61, m at next level, right associativity).

(** A [for] loop whose body may raise: the accumulator is threaded through
    the elements from left to right and the first exception ends the loop. *)
Fixpoint for_each {A S : Type} (l : list A) (body : S -> A -> result S) (s : S)
  : result S :=
  match l with
  | [] => Ok s
  | x :: t => s' <- body s x ;; for_each t body s'
  end.

(** ** Slater determinants as bit masks *)

Module SlaterDet.

(** Modelled from the spec: the module [slater_det] (imported by
    [geminal.py], exercised by [test_slater_det.py]) is not among the
    sources.  Section 4.1 of the specification and the tests fix the
    behaviour: bit [i] is spin orbital [i]; removing an empty orbital,
    adding an occupied one or repeating an index gives the sentinel [0];
    the pair variants work on both spin partners of a spatial orbital and
    refuse partially occupied pairs. *)
Definition is_occupied (sd : N) (i : nat) : bool :=
  N.testbit sd (N.of_nat i).

Definition is_pair_occupied (sd : N) (i : nat) : bool :=
  is_occupied sd (2 * i) && is_occupied sd (2 * i + 1).

(** The failure of a removal or addition is kept apart from the empty
    determinant while a call is in progress ([excite(0b0001, 0, 1)] is
    [0b10] although the intermediate determinant is empty); only the value
    handed back to the caller is the sentinel. *)
Fixpoint remove_orbs_opt (sd : N) (indices : list nat) : option N :=
  match indices with
  | [] => Some sd
  | i :: rest =>
      if is_occupied sd i
      then remove_orbs_opt (N.clearbit sd (N.of_nat i)) rest
      else None
  end.

Fixpoint add_orbs_opt (sd : N) (indices : list nat) : option N :=
  match indices with
  | [] => Some sd
  | i :: rest =>
      if is_occupied sd i
      then None
      else add_orbs_opt (N.setbit sd (N.of_nat i)) rest
  end.

Definition sentinel (r : option N) : N :=
  match r with
  | Some sd => sd
  | None => 0%N
  end.

Definition remove_orbs (sd : N) (indices : list nat) : N :=
  sentinel (remove_orbs_opt sd indices).

Definition add_orbs (sd : N) (indices : list nat) : N :=
  sentinel (add_orbs_opt sd indices).

(** [excite_orbs(sd, i1, .., a1, ..)]: the first half of the indices is
    annihilated, the second half created. *)
Definition excite_orbs (sd : N) (occ vir : list nat) : N :=
  match remove_orbs_opt sd occ with
  | Some sd' => sentinel (add_orbs_opt sd' vir)
  | None => 0%N
  end.

Definition excite (sd : N) (i j : nat) : N := excite_orbs sd [i] [j].

Fixpoint remove_pairs_opt (sd : N) (indices : list nat) : option N :=
  match indices with
  | [] => Some sd
  | i :: rest =>
      if is_pair_occupied sd i
      then remove_pairs_opt
             (N.clearbit (N.clearbit sd (N.of_nat (2 * i))) (N.of_nat (2 * i + 1)))
             rest
      else None
  end.

Fixpoint add_pairs_opt (sd : N) (indices : list nat) : option N :=
  match indices with
  | [] => Some sd
  | i :: rest =>
      if is_occupied sd (2 * i) || is_occupied sd (2 * i + 1)
      then None
      else add_pairs_opt
             (N.setbit (N.setbit sd (N.of_nat (2 * i))) (N.of_nat (2 * i + 1)))
             rest
  end.

Definition remove_pairs (sd : N) (indices : list nat) : N :=
  sentinel (remove_pairs_opt sd indices).

Definition add_pairs (sd : N) (indices : list nat) : N :=
  sentinel (add_pairs_opt sd indices).

Definition excite_pairs (sd : N) (occ vir : list nat) : N :=
  match remove_pairs_opt sd occ with
  | Some sd' => sentinel (add_pairs_opt sd' vir)
  | None => 0%N
  end.

(** [bin(sd).count('1')] *)
Fixpoint popcount_pos (p : positive) : nat :=
  match p with
  | xH => 1
  | xO q => popcount_pos q
  | xI q => S (popcount_pos q)
  end.

Definition popcount (sd : N) : nat :=
  match sd with
  | N0 => 0
  | Npos p => popcount_pos p
  end.

(** The cases of [test_slater_det.py]. *)
Example test_remove_orbs :
  remove_orbs 6 [0] = 0%N /\ remove_orbs 6 [1] = 4%N /\
  remove_orbs 14 [2; 1] = 8%N /\ remove_orbs 6 [2; 2] = 0%N.
Proof. repeat split; reflexivity. Qed.

Example test_add_orbs :
  add_orbs 6 [0] = 7%N /\ add_orbs 6 [1] = 0%N /\
  add_orbs 8 [1; 2] = 14%N /\ add_orbs 12 [1; 1] = 0%N.
Proof. repeat split; reflexivity. Qed.

Example test_excite :
  excite 1 0 1 = 2%N /\ excite 1 0 5 = 32%N /\ excite 4 0 1 = 0%N /\
  excite 9 3 0 = 0%N.
Proof. repeat split; reflexivity. Qed.

Example test_excite_pairs :
  excite_pairs 3 [0] [1] = 12%N /\ excite_pairs 48 [2] [0] = 3%N /\
  excite_pairs 4 [0] [2] = 0%N /\ excite_pairs 51 [2] [0] = 0%N /\
  excite_pairs 35 [2] [1] = 0%N /\ excite_pairs 35 [2] [3] = 0%N.
Proof. repeat split; reflexivity. Qed.

End SlaterDet.

Import SlaterDet.

(** ** Arrays *)

(** A two-dimensional array: its shape and its entries. *)
Record ndarray : Type := mk_ndarray {
  nrow : nat;
  ncol : nat;
  get : nat -> nat -> R
}.

Definition of_rows (rows : list (list R)) : ndarray :=
  {| nrow := length rows;
     ncol := length (hd [] rows);
     get := fun i j => nth j (nth i rows []) 0%R |}.

(** [matrix[:, cols]]: numpy raises [IndexError] for a column that is out
    of bounds. *)
Definition take_cols (m : ndarray) (cols : list nat) : result ndarray :=
  if forallb (fun c => c <? ncol m) cols
  then Ok {| nrow := nrow m;
             ncol := length cols;
             get := fun i p => get m i (nth p cols 0) |}
  else Raise IndexError.

Definition transpose (m : ndarray) : ndarray :=
  {| nrow := ncol m; ncol := nrow m; get := fun i j => get m j i |}.

(** [x0.reshape(p, k)] of a flat vector, in row-major order. *)
Definition reshape (x : list R) (p k : nat) : result ndarray :=
  if length x =? p * k
  then Ok {| nrow := p; ncol := k; get := fun i j => nth (i * k + j) x 0%R |}
  else Raise ValueError.

(** [matrix[i, j]] *)
Definition entry (matrix : ndarray) (i j : nat) : result R :=
  if (i <? nrow matrix) && (j <? ncol matrix)
  then Ok (get matrix i j)
  else Raise IndexError.

(** [l[i]] *)
Definition item {A : Type} (l : list A) (i : nat) : result A :=
  match nth_error l i with
  | Some x => Ok x
  | None => Raise IndexError
  end.

(** [l.index(x)] *)
Fixpoint index_of (x : nat) (l : list nat) : option nat :=
  match l with
  | [] => None
  | y :: t => if x =? y then Some 0
              else match index_of x t with
                   | Some p => Some (S p)
                   | None => None
                   end
  end.

(** ** Sums and products of reals *)

(** [acc = 0; for x in l: acc += f(x)] *)
Definition sum_over {A : Type} (l : list A) (f : A -> R) : R :=
  fold_left (fun acc x => (acc + f x)%R) l 0%R.

(** [np.prod] *)
Definition prod_list (l : list R) : R :=
  fold_left Rmult l 1%R.

(** [np.prod(matrix[rows, cols])]: the product of the entries
    [(rows[0], cols[0]), (rows[1], cols[1]), ...]. *)
Definition prod_along (matrix : ndarray) (rows cols : list nat) : R :=
  prod_list (map (fun rc => get matrix (fst rc) (snd rc)) (combine rows cols)).

(** [l[i] = v] *)
Fixpoint set_nth {A : Type} (l : list A) (i : nat) (v : A) : list A :=
  match l, i with
  | [], _ => []
  | _ :: t, 0 => v :: t
  | x :: t, S i' => x :: set_nth t i' v
  end.

(** [enumerate(l)]; it also stands for a counter that starts at 0 and is
    incremented at the end of every pass of a loop over [l]. *)
Definition enumerate {A : Type} (l : list A) : list (nat * A) :=
  combine (seq 0 (length l)) l.

(** ** [itertools] *)

(** Every element of a list with the elements that remain, by position. *)
Fixpoint picks {A : Type} (l : list A) : list (A * list A) :=
  match l with
  | [] => []
  | x :: t => (x, t) :: map (fun p => (fst p, x :: snd p)) (picks t)
  end.

(** [itertools.permutations(l, r)]: the [r]-length arrangements of [l], in
    lexicographic order of the positions. *)
Fixpoint permutations {A : Type} (r : nat) (l : list A) : list (list A) :=
  match r with
  | 0 => [[]]
  | S r' =>
      flat_map (fun p => map (cons (fst p)) (permutations r' (snd p))) (picks l)
  end.

(** [itertools.combinations(l, r)] *)
Fixpoint combinations {A : Type} (r : nat) (l : list A) : list (list A) :=
  match r with
  | 0 => [[]]
  | S r' =>
      match l with
      | [] => []
      | x :: t => map (cons x) (combinations r' t) ++ combinations r t
      end
  end.

Example permutations_3 :
  permutations 3 [0; 1; 2] =
  [[0; 1; 2]; [0; 2; 1]; [1; 0; 2]; [1; 2; 0]; [2; 0; 1]; [2; 1; 0]].
Proof. reflexivity. Qed.

Example combinations_4_2 :
  combinations 2 [0; 1; 2; 3] =
  [[0; 1]; [0; 2]; [0; 3]; [1; 2]; [1; 3]; [2; 3]].
Proof. reflexivity. Qed.

(** ** [geminals/geminal.py]: the APIG wavefunction *)

Module APIG.

(** The attributes of a wavefunction object that the methods read.  The
    integrals are stored once their shapes have been validated by the
    [ham] setter, so they are total functions of the orbital indices. *)
Record geminal : Type := mk_geminal {
  npairs : nat;
  norbs : nat;
  one : nat -> nat -> R;
  two : nat -> nat -> nat -> nat -> R;
  pspace : list N;
  coeffs : option ndarray
}.

Definition nelec (self : geminal) : nat := 2 * npairs self.

(** [int(2*npairs*"1", 2)] *)
Definition ground (self : geminal) : N := (2 ^ N.of_nat (2 * npairs self) - 1)%N.

Definition row_indices (self : geminal) : list nat := seq 0 (npairs self).

Definition col_indices (self : geminal) : list nat := seq 0 (norbs self).

(** [a is b] for two sizes read from [shape]: the same object.  CPython
    keeps one object for every integer from -5 to 256 and makes a new
    object for each other integer that [shape] reports, so two equal sizes
    are the same object up to 256 only. *)
Definition same_object (a b : nat) : bool := (a =? b) && (a <=? 256).

Definition permanent (matrix : ndarray) : result R :=
  if same_object (nrow matrix) (ncol matrix)
  then
    let row_indices := seq 0 (nrow matrix) in
    Ok (sum_over (permutations (nrow matrix) row_indices)
                 (fun col_indices => prod_along matrix row_indices col_indices))
  else Raise AssertionError.

(** [l[0], l[i] = l[i], l[0]] *)
Definition swap_first (l : list nat) (i : nat) : result (list nat) :=
  if i =? 0 then Ok l
  else match nth_error l i, nth_error l 0 with
       | Some li, Some l0 => Ok (set_nth (set_nth l 0 li) i l0)
       | _, _ => Raise IndexError
       end.

(** The state of the loop of [permanent_derivative]. *)
Record diagonals : Type := mk_diagonals {
  prod_l : R;
  prod_r : R;
  left : nat;
  right : nat
}.

(** [matrix[rows,:][:,cols][row, col]]: an index past the end raises; the
    column [left] never is, [right] never is either as both stay below the
    number of columns of a square matrix. *)
Definition permuted_entry (matrix : ndarray) (rows cols : list nat)
    (row col : nat) : result R :=
  match nth_error rows row, nth_error cols col with
  | Some r, Some c => Ok (get matrix r c)
  | _, _ => Raise IndexError
  end.

Definition permanent_derivative (matrix : ndarray) (i j : nat) : result R :=
  if same_object (nrow matrix) (ncol matrix)
  then
    rows <- swap_first (seq 0 (nrow matrix)) i ;;
    cols <- swap_first (seq 0 (ncol matrix)) j ;;
    d <- for_each (seq 1 (nrow matrix - 1))
           (fun d row =>
              l <- permuted_entry matrix rows cols row (left d) ;;
              r <- permuted_entry matrix rows cols row (right d) ;;
              Ok {| prod_l := (prod_l d * l)%R;
                    prod_r := (prod_r d * r)%R;
                    left := left d - 1;
                    right := right d + 1 |})
           {| prod_l := 1%R; prod_r := 1%R;
              left := ncol matrix - 1; right := 1 |} ;;
    Ok (prod_l d + prod_r d)%R
  else Raise AssertionError.

Definition overlap (self : geminal) (slater_det : option N)
    (gem_coeff : ndarray) (derivative : bool) (indices : option (nat * nat))
  : result R :=
  match slater_det with
  | None => Ok 0%R
  | Some sd =>
      if negb (popcount sd =? nelec self) then Ok 0%R
      else if existsb (fun i => negb (Bool.eqb (is_occupied sd (i * 2))
                                               (is_occupied sd (i * 2 + 1))))
                      (seq 0 (norbs self))
      then Ok 0%R
      else
        let ind_occ := filter (is_pair_occupied sd) (seq 0 (norbs self)) in
        if derivative then
          match indices with
          | None => Raise TypeError
          | Some (i, j) =>
              match index_of j ind_occ with
              | Some p =>
                  m <- take_cols gem_coeff ind_occ ;;
                  d <- permanent_derivative m i p ;;
                  Ok (d / 2)%R
              | None => Ok 0%R
              end
          end
        else
          m <- take_cols gem_coeff ind_occ ;;
          permanent m
  end.

(** *** [generate_pspace] *)

Section GeneratePspace.

(** The test [num_combs(i, 2)**2 >= num_needed - len(list_sd)] divides
    factorials in floating point; its outcome for [i] and for the number of
    determinants still needed is a parameter of the model. *)
Variable frontier_test : nat -> nat -> bool.

Variable self : geminal.

Let hf_ground : N := ground self.

Definition ind_occ : list nat :=
  rev (filter (fun i => is_pair_occupied hf_ground i) (seq 0 (norbs self))).

Definition ind_vir : list nat :=
  filter (fun i => negb (is_pair_occupied hf_ground i)) (seq 0 (norbs self)).

Definition num_needed : nat := npairs self * norbs self + 1.

(** The [for ... else] that chooses the number of frontier orbitals. *)
Definition num_frontier (list_sd : list N) : nat :=
  match find (fun i => frontier_test i (num_needed - length list_sd))
             (seq 2 (length ind_occ - 1)) with
  | Some i => i
  | None => Nat.max (length ind_occ) (length ind_vir) + 1
  end.

(** The two nested loops over the combinations of frontier orbitals. *)
Definition pair_excitations (list_sd : list N) (num_excited : nat) : list N :=
  flat_map
    (fun occs =>
       map (fun virs => excite_pairs hf_ground occs virs)
           (combinations num_excited (firstn (num_frontier list_sd) ind_vir)))
    (combinations num_excited (firstn (num_frontier list_sd) ind_occ)).

(** The [while] loop: [num_excited] runs through [1 .. len(ind_occ)] and the
    loop is left as soon as enough determinants are there. *)
Fixpoint add_pair_excitations (nums : list nat) (list_sd : list N) : list N :=
  match nums with
  | [] => list_sd
  | num_excited :: rest =>
      if length list_sd <? num_needed
      then add_pair_excitations rest
             (list_sd ++ pair_excitations list_sd num_excited)
      else list_sd
  end.

(** The single excitations of a beta electron to an alpha orbital. *)
Definition single_excitations : list N :=
  flat_map (fun i => map (fun j => excite_orbs hf_ground [i * 2 + 1] [j * 2])
                         ind_vir)
           ind_occ.

(** [len(set(l))] *)
Definition len_set (l : list N) : nat := length (nodup N.eq_dec l).

(** [int('1'*2*npairs, 2)] raises [ValueError] on the empty string. *)
Definition generate_pspace : result (list N) :=
  if npairs self =? 0 then Raise ValueError
  else
    let list_sd := add_pair_excitations (seq 1 (length ind_occ)) [hf_ground] in
    let list_sd := if npairs self <=? 2 then list_sd ++ single_excitations
                   else list_sd in
    if negb (length list_sd =? len_set list_sd) then Raise AssertionError
    else if negb (num_needed <=? length list_sd) then Raise AssertionError
    else Ok (firstn num_needed list_sd).

End GeneratePspace.

(** The test in exact arithmetic: [n! / r! / (n-r)!] is a whole number. *)
Definition num_combs (n r : nat) : nat := fact n / fact r / fact (n - r).

Definition exact_test (i needed : nat) : bool := needed <=? num_combs i 2 ^ 2.

Example generate_pspace_2_4 :
  generate_pspace exact_test
    (mk_geminal 2 4 (fun _ _ => 0%R) (fun _ _ _ _ => 0%R) [] None)
  = Ok [15; 51; 195; 60; 204; 240; 23; 71; 29]%N.
Proof. vm_compute. reflexivity. Qed.

(** *** The Hamiltonian integrals [<sd|H|Psi>] *)

(** The three accumulators of [double_phi_H_psi] and [brute_phi_H_psi]. *)
Record parts : Type := mk_parts {
  one_elec_part : R;
  coulomb : R;
  exchange : R
}.

Definition add_one (p : parts) (v : R) : parts :=
  {| one_elec_part := (one_elec_part p + v)%R;
     coulomb := coulomb p; exchange := exchange p |}.

Definition add_coulomb (p : parts) (v : R) : parts :=
  {| one_elec_part := one_elec_part p;
     coulomb := (coulomb p + v)%R; exchange := exchange p |}.

Definition sub_exchange (p : parts) (v : R) : parts :=
  {| one_elec_part := one_elec_part p;
     coulomb := coulomb p; exchange := (exchange p - v)%R |}.

Definition total (p : parts) : R :=
  (one_elec_part p + coulomb p + exchange p)%R.

(** [sorted] *)
Fixpoint insert_sorted (x : nat) (l : list nat) : list nat :=
  match l with
  | [] => [x]
  | y :: t => if x <=? y then x :: l else y :: insert_sorted x t
  end.

Definition sorted (l : list nat) : list nat :=
  fold_right insert_sorted [] l.

(** [bin_string[0::2] == bin_string[1::2]] on the binary digits, padded
    to an even number of them: the two spin orbitals of every spatial
    orbital are occupied alike. *)
Definition alpha_beta_alike (slater_det : N) : bool :=
  forallb (fun i => Bool.eqb (is_occupied slater_det (2 * i))
                             (is_occupied slater_det (2 * i + 1)))
          (seq 0 (N.to_nat (N.size slater_det))).

(** *** The setter of [pspace] *)

(** The checks on one determinant: the number of electrons, for more than
    two pairs the pairing of the binary digits, and the highest occupied
    spin orbital, [len(bin_string) - 1 - bin_string.index('1')], which is
    the position of the leading digit; [index] raises [ValueError] when
    there is no digit 1. *)
Definition check_sd (self : geminal) (sd : N) : result unit :=
  if negb (popcount sd =? nelec self) then Raise AssertionError
  else if (2 <? npairs self) && negb (alpha_beta_alike sd)
  then Raise AssertionError
  else if (sd =? 0)%N then Raise ValueError
  else if N.to_nat (N.log2 sd) / 2 <? norbs self then Ok tt
  else Raise AssertionError.

(** [self.pspace = list_sds]: the tuple that is stored. *)
Definition set_pspace (self : geminal) (list_sds : list N)
  : result (list N) :=
  _ <- for_each list_sds (fun _ sd => check_sd self sd) tt ;;
  Ok list_sds.

Section Hamiltonian.

Variable self : geminal.

(** The attribute [self.overlap] at the time of the call: the method of
    the class, or the derivative that [nonlin_jac] puts in its place. *)
Variable self_overlap : option N -> ndarray -> result R.

Definition double_phi_H_psi (slater_det : N) (gem_coeff : ndarray)
  : result R :=
  olp <- self_overlap (Some slater_det) gem_coeff ;;
  p <- for_each (seq 0 (norbs self))
         (fun acc i =>
            if is_pair_occupied slater_det i then
              let acc := add_one acc (2 * one self i i * olp) in
              let acc := add_coulomb acc (two self i i i i * olp) in
              acc <- for_each (seq (i + 1) (norbs self - (i + 1)))
                       (fun acc j =>
                          if is_pair_occupied slater_det j then
                            let acc :=
                              add_coulomb acc (4 * two self i j i j * olp) in
                            Ok (sub_exchange acc (2 * two self i j j i * olp))
                          else Ok acc)
                       acc ;;
              for_each (seq 0 (norbs self))
                (fun acc a =>
                   if negb (is_pair_occupied slater_det a) then
                     let excitation := excite_pairs slater_det [i] [a] in
                     o <- self_overlap (Some excitation) gem_coeff ;;
                     Ok (add_coulomb acc (two self i i a a * o))
                   else Ok acc)
                acc
            else Ok acc)
         (mk_parts 0 0 0) ;;
  Ok (total p).

Definition same_spin (i k : nat) : bool := (i mod 2 =? k mod 2).

Definition brute_phi_H_psi (slater_det : N) (gem_coeff : ndarray)
  : result R :=
  let ind_occ :=
    filter (fun i => is_occupied slater_det i) (seq 0 (2 * norbs self)) in
  let ind_vir :=
    filter (fun i => negb (is_occupied slater_det i))
           (seq 0 (2 * norbs self)) in
  p <- for_each (enumerate ind_occ)
         (fun acc '(ind_first_occ, i) =>
            let temp1_ind_vir := sorted (ind_vir ++ [i]) in
            for_each (enumerate temp1_ind_vir)
              (fun acc '(ind_first_vir, k) =>
                 let single_excitation := excite_orbs slater_det [i] [k] in
                 acc <- (if same_spin i k then
                           o <- self_overlap (Some single_excitation) gem_coeff ;;
                           Ok (add_one acc (one self (i / 2) (k / 2) * o))
                         else Ok acc) ;;
                 for_each (skipn (ind_first_occ + 1) ind_occ)
                   (fun acc j =>
                      let temp2_ind_vir :=
                        sorted (j :: skipn (ind_first_vir + 1) temp1_ind_vir) in
                      for_each temp2_ind_vir
                        (fun acc l =>
                           let double_excitation :=
                             excite_orbs single_excitation [j] [l] in
                           overlap <- self_overlap (Some double_excitation)
                                        gem_coeff ;;
                           if Req_dec_T overlap 0 then Ok acc
                           else
                             let acc :=
                               if same_spin i k && same_spin j l
                               then add_coulomb acc
                                      (two self (i / 2) (j / 2) (k / 2) (l / 2)
                                       * overlap)
                               else acc in
                             Ok (if same_spin i l && same_spin j k
                                 then sub_exchange acc
                                        (two self (i / 2) (j / 2) (l / 2) (k / 2)
                                         * overlap)
                                 else acc))
                        acc)
                   acc)
              acc)
         (mk_parts 0 0 0) ;;
  Ok (total p).

Definition phi_H_psi (slater_det : N) (gem_coeff : ndarray) : result R :=
  if alpha_beta_alike slater_det
  then double_phi_H_psi slater_det gem_coeff
  else brute_phi_H_psi slater_det gem_coeff.

End Hamiltonian.

(** *** The projected Schroedinger equations *)

(** What a subclass overrides: the class variable [_normalize] and the
    methods [overlap], [construct_guess], [_col_indices] and the setter of
    [coeffs]. *)
Record geminal_class : Type := mk_class {
  normalize : bool;
  overlap_method :
    geminal -> option N -> ndarray -> bool -> option (nat * nat) -> result R;
  construct_guess_method : geminal -> list R -> result ndarray;
  col_indices_method : geminal -> list nat;
  coeffs_setter : geminal -> list R -> result ndarray
}.

Definition construct_guess (self : geminal) (x0 : list R) : result ndarray :=
  reshape x0 (npairs self) (norbs self).

Definition set_coeffs (self : geminal) (value : list R) : result ndarray :=
  if length value =? npairs self * norbs self
  then reshape value (npairs self) (norbs self)
  else Raise AssertionError.

Definition APIG_class : geminal_class :=
  {| normalize := true;
     overlap_method := overlap;
     construct_guess_method := construct_guess;
     col_indices_method := col_indices;
     coeffs_setter := set_coeffs |}.

Section Equations.

Variable cls : geminal_class.

Variable self : geminal.

Definition eqn_offset : nat := if normalize cls then 1 else 0.

(** [self.overlap] as the class defines it, in value mode. *)
Definition class_overlap (sd : option N) (gc : ndarray) : result R :=
  overlap_method cls self sd gc false None.

(** [olp_der]: the overlap in derivative mode with respect to the
    coefficient [coords], which [nonlin_jac] stores in [self.overlap]. *)
Definition olp_der (coords : nat * nat) (sd : option N) (gc : ndarray)
  : result R :=
  overlap_method cls self sd gc true (Some coords).

Definition nonlin (x0 : list R) (proj : list N) : result (list R) :=
  C <- construct_guess_method cls self x0 ;;
  energy <- phi_H_psi self class_overlap (ground self) C ;;
  vec <- (if normalize cls then
            o <- class_overlap (Some (ground self)) C ;;
            if length x0 =? 0 then Raise IndexError else Ok [(o - 1)%R]
          else Ok []) ;;
  for_each (seq 0 (length x0 - eqn_offset))
    (fun vec d =>
       sd <- item proj d ;;
       o <- class_overlap (Some sd) C ;;
       h <- phi_H_psi self class_overlap sd C ;;
       Ok (vec ++ [(energy * o - h)%R]))
    vec.

(** The Jacobian is filled column by column, one column for every
    coefficient [(i, j)]; [count] is the number of the column.  Once
    [construct_guess] has accepted [x0] there are as many coefficients as
    entries of [x0], so no index leaves the array. *)
Definition nonlin_jac (x0 : list R) (proj : list N) : result ndarray :=
  C <- construct_guess_method cls self x0 ;;
  energy <- phi_H_psi self class_overlap (ground self) C ;;
  phi_psi_tmp <- for_each (seq 0 (length x0))
                   (fun tmp d =>
                      sd <- item proj d ;;
                      o <- class_overlap (Some sd) C ;;
                      Ok (tmp ++ [o]))
                   [] ;;
  columns <- for_each (list_prod (row_indices self) (col_indices_method cls self))
               (fun columns coords =>
                  column <- (if normalize cls then
                               o <- olp_der coords (Some (ground self)) C ;;
                               Ok [o]
                             else Ok []) ;;
                  column <- for_each (seq 0 (length x0 - eqn_offset))
                              (fun column d =>
                                 e <- phi_H_psi self (olp_der coords)
                                        (ground self) C ;;
                                 sd <- item proj d ;;
                                 o <- olp_der coords (Some sd) C ;;
                                 h <- phi_H_psi self (olp_der coords) sd C ;;
                                 Ok (column
                                     ++ [(e * nth d phi_psi_tmp 0 + energy * o - h)%R]))
                              column ;;
                  Ok (columns ++ [column]))
               [] ;;
  Ok {| nrow := length x0;
        ncol := length x0;
        get := fun r c => nth r (nth c columns []) 0%R |}.

End Equations.

(** *** [__call__]: running the solver *)

(** What [print] writes: a fixed text, or a text with a number formatted
    into it. *)
Inductive printed : Type :=
| Text (s : String.string)
| Text_nat (s : String.string) (n : nat)
| Text_float (s : String.string) (r : R).

Definition not_converged : printed :=
  Text "Warning: solution did not converge; coefficients were not updated."%string.

(** The result object of [scipy.optimize.root], as far as it is read. *)
Record solver_result : Type := mk_solver_result {
  success : bool;
  x : list R;
  nfev : nat;
  njev : option nat;
  fjac : ndarray
}.

Inductive option_value : Type :=
| Float_value (r : R)
| String_value (s : String.string).

Definition options : Type := list (String.string * option_value).

(** [d.update(d')] *)
Definition update (d d' : options) : options :=
  fold_left
    (fun acc kv =>
       filter (fun e => negb (String.eqb (fst e) (fst kv))) acc ++ [kv])
    d' d.

(** The keyword arguments that [__call__] reads; a value that is [None] or
    empty is the absent one. *)
Record kwargs : Type := mk_kwargs {
  kw_x0 : option (list R);
  kw_jac : bool;
  kw_proj : list N;
  kw_options : options;
  kw_verbose : bool
}.

(** A method that writes to the object and to the standard output: the
    object and the output are threaded through, and are kept as they are
    when an exception is raised. *)
Definition world : Type := (geminal * list printed)%type.

Definition method (A : Type) : Type := world -> result A * world.

Definition ret {A : Type} (a : A) : method A := fun w => (Ok a, w).

Definition raise {A : Type} (e : exn) : method A := fun w => (Raise e, w).

Definition and_then {A B : Type} (m : method A) (k : A -> method B)
  : method B :=
  fun w => match m w with
           | (Ok a, w') => k a w'
           | (Raise e, w') => (Raise e, w')
           end.

Definition print (p : printed) : method unit :=
  fun w => (Ok tt, (fst w, snd w ++ [p])).

Definition lift {A : Type} (r : result A) : method A := fun w => (r, w).

Definition get_self : method geminal := fun w => (Ok (fst w), w).

(** [self.coeffs = value], through the setter of the class. *)
Definition assign_coeffs (cls : geminal_class) (value : list R) : method unit :=
  fun w =>
    match coeffs_setter cls (fst w) value with
    | Ok m => (Ok tt,
               ({| npairs := npairs (fst w); norbs := norbs (fst w);
                   one := one (fst w); two := two (fst w);
                   pspace := pspace (fst w); coeffs := Some m |}, snd w))
    | Raise e => (Raise e, w)
    end.

Notation "x <~ m ;; k" := (and_then m (fun x => k))
  (at level 61, m at next level, right associativity).

(** [l.remove(x)] *)
Fixpoint remove_first (v : N) (l : list N) : result (list N) :=
  match l with
  | [] => Raise ValueError
  | y :: t => if (v =? y)%N then Ok t
              else t' <- remove_first v t ;; Ok (y :: t')
  end.

Fixpoint max_list (l : list R) : result R :=
  match l with
  | [] => Raise ValueError
  | [r] => Ok r
  | r :: t => m <- max_list t ;; Ok (Rmax r m)
  end.

Fixpoint min_list (l : list R) : result R :=
  match l with
  | [] => Raise ValueError
  | [r] => Ok r
  | r :: t => m <- min_list t ;; Ok (Rmin r m)
  end.

Section Call.

Variable cls : geminal_class.

(** [scipy.optimize.root], called with the objective, the guess, the
    Jacobian if one is asked for, the projection list and the options. *)
Variable root :
  (list R -> list N -> result (list R)) -> list R ->
  option (list R -> list N -> result ndarray) -> list N -> options ->
  result solver_result.

(** [self.generate_guess()]: for APIG it builds a new AP1roG object, runs
    its solver and takes the coefficients of that object; it prints, may
    raise, and does not touch [self]. *)
Variable generate_guess : geminal -> result (list R) * list printed.

(** The singular values of [np.linalg.svd]. *)
Variable svd_values : ndarray -> result (list R).

Definition guess : method (list R) :=
  fun w => (fst (generate_guess (fst w)),
            (fst w, snd w ++ snd (generate_guess (fst w)))).

(** The block under [if defaults['verbose']]. *)
Definition display (result : solver_result) : method unit :=
  _ <~ print (Text "========== OLSENS RESULTS =========="%string) ;;
  _ <~ print (Text_nat "Number of objective function evaluations: {}"%string
                       (nfev result)) ;;
  _ <~ match njev result with
       | Some n => print (Text_nat "Number of Jacobian evaluations: {}"%string n)
       | None => ret tt
       end ;;
  svd_jac <~ lift (svd_values (fjac result)) ;;
  hi <~ lift (max_list svd_jac) ;;
  lo <~ lift (min_list svd_jac) ;;
  _ <~ print (Text_float "max(SVD)/min(SVD) [closer to 1 is better]: {}"%string
                         (hi / lo)) ;;
  print (Text "===================================="%string).

Definition call (kw : kwargs) : method solver_result :=
  let solveropts :=
    update [("xatol"%string, Float_value (1 / 10 ^ 12));
            ("method"%string, String_value "hybr"%string)]
           (kw_options kw) in
  x0 <~ match kw_x0 kw with
        | Some x0 => ret x0
        | None => guess
        end ;;
  self <~ get_self ;;
  let jac := if kw_jac kw then Some (nonlin_jac cls self) else None in
  proj <~ match kw_proj kw with
          | [] => lift (remove_first (ground self) (pspace self))
          | proj => ret proj
          end ;;
  if length proj <? length x0 then raise ValueError
  else
    result <~ lift (root (nonlin cls self) x0 jac proj solveropts) ;;
    _ <~ (if success result then assign_coeffs cls (x result)
          else print not_converged) ;;
    _ <~ (if kw_verbose kw then display result else ret tt) ;;
    ret result.

End Call.

End APIG.

(** ** [prowl/lib/apig.py] *)

Module Prowl.

(** Modelled from the spec: [prowl.utils.slater] is not among the sources;
    [slater.number] is the electron count, [slater.occupation] and
    [slater.occupation_pair] are the occupation tests of section 4.1. *)
Record apig : Type := mk_apig {
  n : nat;
  k : nat;
  C : ndarray
}.

Section Dense.

(** [prowl.utils.permanent.dense] is not among the sources either, and
    nothing says what it does with an array that is not square: the
    function is left open, and every property is stated for whatever it
    is. *)
Variable dense : ndarray -> result R.

Definition overlap (self : apig) (sd : option N) : result R :=
  match sd with
  | None => Ok 0%R
  | Some sd =>
      if negb (popcount sd =? n self) then Ok 0%R
      else if existsb (fun i => negb (Bool.eqb (is_occupied sd (2 * i))
                                               (is_occupied sd (2 * i + 1))))
                      (seq 0 (k self))
      then Ok 0%R
      else
        let occ := filter (is_pair_occupied sd) (seq 0 (k self)) in
        m <- take_cols (C self) occ ;;
        dense m
  end.



End Dense.

End Prowl.

(** ** [wfns/math_tools.py] *)

Module MathTools.

Definition permanent_combinatoric (matrix : ndarray) : result R :=
  if (nrow matrix =? 0) || (ncol matrix =? 0) then Raise ValueError
  else
    let matrix := if ncol matrix <? nrow matrix then transpose matrix
                  else matrix in
    let rows := seq 0 (nrow matrix) in
    let cols := seq 0 (ncol matrix) in
    Ok (sum_over (permutations (nrow matrix) cols)
                 (fun perm => prod_along matrix rows perm)).

(** [np.pad(matrix, ((0, n), (0, 0)), mode="constant",
    constant_values=((0, 1.0), (0, 0)))]: [n] rows of ones below. *)
Definition pad_rows (matrix : ndarray) (n : nat) : ndarray :=
  {| nrow := nrow matrix + n;
     ncol := ncol matrix;
     get := fun i j => if i <? nrow matrix then get matrix i j else 1%R |}.

(** The variables of the loop of [permanent_ryser]. *)
Record ryser_state : Type := mk_ryser_state {
  rowsums : list R;
  sign : bool;
  permanent : R;
  graycode : list bool;
  cur_position : nat;
  cur_value : bool
}.

(** The [for] loop that updates the Gray code, left by [break] when
    [flag] is set.  [cur_position] and [cur_value] keep their values from
    the pass before while no bit has been set. *)
Fixpoint update_graycode (indices : list nat) (ncol : nat)
    (graycode : list bool) (cur_position : nat) (cur_value : bool)
  : list bool * nat * bool :=
  match indices with
  | [] => (graycode, cur_position, cur_value)
  | i :: rest =>
      let flag := negb (nth i graycode false) in
      let graycode := set_nth graycode i flag in
      let cur_position := if flag then i else cur_position in
      let cur_value :=
        if cur_position =? ncol - 1
        then nth (ncol - 1) graycode false
        else negb (nth cur_position graycode false
                   && nth (cur_position + 1) graycode false) in
      if flag then (graycode, cur_position, cur_value)
      else update_graycode rest ncol graycode cur_position cur_value
  end.

(** [rowsums[:] += matrix[:, p]] and [rowsums[:] -= matrix[:, p]] *)
Definition add_column (matrix : ndarray) (rowsums : list R) (p : nat)
  : list R :=
  map (fun ir => (snd ir + get matrix (fst ir) p)%R) (enumerate rowsums).

Definition sub_column (matrix : ndarray) (rowsums : list R) (p : nat)
  : list R :=
  map (fun ir => (snd ir - get matrix (fst ir) p)%R) (enumerate rowsums).

(** One pass of the [while] loop. *)
Definition ryser_step (matrix : ndarray) (ncol : nat) (s : ryser_state)
  : ryser_state :=
  let '(graycode, cur_position, cur_value) :=
    update_graycode (seq 0 ncol) ncol (graycode s) (cur_position s)
                    (cur_value s) in
  let rowsums := if cur_value
                 then add_column matrix (rowsums s) cur_position
                 else sub_column matrix (rowsums s) cur_position in
  if sign s
  then {| rowsums := rowsums; sign := false;
          permanent := (permanent s + prod_list rowsums)%R;
          graycode := graycode; cur_position := cur_position;
          cur_value := cur_value |}
  else {| rowsums := rowsums; sign := true;
          permanent := (permanent s - prod_list rowsums)%R;
          graycode := graycode; cur_position := cur_position;
          cur_value := cur_value |}.

(** [while not all(graycode)]; [None] when the passes allowed by [fuel]
    do not reach the end of the loop. *)
Fixpoint ryser_loop (fuel : nat) (matrix : ndarray) (ncol : nat)
    (s : ryser_state) : option ryser_state :=
  if forallb (fun b => b) (graycode s) then Some s
  else match fuel with
       | 0 => None
       | S fuel' => ryser_loop fuel' matrix ncol (ryser_step matrix ncol s)
       end.

(** [cur_position] and [cur_value] are not bound before the loop; its
    first pass binds them before it reads them, so any start value does. *)
Definition permanent_ryser (fuel : nat) (matrix : ndarray)
  : option (result R) :=
  if (nrow matrix =? 0) || (ncol matrix =? 0) then Some (Raise ValueError)
  else
    let '(matrix, factor) :=
      if negb (nrow matrix =? ncol matrix) then
        let matrix := if ncol matrix <? nrow matrix then transpose matrix
                      else matrix in
        (pad_rows matrix (ncol matrix - nrow matrix),
         (1 / INR (fact (ncol matrix - nrow matrix)))%R)
      else (matrix, 1%R) in
    let ncol := ncol matrix in
    match ryser_loop fuel matrix ncol
            {| rowsums := repeat 0%R ncol;
               sign := Nat.odd ncol;
               permanent := 0%R;
               graycode := repeat false ncol;
               cur_position := 0;
               cur_value := false |} with
    | Some s => Some (Ok (permanent s * factor)%R)
    | None => None
    end.

End MathTools.

(** ** Reference notions used to state the properties *)

(** The matrix without row [i] and column [j]. *)
Definition minor (m : ndarray) (i j : nat) : ndarray :=
  {| nrow := nrow m - 1;
     ncol := ncol m - 1;
     get := fun r c => get m (if r <? i then r else S r)
                             (if c <? j then c else S c) |}.

(** The matrix with entry [(i, j)] replaced by [t]. *)
Definition set_entry (m : ndarray) (i j : nat) (t : R) : ndarray :=
  {| nrow := nrow m;
     ncol := ncol m;
     get := fun r c => if (r =? i) && (c =? j) then t else get m r c |}.

(** The list without the value [c]. *)
Definition drop (c : nat) (l : list nat) : list nat :=
  filter (fun x => negb (x =? c)) l.

(** The list without the values of [ks]. *)
Definition drop_all (ks l : list nat) : list nat :=
  fold_left (fun l k => drop k l) ks l.

(** The permanent by expansion along the rows: the first row takes one of
    the columns that are free, the other rows share the remaining ones. *)
Fixpoint perm_rows (m : nat -> nat -> R) (rows cols : list nat) : R :=
  match rows with
  | [] => 1%R
  | r :: rest =>
      sum_over cols (fun c => (m r c * perm_rows m rest (drop c cols))%R)
  end.

(** The permanent of a square array as the documentation of
    [APIG.permanent] has it, for every size: the sum, over the
    permutations of the columns, of the products along them, and
    [AssertionError] for an array that is not square.  [APIG.permanent]
    returns it for the arrays of up to 256 rows. *)
Definition square_permanent (matrix : ndarray) : result R :=
  if nrow matrix =? ncol matrix
  then
    let row_indices := seq 0 (nrow matrix) in
    Ok (sum_over (permutations (nrow matrix) row_indices)
                 (fun col_indices => prod_along matrix row_indices col_indices))
  else Raise AssertionError.

(** The Gray code of [permanent_ryser] is kept as a binary counter, lowest
    bit first: [next] is the counter after one pass of the loop, [ruler]
    the position of the bit that the pass sets, [gray] the subset of
    columns that the counter stands for. *)
Fixpoint next (b : list bool) : list bool :=
  match b with
  | [] => []
  | false :: t => true :: t
  | true :: t => false :: next t
  end.

Fixpoint ruler (b : list bool) : nat :=
  match b with
  | [] => 0
  | false :: _ => 0
  | true :: t => S (ruler t)
  end.

Fixpoint gray (b : list bool) : list bool :=
  match b with
  | [] => []
  | x :: t => xorb x (hd false t) :: gray t
  end.

Fixpoint val (b : list bool) : nat :=
  match b with
  | [] => 0
  | x :: t => (if x then 1 else 0) + 2 * val t
  end.

(** [x; f x; f (f x); ...], [n] values. *)
Fixpoint iterates {A : Type} (f : A -> A) (n : nat) (x : A) : list A :=
  match n with
  | 0 => []
  | S n' => x :: iterates f n' (f x)
  end.

(** All subsets of [n] columns, as lists of booleans. *)
Fixpoint masks (n : nat) : list (list bool) :=
  match n with
  | 0 => [[]]
  | S n' => flat_map (fun t => [false :: t; true :: t]) (masks n')
  end.

(** The sum of [g] over the columns of [D] that the mask [S] selects. *)
Fixpoint wsum (g : nat -> R) (D : list nat) (S : list bool) : R :=
  match D, S with
  | c :: D', s :: S' => ((if s then g c else 0) + wsum g D' S')%R
  | _, _ => 0%R
  end.

(** [(-1)^k] for the number [k] of columns that [S] leaves out. *)
Fixpoint sg (S : list bool) : R :=
  match S with
  | [] => 1%R
  | true :: t => sg t
  | false :: t => (- sg t)%R
  end.

(** The inclusion and exclusion of the columns of [D], one after the
    other, in the product of the row sums [base]. *)
Fixpoint ryser_sum (A : nat -> nat -> R) (rows D : list nat)
    (base : nat -> R) : R :=
  match D with
  | [] => prod_list (map base rows)
  | c :: D' =>
      (ryser_sum A rows D' (fun r => base r + A r c)
       - ryser_sum A rows D' base)%R
  end.

(** The sum of [F x suffix] over the elements [x] of a list, each with the
    elements that follow it. *)
Fixpoint sum_with_suffix {A : Type} (l : list A) (F : A -> list A -> R) : R :=
  match l with
  | [] => 0%R
  | x :: t => (F x t + sum_with_suffix t F)%R
  end.

(** The value of a computation that does not raise. *)
Definition value (r : result R) : R :=
  match r with
  | Ok v => v
  | Raise _ => 0%R
  end.

(** The vector of a computation that does not raise. *)
Definition values (r : result (list R)) : list R :=
  match r with
  | Ok v => v
  | Raise _ => []
  end.

(** ** [geminals/geminal.py]: the AP1roG wavefunction *)

Module AP1roG.

Import APIG.

Definition col_indices (self : geminal) : list nat :=
  seq (npairs self) (norbs self - npairs self).

(** [sum([2**(2*i) + 2**(2*i + 1) for i in range(npairs)])] *)
Definition base (npairs : nat) : N :=
  fold_left N.add
    (map (fun i => (2 ^ N.of_nat (2 * i) + 2 ^ N.of_nat (2 * i + 1))%N)
         (seq 0 npairs))
    0%N.

(** The list [pspace] of [generate_pspace] before it is made a set. *)
Definition pspace_list (npairs norbs : nat) : list N :=
  base npairs ::
  flat_map (fun unoccup =>
              map (fun i => excite_pairs (base npairs) [i] [unoccup])
                  (seq 0 npairs))
           (seq npairs (norbs - npairs)).

(** [tuple(set(l))]: the elements of [l], each once; the order in which a
    set is iterated is not fixed by the language, so every duplicate-free
    arrangement of the elements is a possible value. *)
Definition tuple_of_set (l res : list N) : Prop :=
  NoDup res /\ forall x, In x res <-> In x l.

Definition generate_pspace (self : geminal) (res : list N) : Prop :=
  tuple_of_set (pspace_list (npairs self) (norbs self)) res.

(** [np.eye(npairs, M=norbs)] with the block of the free coefficients added
    to the columns [npairs:]. *)
Definition construct_guess (self : geminal) (x0 : list R) : result ndarray :=
  X <- reshape x0 (npairs self) (norbs self - npairs self) ;;
  Ok {| nrow := npairs self;
        ncol := norbs self;
        get := fun i j =>
                 ((if i =? j then 1 else 0)
                  + (if npairs self <=? j then get X i (j - npairs self) else 0))%R |}.

Definition from_index (self : geminal) (phi : N) : list nat :=
  filter (fun i => negb (is_pair_occupied phi i)) (seq 0 (npairs self)).

Definition to_index (self : geminal) (phi : N) : list nat :=
  filter (fun i => is_pair_occupied phi i)
         (seq (npairs self) (norbs self - npairs self)).

Definition excite_count (self : geminal) (phi : N) : nat :=
  length (from_index self phi).

(** The branch of [overlap] that a determinant selects. *)
Inductive branch : Type :=
| Sentinel
| Not_in_pspace
| Excite_0
| Excite_1
| Excite_2
| Excite_more.

Definition N_in (x : N) (l : list N) : bool := existsb (N.eqb x) l.

Definition dispatch (self : geminal) (phi : option N) : branch :=
  match phi with
  | None => Not_in_pspace
  | Some phi =>
      if (phi =? 0)%N then Sentinel
      else if negb (N_in phi (pspace self)) then Not_in_pspace
      else match excite_count self phi with
           | 0 => Excite_0
           | 1 => Excite_1
           | 2 => Excite_2
           | _ => Excite_more
           end
  end.

Definition pair_eqb (a b : nat * nat) : bool :=
  (fst a =? fst b) && (snd a =? snd b).

Definition overlap (self : geminal) (phi : option N) (matrix : ndarray)
    (derivative : bool) (indices : option (nat * nat)) : result R :=
  match dispatch self phi, phi with
  | Excite_0, Some phi =>
      if derivative then
        match indices with
        | None => Raise TypeError
        | Some (i, j) => if i =? j then Ok 1%R else Ok 0%R
        end
      else Ok 1%R
  | Excite_1, Some phi =>
      f0 <- item (from_index self phi) 0 ;;
      if derivative then
        match indices with
        | None => t0 <- item (to_index self phi) 0 ;; Ok 0%R
        | Some ij =>
            t0 <- item (to_index self phi) 0 ;;
            if pair_eqb ij (f0, t0) then Ok 1%R else Ok 0%R
        end
      else
        t0 <- item (to_index self phi) 0 ;;
        entry matrix f0 t0
  | Excite_2, Some phi =>
      f0 <- item (from_index self phi) 0 ;;
      if derivative then
        t0 <- item (to_index self phi) 0 ;;
        match indices with
        | Some ij =>
            if pair_eqb ij (f0, t0) then
              f1 <- item (from_index self phi) 1 ;;
              t1 <- item (to_index self phi) 1 ;;
              entry matrix f1 t1
            else
              f1 <- item (from_index self phi) 1 ;;
              t1 <- item (to_index self phi) 1 ;;
              if pair_eqb ij (f1, t1) then entry matrix f0 t0
              else if pair_eqb ij (f0, t1) then
                     v <- entry matrix f1 t0 ;; Ok (- v)%R
              else if pair_eqb ij (f1, t0) then
                     v <- entry matrix f0 t1 ;; Ok (- v)%R
              else Ok 0%R
        | None =>
            f1 <- item (from_index self phi) 1 ;;
            t1 <- item (to_index self phi) 1 ;;
            Ok 0%R
        end
      else
        t0 <- item (to_index self phi) 0 ;;
        a <- entry matrix f0 t0 ;;
        f1 <- item (from_index self phi) 1 ;;
        t1 <- item (to_index self phi) 1 ;;
        b <- entry matrix f1 t1 ;;
        c <- entry matrix f0 t1 ;;
        d <- entry matrix f1 t0 ;;
        Ok (a * b - c * d)%R
  | Excite_more, Some phi => Raise (Exception (excite_count self phi))
  | _, _ => Ok 0%R
  end.

End AP1roG.

(** * Properties *)

(** C8, amended: the overlap of an invalid determinant of the system is 0,
    without an exception.  For a wavefunction of at least one pair, every
    coefficient matrix, in value and in derivative mode: when the
    determinant is [None] or the sentinel [0], or its electron count is not
    [nelec], or one of the [norbs] spatial orbitals of the system has its
    alpha and beta spin orbitals unequally occupied, [APIG.overlap] returns
    0; so does the overlap of the [prowl] variant for the same numbers of
    electrons and orbitals, whatever its permanent function does. *)
Theorem overlap_invalid_is_zero :
  forall (self : APIG.geminal) (dense : ndarray -> result R)
         (w : Prowl.apig) (sd : option N)
         (gem_coeff : ndarray) (derivative : bool)
         (indices : option (nat * nat)),
    0 < APIG.npairs self ->
    Prowl.n w = APIG.nelec self ->
    Prowl.k w = APIG.norbs self ->
    (sd = None \/ sd = Some 0%N \/
     (exists s, sd = Some s /\ popcount s <> APIG.nelec self) \/
     (exists s i, sd = Some s /\ i < APIG.norbs self /\
                  is_occupied s (2 * i) <> is_occupied s (2 * i + 1))) ->
    APIG.overlap self sd gem_coeff derivative indices = Ok 0%R /\
    Prowl.overlap dense w sd = Ok 0%R.
Proof.
  intros self dense w sd gem_coeff derivative indices Hp Hn Hk H.
  unfold APIG.overlap, Prowl.overlap. rewrite Hn, Hk.
  destruct H as [-> | [-> | [(s & -> & Hc) | (s & i & -> & Hi & Hocc)]]].
  - split; reflexivity.
  - unfold APIG.nelec; simpl popcount.
    destruct (APIG.npairs self) as [|p]; [lia|].
    split; reflexivity.
  - apply Nat.eqb_neq in Hc. rewrite Hc. split; reflexivity.
  - assert (E1 : existsb (fun i0 => negb (Bool.eqb (is_occupied s (i0 * 2))
                                   (is_occupied s (i0 * 2 + 1))))
                   (seq 0 (APIG.norbs self)) = true).
    { apply existsb_exists. exists i. split.
      - apply in_seq. lia.
      - rewrite (Nat.mul_comm i 2).
        destruct (is_occupied s (2 * i)), (is_occupied s (2 * i + 1));
          simpl; congruence. }
    assert (E2 : existsb (fun i0 => negb (Bool.eqb (is_occupied s (2 * i0))
                                   (is_occupied s (2 * i0 + 1))))
                   (seq 0 (APIG.norbs self)) = true).
    { apply existsb_exists. exists i. split.
      - apply in_seq. lia.
      - destruct (is_occupied s (2 * i)), (is_occupied s (2 * i + 1));
          simpl; congruence. }
    rewrite E1, E2.
    destruct (negb (popcount s =? APIG.nelec self)); split; reflexivity.
Qed.

Definition h2_system : APIG.geminal :=
  {| APIG.npairs := 1; APIG.norbs := 2;
     APIG.one := fun _ _ => 0%R; APIG.two := fun _ _ _ _ => 0%R;
     APIG.pspace := [3%N]; APIG.coeffs := None |}.

Lemma overlap_invalid_is_zero_witness :
  APIG.overlap h2_system (Some 6%N) (of_rows [[1%R; 0%R]]) false None = Ok 0%R /\
  Prowl.overlap APIG.permanent (Prowl.mk_apig 2 2 (of_rows [[1%R; 0%R]]))
    (Some 6%N) = Ok 0%R.
Proof.
  apply (overlap_invalid_is_zero h2_system); simpl; try lia; try reflexivity.
  right; right; right. exists 6%N, 0. repeat split; try lia. discriminate.
Defined.

(** C8, as stated, fails when the spatial orbital that is unequally
    occupied lies beyond the [norbs] orbitals of the system: for one pair
    in two orbitals, the determinant [0b1010000] has two electrons, the
    spin orbitals 4 and 5 of its spatial orbital 2 are unequally occupied,
    the test of the pairs looks at the orbitals 0 and 1 only, no column is
    selected and [permanent] refuses the array of shape (1, 0): the
    overlap raises [AssertionError]. *)
Lemma overlap_broken_pair_beyond_norbs :
  popcount 80 = APIG.nelec h2_system /\
  is_occupied 80 (2 * 2) <> is_occupied 80 (2 * 2 + 1) /\
  APIG.overlap h2_system (Some 80%N) (of_rows [[2%R; 3%R]]) false None
  = Raise AssertionError /\
  APIG.overlap h2_system (Some 80%N) (of_rows [[2%R; 3%R]]) false None
  <> Ok 0%R.
Proof.
  split; [reflexivity | split; [discriminate | split]].
  - reflexivity.
  - discriminate.
Qed.

(** ** The derivative of the permanent *)

Definition matrix_1234 : ndarray := of_rows [[1; 2]; [3; 4]]%R.

(** C2: on the matrix [[1, 2], [3, 4]] and the entry (0, 0),
    [permanent_derivative] returns 8, while the permanent of the minor is 4,
    which is the derivative of the permanent with respect to that entry:
    the two wrap-around diagonals coincide for a 2-by-2 matrix and the one
    product is counted twice. *)
Theorem permanent_derivative_2x2_doubles :
  APIG.permanent_derivative matrix_1234 0 0 = Ok 8%R /\
  APIG.permanent (minor matrix_1234 0 0) = Ok 4%R /\
  derivable_pt_lim
    (fun t => value (APIG.permanent (set_entry matrix_1234 0 0 t))) 1%R 4%R.
Proof.
  split; [|split].
  - unfold APIG.permanent_derivative; simpl. f_equal. lra.
  - unfold APIG.permanent; simpl. f_equal.
    unfold sum_over, prod_along, prod_list; simpl. lra.
  - assert (E : forall t,
               value (APIG.permanent (set_entry matrix_1234 0 0 t))
               = (4 * t + 6)%R).
    { intro t. unfold APIG.permanent; simpl.
      unfold sum_over, prod_along, prod_list; simpl. lra. }
    intros eps Heps. exists (mkposreal 1 Rlt_0_1). intros h Hh _.
    rewrite !E.
    replace ((4 * (1 + h) + 6 - (4 * 1 + 6)) / h - 4)%R with 0%R
      by (field; exact Hh).
    rewrite Rabs_R0. exact Heps.
Qed.

(** ** Facts on the bit masks *)

Section BitFacts.

Lemma N_of_nat_eqb (x y : nat) : (N.of_nat x =? N.of_nat y)%N = (x =? y).
Proof.
  destruct (Nat.eqb_spec x y) as [->|Hne].
  - apply N.eqb_refl.
  - apply N.eqb_neq. intro H. apply Nat2N.inj in H. contradiction.
Qed.

Lemma is_occupied_setbit (sd : N) (i b : nat) :
  is_occupied (N.setbit sd (N.of_nat i)) b = (i =? b) || is_occupied sd b.
Proof.
  unfold is_occupied. rewrite N.setbit_eqb, N_of_nat_eqb. reflexivity.
Qed.

Lemma is_occupied_clearbit (sd : N) (i b : nat) :
  is_occupied (N.clearbit sd (N.of_nat i)) b = is_occupied sd b && negb (i =? b).
Proof.
  unfold is_occupied. rewrite N.clearbit_eqb, N_of_nat_eqb. reflexivity.
Qed.

Lemma is_occupied_0 (b : nat) : is_occupied 0 b = false.
Proof. unfold is_occupied. apply N.bits_0. Qed.


Lemma base_ones (P : nat) : AP1roG.base P = N.ones (N.of_nat (2 * P)).
Proof.
  unfold AP1roG.base.
  induction P as [|P IH].
  - reflexivity.
  - rewrite seq_S, map_app, fold_left_app, IH. cbn [fold_left map Nat.add].
    rewrite !N.ones_equiv.
    assert (E1 : (2 ^ N.of_nat (2 * P + 1) = 2 * 2 ^ N.of_nat (2 * P))%N).
    { replace (N.of_nat (2 * P + 1)) with (N.succ (N.of_nat (2 * P))) by lia.
      apply N.pow_succ_r'. }
    assert (E2 : (2 ^ N.of_nat (2 * S P) = 4 * 2 ^ N.of_nat (2 * P))%N).
    { replace (N.of_nat (2 * S P)) with (N.succ (N.succ (N.of_nat (2 * P))))
        by lia.
      rewrite !N.pow_succ_r'. lia. }
    rewrite E1, E2.
    assert (Hpos : (0 < 2 ^ N.of_nat (2 * P))%N)
      by (apply N.neq_0_lt_0, N.pow_nonzero; discriminate).
    lia.
Qed.

Lemma ground_ones (self : APIG.geminal) :
  APIG.ground self = N.ones (N.of_nat (2 * APIG.npairs self)).
Proof. unfold APIG.ground. rewrite N.ones_equiv. lia. Qed.

Lemma is_occupied_ones (n b : nat) :
  is_occupied (N.ones (N.of_nat n)) b = (b <? n).
Proof.
  unfold is_occupied.
  destruct (Nat.ltb_spec b n) as [Hlt|Hge].
  - apply N.ones_spec_low. lia.
  - apply N.ones_spec_high. lia.
Qed.

Lemma is_occupied_base (P b : nat) :
  is_occupied (AP1roG.base P) b = (b <? 2 * P).
Proof. rewrite base_ones. apply is_occupied_ones. Qed.

Lemma is_pair_occupied_base (P p : nat) :
  is_pair_occupied (AP1roG.base P) p = (p <? P).
Proof.
  unfold is_pair_occupied. rewrite !is_occupied_base.
  destruct (Nat.ltb_spec p P), (Nat.ltb_spec (2 * p) (2 * P)),
    (Nat.ltb_spec (2 * p + 1) (2 * P)); simpl; try reflexivity; lia.
Qed.

(** The occupations after one pair excitation that is allowed. *)
Lemma is_occupied_excite_pairs (sd : N) (i a b : nat) :
  is_pair_occupied sd i = true ->
  is_occupied sd (2 * a) = false ->
  is_occupied sd (2 * a + 1) = false ->
  is_occupied (excite_pairs sd [i] [a]) b =
  (b =? 2 * a) || (b =? 2 * a + 1)
  || (is_occupied sd b && negb (b =? 2 * i) && negb (b =? 2 * i + 1)).
Proof.
  intros Hi Ha Ha'.
  unfold excite_pairs. cbn [remove_pairs_opt add_pairs_opt]. rewrite Hi.
  rewrite !is_occupied_clearbit, Ha, Ha'. cbn [andb orb sentinel].
  rewrite !is_occupied_setbit, !is_occupied_clearbit.
  rewrite (Nat.eqb_sym (2 * a + 1) b), (Nat.eqb_sym (2 * a) b),
    (Nat.eqb_sym (2 * i + 1) b), (Nat.eqb_sym (2 * i) b).
  destruct (b =? 2 * a), (b =? 2 * a + 1), (is_occupied sd b),
    (b =? 2 * i), (b =? 2 * i + 1); reflexivity.
Qed.

Lemma is_pair_occupied_excite_pairs (sd : N) (i a p : nat) :
  is_pair_occupied sd i = true ->
  is_occupied sd (2 * a) = false ->
  is_occupied sd (2 * a + 1) = false ->
  is_pair_occupied (excite_pairs sd [i] [a]) p =
  (p =? a) || (is_pair_occupied sd p && negb (p =? i)).
Proof.
  intros Hi Ha Ha'.
  unfold is_pair_occupied at 1.
  rewrite !(is_occupied_excite_pairs sd i a _ Hi Ha Ha').
  unfold is_pair_occupied.
  destruct (Nat.eqb_spec p a) as [->|Hpa].
  - rewrite Nat.eqb_refl.
    replace (2 * a + 1 =? 2 * a + 1) with true by (symmetry; apply Nat.eqb_refl).
    simpl. rewrite orb_true_r. reflexivity.
  - replace (2 * p =? 2 * a) with false by (symmetry; apply Nat.eqb_neq; lia).
    replace (2 * p =? 2 * a + 1) with false by (symmetry; apply Nat.eqb_neq; lia).
    replace (2 * p + 1 =? 2 * a) with false by (symmetry; apply Nat.eqb_neq; lia).
    replace (2 * p + 1 =? 2 * a + 1) with false by (symmetry; apply Nat.eqb_neq; lia).
    replace (2 * p =? 2 * i + 1) with false by (symmetry; apply Nat.eqb_neq; lia).
    replace (2 * p + 1 =? 2 * i) with false by (symmetry; apply Nat.eqb_neq; lia).
    destruct (Nat.eqb_spec p i) as [->|Hpi].
    + rewrite Nat.eqb_refl. simpl. rewrite !andb_false_r. reflexivity.
    + replace (2 * p =? 2 * i) with false by (symmetry; apply Nat.eqb_neq; lia).
      replace (2 * p + 1 =? 2 * i + 1) with false
        by (symmetry; apply Nat.eqb_neq; lia).
      simpl. rewrite !andb_true_r. reflexivity.
Qed.

End BitFacts.

(** ** The projection space of AP1roG *)

Section AP1roGPspace.

Variables P K : nat.

Let excited (i a : nat) : N := excite_pairs (AP1roG.base P) [i] [a].

Lemma is_pair_occupied_excited (i a p : nat) :
  i < P -> P <= a ->
  is_pair_occupied (excited i a) p = (p =? a) || ((p <? P) && negb (p =? i)).
Proof.
  intros Hi Ha. unfold excited.
  rewrite is_pair_occupied_excite_pairs.
  - rewrite is_pair_occupied_base. reflexivity.
  - rewrite is_pair_occupied_base. apply Nat.ltb_lt. exact Hi.
  - rewrite is_occupied_base. apply Nat.ltb_ge. lia.
  - rewrite is_occupied_base. apply Nat.ltb_ge. lia.
Qed.

Lemma excited_inj (i a i' a' : nat) :
  i < P -> P <= a -> i' < P -> P <= a' ->
  excited i a = excited i' a' -> a = a' /\ i = i'.
Proof.
  intros Hi Ha Hi' Ha' E.
  assert (Ea : a = a').
  { assert (H := is_pair_occupied_excited i a a Hi Ha).
    rewrite E, is_pair_occupied_excited in H by assumption.
    rewrite Nat.eqb_refl in H. simpl in H.
    apply orb_true_iff in H. destruct H as [H|H].
    - apply Nat.eqb_eq in H. exact H.
    - apply andb_true_iff in H. destruct H as [H _].
      apply Nat.ltb_lt in H. lia. }
  split; [exact Ea|]. subst a'.
  assert (H := is_pair_occupied_excited i a i Hi Ha).
  rewrite E, is_pair_occupied_excited in H by assumption.
  rewrite Nat.eqb_refl in H. simpl in H. rewrite andb_false_r, orb_false_r in H.
  destruct (Nat.eqb_spec i a) as [->|_]; [lia|].
  simpl in H. apply andb_false_iff in H. destruct H as [H|H].
  - apply Nat.ltb_ge in H. lia.
  - apply negb_false_iff, Nat.eqb_eq in H. exact H.
Qed.

Lemma excited_not_base (i a : nat) :
  i < P -> P <= a -> excited i a <> AP1roG.base P.
Proof.
  intros Hi Ha E.
  assert (H := is_pair_occupied_excited i a a Hi Ha).
  rewrite E, is_pair_occupied_base, Nat.eqb_refl in H. simpl in H.
  apply Nat.ltb_lt in H. lia.
Qed.

Lemma in_pspace_list (x : N) :
  In x (AP1roG.pspace_list P K) <->
  x = AP1roG.base P \/
  exists i a, i < P /\ P <= a < K /\ x = excited i a.
Proof.
  unfold AP1roG.pspace_list. simpl. rewrite in_flat_map. split.
  - intros [H | (a & Ha & Hx)].
    + left. symmetry. exact H.
    + right. apply in_map_iff in Hx. destruct Hx as (i & Hx & Hi).
      apply in_seq in Ha. apply in_seq in Hi.
      exists i, a. repeat split; try lia. symmetry. exact Hx.
  - intros [H | (i & a & Hi & Ha & Hx)].
    + left. symmetry. exact H.
    + right. exists a. split.
      * apply in_seq. lia.
      * apply in_map_iff. exists i. split.
        -- symmetry. exact Hx.
        -- apply in_seq. lia.
Qed.

Lemma NoDup_pspace_list : NoDup (AP1roG.pspace_list P K).
Proof.
  unfold AP1roG.pspace_list. constructor.
  - intro H. apply in_flat_map in H. destruct H as (a & Ha & H).
    apply in_map_iff in H. destruct H as (i & H & Hi).
    apply in_seq in Ha. apply in_seq in Hi.
    apply (excited_not_base i a); [lia | lia | exact H].
  - assert (G : forall l, NoDup l -> (forall a, In a l -> P <= a) ->
              NoDup (flat_map (fun a => map (fun i => excited i a) (seq 0 P)) l)).
    { induction l as [|a l IH]; intros Hnd Hge; simpl.
      - constructor.
      - inversion Hnd as [|? ? Hnotin Hnd']; subst.
        assert (Ha : P <= a) by (apply Hge; left; reflexivity).
        apply NoDup_app.
        + apply NoDup_map_NoDup_ForallPairs; [|apply seq_NoDup].
          intros i i' Hi Hi' E. apply in_seq in Hi. apply in_seq in Hi'.
          destruct (excited_inj i a i' a) as [_ Hii]; try lia; assumption.
        + apply IH; [exact Hnd'|]. intros b Hb. apply Hge. right. exact Hb.
        + intros x Hx Hx'. apply in_map_iff in Hx.
          destruct Hx as (i & Hx & Hi). apply in_seq in Hi.
          apply in_flat_map in Hx'. destruct Hx' as (b & Hb & Hx').
          apply in_map_iff in Hx'. destruct Hx' as (i' & Hx' & Hi').
          apply in_seq in Hi'. subst x.
          assert (Hb' : P <= b) by (apply Hge; right; exact Hb).
          destruct (excited_inj i' b i a) as [Hba _]; try lia; try assumption.
          subst b. contradiction. }
    apply G.
    + apply seq_NoDup.
    + intros a Ha. apply in_seq in Ha. lia.
Qed.

Lemma length_pspace_list :
  length (AP1roG.pspace_list P K) = 1 + P * (K - P).
Proof.
  unfold AP1roG.pspace_list. simpl. f_equal.
  rewrite (flat_map_constant_length (c := P)).
  - rewrite length_seq. apply Nat.mul_comm.
  - intros a _. rewrite length_map, length_seq. reflexivity.
Qed.

End AP1roGPspace.

Definition ap1rog_1_3 : APIG.geminal :=
  {| APIG.npairs := 1; APIG.norbs := 3;
     APIG.one := fun _ _ => 0%R; APIG.two := fun _ _ _ _ => 0%R;
     APIG.pspace := [48; 3; 12]%N; APIG.coeffs := None |}.

(** C7, as stated, fails: for one pair in three orbitals the tuple
    [(48, 3, 12)] is a value of [tuple(set([3, 12, 48]))] (the one CPython
    produces, by hash order), and its first entry is not the reference
    determinant [3]. *)
Lemma generate_pspace_first_not_reference :
  AP1roG.generate_pspace ap1rog_1_3 [48; 3; 12]%N /\
  hd 0%N [48; 3; 12]%N <> AP1roG.base (APIG.npairs ap1rog_1_3).
Proof.
  split.
  - split.
    + repeat constructor; simpl; intuition discriminate.
    + intro x. simpl. intuition.
  - discriminate.
Qed.

(** C7, amended: for [npairs <= norbs], [AP1roG.generate_pspace] has a
    value, and every value is a duplicate-free tuple of exactly
    [1 + npairs * (norbs - npairs)] determinants that contains the
    reference determinant; its position in the tuple is not fixed. *)
Theorem generate_pspace_size_and_reference :
  forall (self : APIG.geminal),
    APIG.npairs self <= APIG.norbs self ->
    (exists res, AP1roG.generate_pspace self res) /\
    forall res, AP1roG.generate_pspace self res ->
      NoDup res /\
      length res = 1 + APIG.npairs self * (APIG.norbs self - APIG.npairs self) /\
      In (AP1roG.base (APIG.npairs self)) res.
Proof.
  intros self Hle. split.
  - exists (AP1roG.pspace_list (APIG.npairs self) (APIG.norbs self)).
    split; [apply NoDup_pspace_list | intro x; reflexivity].
  - intros res [Hnd Hin]. split; [exact Hnd|]. split.
    + rewrite <- length_pspace_list. apply Permutation_length.
      apply NoDup_Permutation; [exact Hnd | apply NoDup_pspace_list | exact Hin].
    + apply Hin. left. reflexivity.
Qed.

Lemma generate_pspace_size_and_reference_witness :
  (exists res, AP1roG.generate_pspace ap1rog_1_3 res) /\
  forall res, AP1roG.generate_pspace ap1rog_1_3 res ->
    NoDup res /\ length res = 3 /\ In 3%N res.
Proof.
  apply (generate_pspace_size_and_reference ap1rog_1_3). simpl. lia.
Defined.

(** ** The overlap of AP1roG outside its projection space *)

Lemma filter_eqb_seq_out (n s i : nat) :
  i < s \/ s + n <= i -> filter (fun p => p =? i) (seq s n) = [].
Proof.
  revert s. induction n as [|n IH]; intros s H; simpl.
  - reflexivity.
  - destruct (Nat.eqb_spec s i) as [->|_]; [lia|]. apply IH. lia.
Qed.

Lemma filter_eqb_seq (n s i : nat) :
  s <= i < s + n -> filter (fun p => p =? i) (seq s n) = [i].
Proof.
  revert s. induction n as [|n IH]; intros s H; simpl.
  - lia.
  - destruct (Nat.eqb_spec s i) as [->|Hne].
    + f_equal. apply filter_eqb_seq_out. lia.
    + apply IH. lia.
Qed.

Lemma N_in_iff (x : N) (l : list N) : AP1roG.N_in x l = true <-> In x l.
Proof.
  unfold AP1roG.N_in. rewrite existsb_exists. split.
  - intros (y & Hy & E). apply N.eqb_eq in E. subst y. exact Hy.
  - intro H. exists x. split; [exact H | apply N.eqb_refl].
Qed.

Lemma from_index_base (self : APIG.geminal) :
  AP1roG.from_index self (AP1roG.base (APIG.npairs self)) = [].
Proof.
  unfold AP1roG.from_index.
  rewrite (filter_ext_in _ (fun _ => false)).
  - induction (seq 0 (APIG.npairs self)); simpl; auto.
  - intros p Hp. apply in_seq in Hp. rewrite is_pair_occupied_base.
    apply negb_false_iff, Nat.ltb_lt. lia.
Qed.

Lemma from_index_excited (self : APIG.geminal) (i a : nat) :
  i < APIG.npairs self -> APIG.npairs self <= a ->
  AP1roG.from_index self
    (excite_pairs (AP1roG.base (APIG.npairs self)) [i] [a]) = [i].
Proof.
  intros Hi Ha. unfold AP1roG.from_index.
  rewrite (filter_ext_in _ (fun p => p =? i)).
  - apply filter_eqb_seq. lia.
  - intros p Hp. apply in_seq in Hp.
    rewrite is_pair_occupied_excited by assumption.
    destruct (Nat.eqb_spec p a) as [->|_]; [lia|].
    replace (p <? APIG.npairs self) with true
      by (symmetry; apply Nat.ltb_lt; lia).
    simpl. apply negb_involutive.
Qed.

(** In the default projection space no determinant is excited twice. *)
Lemma excite_count_default (self : APIG.geminal) (phi : N) :
  AP1roG.generate_pspace self (APIG.pspace self) ->
  In phi (APIG.pspace self) ->
  AP1roG.excite_count self phi <= 1.
Proof.
  intros [_ Hin] Hphi. apply Hin, in_pspace_list in Hphi.
  unfold AP1roG.excite_count.
  destruct Hphi as [-> | (i & a & Hi & Ha & ->)].
  - rewrite from_index_base. simpl. lia.
  - rewrite from_index_excited by lia. simpl. lia.
Qed.

(** C10: [AP1roG.overlap] is 0 for every determinant that is not in the
    stored projection space (and for [None]), whatever the matrix and the
    mode; and when the projection space is the one of
    [AP1roG.generate_pspace], the overlap of every determinant with two or
    more pairs excited is 0, and neither the closed form for two excited
    pairs nor the error branch is selected by any determinant. *)
Theorem ap1rog_overlap_outside_pspace :
  forall (self : APIG.geminal) (phi : option N) (matrix : ndarray)
         (derivative : bool) (indices : option (nat * nat)),
    ((forall s, phi = Some s -> ~ In s (APIG.pspace self)) ->
     AP1roG.overlap self phi matrix derivative indices = Ok 0%R) /\
    (AP1roG.generate_pspace self (APIG.pspace self) ->
     AP1roG.dispatch self phi <> AP1roG.Excite_2 /\
     AP1roG.dispatch self phi <> AP1roG.Excite_more /\
     (forall s, phi = Some s -> 2 <= AP1roG.excite_count self s ->
                AP1roG.overlap self phi matrix derivative indices = Ok 0%R)).
Proof.
  intros self phi matrix derivative indices.
  assert (Hout : (forall s, phi = Some s -> ~ In s (APIG.pspace self)) ->
                 AP1roG.overlap self phi matrix derivative indices = Ok 0%R).
  { intro Hnot. unfold AP1roG.overlap, AP1roG.dispatch.
    destruct phi as [s|]; [|reflexivity].
    destruct (s =? 0)%N; [reflexivity|].
    destruct (AP1roG.N_in s (APIG.pspace self)) eqn:E; [|reflexivity].
    apply N_in_iff in E. exfalso. exact (Hnot s eq_refl E). }
  split; [exact Hout|].
  intro Hdef.
  assert (Hd : forall s, phi = Some s -> In s (APIG.pspace self) ->
                         AP1roG.excite_count self s <= 1).
  { intros s _ Hs. apply excite_count_default; assumption. }
  split; [|split].
  - unfold AP1roG.dispatch. destruct phi as [s|]; [|discriminate].
    destruct (s =? 0)%N; [discriminate|].
    destruct (AP1roG.N_in s (APIG.pspace self)) eqn:E; [|discriminate].
    apply N_in_iff in E. specialize (Hd s eq_refl E). simpl.
    destruct (AP1roG.excite_count self s) as [|[|[|c]]];
      try discriminate; lia.
  - unfold AP1roG.dispatch. destruct phi as [s|]; [|discriminate].
    destruct (s =? 0)%N; [discriminate|].
    destruct (AP1roG.N_in s (APIG.pspace self)) eqn:E; [|discriminate].
    apply N_in_iff in E. specialize (Hd s eq_refl E). simpl.
    destruct (AP1roG.excite_count self s) as [|[|[|c]]];
      try discriminate; lia.
  - intros s -> Hc. apply Hout. intros s' E Hin. inversion E; subst s'.
    specialize (Hd s eq_refl Hin). lia.
Qed.

Definition ap1rog_2_4 : APIG.geminal :=
  {| APIG.npairs := 2; APIG.norbs := 4;
     APIG.one := fun _ _ => 0%R; APIG.two := fun _ _ _ _ => 0%R;
     APIG.pspace := [15; 60; 51; 204; 195]%N; APIG.coeffs := None |}.

Lemma ap1rog_overlap_outside_pspace_witness :
  AP1roG.overlap ap1rog_2_4 (Some 240%N) (of_rows []) false None = Ok 0%R /\
  AP1roG.dispatch ap1rog_2_4 (Some 240%N) <> AP1roG.Excite_2.
Proof.
  destruct (ap1rog_overlap_outside_pspace ap1rog_2_4 (Some 240%N)
              (of_rows []) false None) as [H1 H2].
  split.
  - apply H1. intros s E. inversion E; subst s. simpl.
    intuition discriminate.
  - apply H2. split.
    + repeat constructor; simpl; intuition discriminate.
    + intro x. simpl. intuition.
Defined.

(** ** The projection space of APIG *)

Lemma length_nodup_le (l : list N) : length (nodup N.eq_dec l) <= length l.
Proof.
  induction l as [|x l IH]; simpl.
  - lia.
  - destruct (in_dec N.eq_dec x l); simpl; lia.
Qed.

Lemma len_set_NoDup (l : list N) :
  length l = APIG.len_set l -> NoDup l.
Proof.
  unfold APIG.len_set. induction l as [|x l IH]; simpl; intro H.
  - constructor.
  - destruct (in_dec N.eq_dec x l) as [Hin|Hnot].
    + pose proof (length_nodup_le l). lia.
    + simpl in H. constructor; [exact Hnot | apply IH; lia].
Qed.

Lemma add_pair_excitations_prefix (test : nat -> nat -> bool)
    (self : APIG.geminal) (nums : list nat) (l : list N) :
  exists t, APIG.add_pair_excitations test self nums l = l ++ t.
Proof.
  revert l. induction nums as [|k nums IH]; intro l; simpl.
  - exists []. symmetry. apply app_nil_r.
  - destruct (length l <? APIG.num_needed self).
    + destruct (IH (l ++ APIG.pair_excitations test self l k)) as [t Ht].
      rewrite Ht, <- app_assoc. eexists. reflexivity.
    + exists []. symmetry. apply app_nil_r.
Qed.

(** C6: whenever [APIG.generate_pspace] returns, whatever floating point
    makes of the frontier test, the tuple has exactly [npairs * norbs + 1]
    entries, no entry occurs twice, and the first entry is the ground
    determinant, in which exactly the spatial orbitals below [npairs] are
    doubly occupied. *)
Theorem apig_generate_pspace_sound :
  forall (test : nat -> nat -> bool) (self : APIG.geminal) (res : list N),
    APIG.generate_pspace test self = Ok res ->
    length res = APIG.npairs self * APIG.norbs self + 1 /\
    NoDup res /\
    hd_error res = Some (APIG.ground self) /\
    forall b, is_occupied (APIG.ground self) b = (b <? 2 * APIG.npairs self).
Proof.
  intros test self res H. unfold APIG.generate_pspace in H.
  destruct (APIG.npairs self =? 0); [discriminate|].
  destruct (add_pair_excitations_prefix test self
              (seq 1 (length (APIG.ind_occ self))) [APIG.ground self])
    as [t Ht].
  rewrite Ht in H. clear Ht.
  set (list_sd := if APIG.npairs self <=? 2
                  then ([APIG.ground self] ++ t) ++ APIG.single_excitations self
                  else [APIG.ground self] ++ t) in H.
  assert (Hhd : exists u, list_sd = APIG.ground self :: u).
  { unfold list_sd. destruct (APIG.npairs self <=? 2); simpl; eexists; reflexivity. }
  destruct (length list_sd =? APIG.len_set list_sd) eqn:E1; [|discriminate].
  destruct (APIG.num_needed self <=? length list_sd) eqn:E2; [|discriminate].
  simpl in H. inversion H; subst res; clear H.
  apply Nat.eqb_eq in E1. apply Nat.leb_le in E2.
  split; [|split; [|split]].
  - apply firstn_length_le. exact E2.
  - apply len_set_NoDup in E1.
    rewrite <- (firstn_skipn (APIG.num_needed self) list_sd) in E1.
    apply NoDup_app_remove_r in E1. exact E1.
  - destruct Hhd as [u ->]. unfold APIG.num_needed.
    rewrite Nat.add_comm. reflexivity.
  - intro b. rewrite ground_ones. apply is_occupied_ones.
Qed.

Lemma apig_generate_pspace_sound_witness :
  length [15; 51; 195; 60; 204; 240; 23; 71; 29]%N = 2 * 4 + 1 /\
  NoDup [15; 51; 195; 60; 204; 240; 23; 71; 29]%N.
Proof.
  destruct (apig_generate_pspace_sound APIG.exact_test
              (APIG.mk_geminal 2 4 (fun _ _ => 0%R) (fun _ _ _ _ => 0%R) [] None)
              [15; 51; 195; 60; 204; 240; 23; 71; 29]%N)
    as (H1 & H2 & _).
  - vm_compute. reflexivity.
  - split; [exact H1 | exact H2].
Defined.

(** ** The solver run *)

Section CallFacts.

Variable cls : APIG.geminal_class.
Variable root :
  (list R -> list N -> result (list R)) -> list R ->
  option (list R -> list N -> result ndarray) -> list N -> APIG.options ->
  result APIG.solver_result.
Variable generate_guess : APIG.geminal -> result (list R) * list APIG.printed.
Variable svd_values : ndarray -> result (list R).

(** The display of [verbose] leaves the object alone and only adds to
    the output. *)
Lemma display_keeps_self (res : APIG.solver_result) (w : APIG.world) :
  fst (snd (APIG.display svd_values res w)) = fst w /\
  exists more, snd (snd (APIG.display svd_values res w)) = snd w ++ more.
Proof.
  destruct w as [self out].
  unfold APIG.display, APIG.and_then, APIG.print, APIG.lift, APIG.ret; simpl.
  destruct (APIG.njev res); simpl;
    destruct (svd_values (APIG.fjac res)) as [sv|e]; simpl;
    try (destruct (APIG.max_list sv); simpl);
    try (destruct (APIG.min_list sv); simpl);
    rewrite <- ?app_assoc;
    (split; [reflexivity | eexists; reflexivity]).
Qed.

Definition solveropts (kw : APIG.kwargs) : APIG.options :=
  APIG.update [("xatol"%string, APIG.Float_value (1 / 10 ^ 12));
               ("method"%string, APIG.String_value "hybr"%string)]
              (APIG.kw_options kw).

Definition jac_of (kw : APIG.kwargs) (self : APIG.geminal)
  : option (list R -> list N -> result ndarray) :=
  if APIG.kw_jac kw then Some (APIG.nonlin_jac cls self) else None.

(** The guess that [__call__] hands to the solver, with what was printed
    on the way. *)
Definition guess_is (kw : APIG.kwargs) (self : APIG.geminal) (x0 : list R)
    (lines : list APIG.printed) : Prop :=
  match APIG.kw_x0 kw with
  | Some x => x0 = x /\ lines = []
  | None => generate_guess self = (Ok x0, lines)
  end.

(** The projection list that [__call__] hands to the solver. *)
Definition proj_is (kw : APIG.kwargs) (self : APIG.geminal) (proj : list N)
  : Prop :=
  match APIG.kw_proj kw with
  | [] => APIG.remove_first (APIG.ground self) (APIG.pspace self) = Ok proj
  | p => proj = p
  end.

Lemma call_reaches_root (kw : APIG.kwargs) (self : APIG.geminal)
    (out lines : list APIG.printed) (x0 : list R) (proj : list N) :
  guess_is kw self x0 lines ->
  proj_is kw self proj ->
  length x0 <= length proj ->
  APIG.call cls root generate_guess svd_values kw (self, out) =
  APIG.and_then
    (APIG.lift (root (APIG.nonlin cls self) x0 (jac_of kw self) proj
                     (solveropts kw)))
    (fun result =>
       APIG.and_then
         (if APIG.success result then APIG.assign_coeffs cls (APIG.x result)
          else APIG.print APIG.not_converged)
         (fun _ =>
            APIG.and_then
              (if APIG.kw_verbose kw then APIG.display svd_values result
               else APIG.ret tt)
              (fun _ => APIG.ret result)))
    (self, out ++ lines).
Proof.
  intros Hx0 Hproj Hlen.
  unfold APIG.call, guess_is, proj_is in *.
  unfold APIG.and_then at 1.
  assert (E0 : match APIG.kw_x0 kw with
               | Some x1 => APIG.ret x1
               | None => APIG.guess generate_guess
               end (self, out) = (Ok x0, (self, out ++ lines))).
  { destruct (APIG.kw_x0 kw) as [x1|].
    - destruct Hx0 as [-> ->]. rewrite app_nil_r. reflexivity.
    - unfold APIG.guess. simpl. rewrite Hx0. reflexivity. }
  rewrite E0. unfold APIG.and_then at 1. unfold APIG.get_self at 1.
  cbn [fst snd].
  unfold APIG.and_then at 1.
  assert (E1 : match APIG.kw_proj kw with
               | [] => APIG.lift (APIG.remove_first (APIG.ground self)
                                                    (APIG.pspace self))
               | n :: l => APIG.ret (n :: l)
               end (self, out ++ lines) = (Ok proj, (self, out ++ lines))).
  { destruct (APIG.kw_proj kw) as [|n l].
    - unfold APIG.lift. rewrite Hproj. reflexivity.
    - rewrite Hproj. reflexivity. }
  rewrite E1.
  replace (length proj <? length x0) with false
    by (symmetry; apply Nat.ltb_ge; exact Hlen).
  reflexivity.
Qed.

(** What [__call__] does once the solver has returned [result]. *)
Definition after_root (kw : APIG.kwargs) (result : APIG.solver_result)
  : APIG.method APIG.solver_result :=
  APIG.and_then
    (if APIG.success result then APIG.assign_coeffs cls (APIG.x result)
     else APIG.print APIG.not_converged)
    (fun _ =>
       APIG.and_then
         (if APIG.kw_verbose kw then APIG.display svd_values result
          else APIG.ret tt)
         (fun _ => APIG.ret result)).

Lemma after_root_failure (kw : APIG.kwargs) (res : APIG.solver_result)
    (self : APIG.geminal) (out : list APIG.printed) :
  APIG.success res = false ->
  fst (snd (after_root kw res (self, out))) = self /\
  (exists more,
     snd (snd (after_root kw res (self, out)))
     = out ++ [APIG.not_converged] ++ more) /\
  (forall r, fst (after_root kw res (self, out)) = Ok r -> r = res).
Proof.
  intro Hs.
  assert (E : after_root kw res (self, out) =
              APIG.and_then
                (if APIG.kw_verbose kw then APIG.display svd_values res
                 else APIG.ret tt)
                (fun _ => APIG.ret res) (self, out ++ [APIG.not_converged])).
  { unfold after_root. rewrite Hs. reflexivity. }
  rewrite E. clear E.
  destruct (APIG.kw_verbose kw).
  - destruct (display_keeps_self res (self, out ++ [APIG.not_converged]))
      as [H1 [more H2]].
    unfold APIG.and_then.
    destruct (APIG.display svd_values res (self, out ++ [APIG.not_converged]))
      as [[u|e] [self' out']]; cbn [fst snd] in *; subst self' out';
      (split; [reflexivity | split]).
    + exists more. rewrite <- app_assoc. reflexivity.
    + intros r E. inversion E. reflexivity.
    + exists more. rewrite <- app_assoc. reflexivity.
    + intros r E. discriminate.
  - cbn. split; [reflexivity | split].
    + exists []. reflexivity.
    + intros r E. inversion E. reflexivity.
Qed.

Lemma after_root_success (kw : APIG.kwargs) (res : APIG.solver_result)
    (self : APIG.geminal) (out : list APIG.printed) :
  APIG.success res = true ->
  match APIG.coeffs_setter cls self (APIG.x res) with
  | Ok m => APIG.coeffs (fst (snd (after_root kw res (self, out)))) = Some m
  | Raise e => after_root kw res (self, out) = (Raise e, (self, out))
  end.
Proof.
  intro Hs.
  destruct (APIG.coeffs_setter cls self (APIG.x res)) as [m|e] eqn:Em.
  - assert (E : exists self',
                APIG.coeffs self' = Some m /\
                after_root kw res (self, out) =
                APIG.and_then
                  (if APIG.kw_verbose kw then APIG.display svd_values res
                   else APIG.ret tt)
                  (fun _ => APIG.ret res) (self', out)).
    { eexists. split; [|unfold after_root; rewrite Hs;
                         unfold APIG.and_then at 1, APIG.assign_coeffs;
                         cbn [fst snd]; rewrite Em; reflexivity].
      reflexivity. }
    destruct E as (self' & Hc & E). rewrite E. clear E.
    destruct (APIG.kw_verbose kw).
    + destruct (display_keeps_self res (self', out)) as [H1 _].
      unfold APIG.and_then.
      destruct (APIG.display svd_values res (self', out))
        as [[u|e] [self'' out']]; cbn [fst snd] in *; subst self''; exact Hc.
    + exact Hc.
  - unfold after_root. rewrite Hs.
    unfold APIG.and_then at 1, APIG.assign_coeffs. cbn [fst snd].
    rewrite Em. reflexivity.
Qed.

(** Either [__call__] raises before the solver has returned a result, the
    object being as before, or it goes on with the result of the solver. *)
Lemma call_cases (kw : APIG.kwargs) (self : APIG.geminal)
    (out : list APIG.printed) :
  (exists e out',
     APIG.call cls root generate_guess svd_values kw (self, out)
     = (Raise e, (self, out'))) \/
  (exists x0 lines proj res,
     guess_is kw self x0 lines /\ proj_is kw self proj /\
     length x0 <= length proj /\
     root (APIG.nonlin cls self) x0 (jac_of kw self) proj (solveropts kw)
     = Ok res /\
     APIG.call cls root generate_guess svd_values kw (self, out)
     = after_root kw res (self, out ++ lines)).
Proof.
  assert (G : forall x0 lines,
             guess_is kw self x0 lines ->
             (exists e out',
                APIG.call cls root generate_guess svd_values kw (self, out)
                = (Raise e, (self, out'))) \/
             (exists x0 lines proj res,
                guess_is kw self x0 lines /\ proj_is kw self proj /\
                length x0 <= length proj /\
                root (APIG.nonlin cls self) x0 (jac_of kw self) proj
                     (solveropts kw) = Ok res /\
                APIG.call cls root generate_guess svd_values kw (self, out)
                = after_root kw res (self, out ++ lines))).
  { intros x0 lines Hx0.
    assert (E0 : match APIG.kw_x0 kw with
                 | Some x1 => APIG.ret x1
                 | None => APIG.guess generate_guess
                 end (self, out) = (Ok x0, (self, out ++ lines))).
    { unfold guess_is in Hx0. destruct (APIG.kw_x0 kw) as [x1|].
      - destruct Hx0 as [-> ->]. rewrite app_nil_r. reflexivity.
      - unfold APIG.guess. simpl. rewrite Hx0. reflexivity. }
    assert (P : (exists e, match APIG.kw_proj kw with
                           | [] => APIG.lift (APIG.remove_first (APIG.ground self)
                                                (APIG.pspace self))
                           | n :: l => APIG.ret (n :: l)
                           end (self, out ++ lines)
                           = (Raise e, (self, out ++ lines)))
                \/ exists proj, proj_is kw self proj).
    { unfold proj_is. destruct (APIG.kw_proj kw) as [|n l].
      - unfold APIG.lift.
        destruct (APIG.remove_first (APIG.ground self) (APIG.pspace self))
          as [proj|e].
        + right. exists proj. reflexivity.
        + left. exists e. reflexivity.
      - right. exists (n :: l). reflexivity. }
    destruct P as [[e He] | [proj Hproj]].
    - left. exists e, (out ++ lines).
      unfold APIG.call. unfold APIG.and_then at 1. rewrite E0.
      unfold APIG.and_then at 1. unfold APIG.get_self at 1. cbn [fst snd].
      unfold APIG.and_then at 1. rewrite He. reflexivity.
    - destruct (Nat.le_gt_cases (length x0) (length proj)) as [Hlen|Hlen].
      + rewrite (call_reaches_root kw self out lines x0 proj Hx0 Hproj Hlen).
        unfold APIG.and_then at 1. unfold APIG.lift at 1.
        destruct (root (APIG.nonlin cls self) x0 (jac_of kw self) proj
                       (solveropts kw)) as [res|e] eqn:Eroot.
        * right. exists x0, lines, proj, res.
          repeat split; try assumption.
        * left. exists e, (out ++ lines). reflexivity.
      + left. exists ValueError, (out ++ lines).
        unfold APIG.call. unfold APIG.and_then at 1. rewrite E0.
        unfold APIG.and_then at 1. unfold APIG.get_self at 1. cbn [fst snd].
        unfold APIG.and_then at 1.
        assert (E1 : match APIG.kw_proj kw with
                     | [] => APIG.lift (APIG.remove_first (APIG.ground self)
                                          (APIG.pspace self))
                     | n :: l => APIG.ret (n :: l)
                     end (self, out ++ lines) = (Ok proj, (self, out ++ lines))).
        { unfold proj_is in Hproj. destruct (APIG.kw_proj kw) as [|n l].
          - unfold APIG.lift. rewrite Hproj. reflexivity.
          - rewrite Hproj. reflexivity. }
        rewrite E1.
        replace (length proj <? length x0) with true
          by (symmetry; apply Nat.ltb_lt; exact Hlen).
        reflexivity. }
  destruct (APIG.kw_x0 kw) as [x1|] eqn:Ex0.
  - apply (G x1 []). unfold guess_is. rewrite Ex0. split; reflexivity.
  - destruct (generate_guess self) as [[x0|e] lines] eqn:Eg.
    + apply (G x0 lines). unfold guess_is. rewrite Ex0. exact Eg.
    + left. exists e, (out ++ lines).
      unfold APIG.call. unfold APIG.and_then at 1. rewrite Ex0.
      unfold APIG.guess. cbn [fst snd]. rewrite Eg. reflexivity.
Qed.

End CallFacts.

(** C9: [APIG.__call__] and a solver that reports failure.  Whenever
    [__call__] gets as far as the solver and the solver returns a result
    whose [success] is false, the object is left as it was (its coefficients
    in particular), and the notice that the solution did not converge is
    printed; when [success] is true the coefficients become what the setter
    makes of the solver's [x].  And on every path through [__call__], also
    those that raise, coefficients that differ from the ones before come
    from a result of the solver whose [success] is true. *)
Theorem call_updates_coeffs_only_on_success :
  forall (cls : APIG.geminal_class)
         (root : (list R -> list N -> result (list R)) -> list R ->
                 option (list R -> list N -> result ndarray) -> list N ->
                 APIG.options -> result APIG.solver_result)
         (generate_guess : APIG.geminal -> result (list R) * list APIG.printed)
         (svd_values : ndarray -> result (list R))
         (kw : APIG.kwargs) (self : APIG.geminal) (out : list APIG.printed),
    let r := APIG.call cls root generate_guess svd_values kw (self, out) in
    (forall x0 lines proj res,
        guess_is generate_guess kw self x0 lines ->
        proj_is kw self proj ->
        length x0 <= length proj ->
        root (APIG.nonlin cls self) x0 (jac_of cls kw self) proj (solveropts kw)
        = Ok res ->
        (APIG.success res = false ->
         fst (snd r) = self /\
         (exists more,
            snd (snd r) = out ++ lines ++ [APIG.not_converged] ++ more) /\
         (forall res', fst r = Ok res' -> res' = res)) /\
        (APIG.success res = true ->
         forall m, APIG.coeffs_setter cls self (APIG.x res) = Ok m ->
                   APIG.coeffs (fst (snd r)) = Some m)) /\
    (APIG.coeffs (fst (snd r)) = APIG.coeffs self \/
     exists x0 proj res m,
       root (APIG.nonlin cls self) x0 (jac_of cls kw self) proj (solveropts kw)
       = Ok res /\
       APIG.success res = true /\
       APIG.coeffs_setter cls self (APIG.x res) = Ok m /\
       APIG.coeffs (fst (snd r)) = Some m).
Proof.
  intros cls root generate_guess svd_values kw self out r.
  assert (Main : forall x0 lines proj res,
             guess_is generate_guess kw self x0 lines ->
             proj_is kw self proj ->
             length x0 <= length proj ->
             root (APIG.nonlin cls self) x0 (jac_of cls kw self) proj
                  (solveropts kw) = Ok res ->
             r = after_root cls svd_values kw res (self, out ++ lines)).
  { intros x0 lines proj res Hx0 Hproj Hlen Hroot. unfold r.
    rewrite (call_reaches_root cls root generate_guess svd_values kw self out
               lines x0 proj Hx0 Hproj Hlen).
    unfold APIG.and_then at 1. unfold APIG.lift at 1. rewrite Hroot.
    reflexivity. }
  split.
  - intros x0 lines proj res Hx0 Hproj Hlen Hroot.
    rewrite (Main x0 lines proj res Hx0 Hproj Hlen Hroot). split.
    + intro Hs.
      destruct (after_root_failure cls svd_values kw res self (out ++ lines) Hs)
        as (H1 & [more H2] & H3).
      split; [exact H1 | split; [|exact H3]].
      exists more. rewrite H2, <- app_assoc. reflexivity.
    + intros Hs m Hm.
      pose proof (after_root_success cls svd_values kw res self (out ++ lines) Hs)
        as H.
      rewrite Hm in H. exact H.
  - destruct (call_cases cls root generate_guess svd_values kw self out)
      as [(e & out' & E) | (x0 & lines & proj & res & Hx0 & Hproj & Hlen & Hroot & E)].
    + left. unfold r. rewrite E. reflexivity.
    + unfold r. rewrite E.
      destruct (APIG.success res) eqn:Hs.
      * pose proof (after_root_success cls svd_values kw res self (out ++ lines) Hs)
          as H.
        destruct (APIG.coeffs_setter cls self (APIG.x res)) as [m|e'] eqn:Em.
        -- right. exists x0, proj, res, m. repeat split; assumption.
        -- left. rewrite H. reflexivity.
      * left.
        destruct (after_root_failure cls svd_values kw res self (out ++ lines) Hs)
          as (H1 & _).
        rewrite H1. reflexivity.
Qed.

(** A solver that gives up at once. *)
Definition failing_root
    (f : list R -> list N -> result (list R)) (x0 : list R)
    (jac : option (list R -> list N -> result ndarray)) (proj : list N)
    (opts : APIG.options) : result APIG.solver_result :=
  Ok {| APIG.success := false; APIG.x := x0; APIG.nfev := 0;
        APIG.njev := None; APIG.fjac := of_rows [] |}.

Definition no_guess (self : APIG.geminal)
  : result (list R) * list APIG.printed :=
  (Raise ValueError, []).

Definition kwargs_h2 : APIG.kwargs :=
  {| APIG.kw_x0 := Some [1; 0]%R; APIG.kw_jac := false;
     APIG.kw_proj := [3; 12]%N; APIG.kw_options := [];
     APIG.kw_verbose := false |}.

Lemma call_updates_coeffs_only_on_success_witness :
  fst (snd (APIG.call APIG.APIG_class failing_root no_guess
              (fun _ => Ok []) kwargs_h2 (h2_system, []))) = h2_system /\
  exists more,
    snd (snd (APIG.call APIG.APIG_class failing_root no_guess
                (fun _ => Ok []) kwargs_h2 (h2_system, [])))
    = [] ++ [] ++ [APIG.not_converged] ++ more.
Proof.
  destruct (call_updates_coeffs_only_on_success APIG.APIG_class failing_root
              no_guess (fun _ => Ok []) kwargs_h2 h2_system []) as [H _].
  destruct (H [1; 0]%R [] [3; 12]%N
              {| APIG.success := false; APIG.x := [1; 0]%R; APIG.nfev := 0;
                 APIG.njev := None; APIG.fjac := of_rows [] |}) as [Hf _].
  - split; reflexivity.
  - reflexivity.
  - simpl. lia.
  - reflexivity.
  - destruct (Hf eq_refl) as (H1 & H2 & _). split; assumption.
Defined.

(** ** Sums and products over lists *)

Section Sums.

Local Open Scope R_scope.

Lemma fold_left_Rplus_acc {A : Type} (f : A -> R) (l : list A) (a : R) :
  fold_left (fun acc x => acc + f x) l a
  = a + fold_left (fun acc x => acc + f x) l 0.
Proof.
  revert a. induction l as [|x l IH]; intro a; simpl.
  - lra.
  - rewrite IH, (IH (0 + f x)). lra.
Qed.

Lemma sum_over_nil {A : Type} (f : A -> R) : sum_over [] f = 0.
Proof. reflexivity. Qed.

Lemma sum_over_cons {A : Type} (f : A -> R) (x : A) (l : list A) :
  sum_over (x :: l) f = f x + sum_over l f.
Proof.
  unfold sum_over. simpl. rewrite fold_left_Rplus_acc. lra.
Qed.

Lemma sum_over_app {A : Type} (f : A -> R) (l l' : list A) :
  sum_over (l ++ l') f = sum_over l f + sum_over l' f.
Proof.
  induction l as [|x l IH]; simpl.
  - rewrite sum_over_nil. lra.
  - rewrite !sum_over_cons, IH. lra.
Qed.

Lemma sum_over_ext {A : Type} (f g : A -> R) (l : list A) :
  (forall x, In x l -> f x = g x) -> sum_over l f = sum_over l g.
Proof.
  induction l as [|x l IH]; intro H.
  - reflexivity.
  - rewrite !sum_over_cons, IH, (H x).
    + reflexivity.
    + left. reflexivity.
    + intros y Hy. apply H. right. exact Hy.
Qed.

Lemma sum_over_zero {A : Type} (f : A -> R) (l : list A) :
  (forall x, In x l -> f x = 0) -> sum_over l f = 0.
Proof.
  induction l as [|x l IH]; intro H.
  - reflexivity.
  - rewrite sum_over_cons, IH, (H x).
    + lra.
    + left. reflexivity.
    + intros y Hy. apply H. right. exact Hy.
Qed.

Lemma sum_over_map {A B : Type} (g : A -> B) (f : B -> R) (l : list A) :
  sum_over (map g l) f = sum_over l (fun x => f (g x)).
Proof.
  induction l as [|x l IH]; simpl.
  - reflexivity.
  - rewrite !sum_over_cons, IH. reflexivity.
Qed.

Lemma sum_over_flat_map {A B : Type} (g : A -> list B) (f : B -> R)
    (l : list A) :
  sum_over (flat_map g l) f = sum_over l (fun x => sum_over (g x) f).
Proof.
  induction l as [|x l IH]; simpl.
  - reflexivity.
  - rewrite sum_over_app, sum_over_cons, IH. reflexivity.
Qed.

Lemma sum_over_scal {A : Type} (c : R) (f : A -> R) (l : list A) :
  sum_over l (fun x => c * f x) = c * sum_over l f.
Proof.
  induction l as [|x l IH].
  - rewrite !sum_over_nil. lra.
  - rewrite !sum_over_cons, IH. lra.
Qed.

Lemma sum_over_plus {A : Type} (f g : A -> R) (l : list A) :
  sum_over l (fun x => f x + g x) = sum_over l f + sum_over l g.
Proof.
  induction l as [|x l IH].
  - rewrite !sum_over_nil. lra.
  - rewrite !sum_over_cons, IH. lra.
Qed.

Lemma sum_over_swap {A B : Type} (f : A -> B -> R) (l : list A) (l' : list B) :
  sum_over l (fun x => sum_over l' (fun y => f x y))
  = sum_over l' (fun y => sum_over l (fun x => f x y)).
Proof.
  induction l as [|x l IH].
  - rewrite sum_over_nil. symmetry. apply sum_over_zero. reflexivity.
  - rewrite sum_over_cons, IH, <- sum_over_plus.
    apply sum_over_ext. intros y _. rewrite sum_over_cons. reflexivity.
Qed.

Lemma sum_over_Permutation {A : Type} (f : A -> R) (l l' : list A) :
  Permutation l l' -> sum_over l f = sum_over l' f.
Proof.
  induction 1 as [|x l l' _ IH|x y l|l l' l'' _ IH1 _ IH2].
  - reflexivity.
  - rewrite !sum_over_cons, IH. reflexivity.
  - rewrite !sum_over_cons. lra.
  - rewrite IH1. exact IH2.
Qed.

(** A sum in which one term only is not zero. *)
Lemma sum_over_single (f : nat -> R) (l : list nat) (x : nat) :
  NoDup l -> In x l -> (forall y, In y l -> y <> x -> f y = 0) ->
  sum_over l f = f x.
Proof.
  induction l as [|y l IH]; intros Hnd Hin Hz.
  - contradiction.
  - rewrite sum_over_cons. inversion Hnd as [|? ? Hnot Hnd']; subst.
    destruct Hin as [->|Hin].
    + rewrite sum_over_zero; [lra|].
      intros z Hz'. apply Hz; [right; exact Hz'|].
      intros ->. contradiction.
    + rewrite IH; try assumption.
      * rewrite (Hz y); [lra | left; reflexivity |].
        intros ->. contradiction.
      * intros z Hz' Hne. apply Hz; [right; exact Hz' | exact Hne].
Qed.

Lemma fold_left_Rmult_acc (l : list R) (a : R) :
  fold_left Rmult l a = a * fold_left Rmult l 1.
Proof.
  revert a. induction l as [|x l IH]; intro a; simpl.
  - lra.
  - rewrite IH, (IH (1 * x)). lra.
Qed.

Lemma prod_list_nil : prod_list [] = 1.
Proof. reflexivity. Qed.

Lemma prod_list_cons (x : R) (l : list R) :
  prod_list (x :: l) = x * prod_list l.
Proof.
  unfold prod_list. simpl. rewrite fold_left_Rmult_acc. lra.
Qed.

Lemma prod_list_app (l l' : list R) :
  prod_list (l ++ l') = prod_list l * prod_list l'.
Proof.
  induction l as [|x l IH]; simpl.
  - rewrite prod_list_nil. lra.
  - rewrite !prod_list_cons, IH. lra.
Qed.

End Sums.

(** ** The permanent by expansion along the rows *)

Section PermanentExpansion.

Local Open Scope R_scope.

Local Arguments drop : simpl never.

Lemma drop_notin (c : nat) (l : list nat) : ~ In c l -> drop c l = l.
Proof.
  unfold drop. induction l as [|x l IH]; intro H; simpl.
  - reflexivity.
  - destruct (Nat.eqb_spec x c) as [->|_].
    + exfalso. apply H. left. reflexivity.
    + simpl. f_equal. apply IH. intro Hin. apply H. right. exact Hin.
Qed.

Lemma in_drop (c x : nat) (l : list nat) :
  In x (drop c l) <-> In x l /\ x <> c.
Proof.
  unfold drop. rewrite filter_In. split; intros [H1 H2]; split; try assumption.
  - apply negb_true_iff, Nat.eqb_neq in H2. exact H2.
  - apply negb_true_iff, Nat.eqb_neq. exact H2.
Qed.

Lemma NoDup_drop (c : nat) (l : list nat) : NoDup l -> NoDup (drop c l).
Proof. apply NoDup_filter. Qed.

Lemma length_drop (c : nat) (l : list nat) :
  NoDup l -> In c l -> S (length (drop c l)) = length l.
Proof.
  induction l as [|x l IH]; intros Hnd Hin.
  - contradiction.
  - inversion Hnd as [|? ? Hnot Hnd']; subst. unfold drop. simpl.
    destruct (Nat.eqb_spec x c) as [->|Hne]; simpl.
    + fold (drop c l). rewrite drop_notin by assumption. reflexivity.
    + fold (drop c l). f_equal. apply IH; [assumption|].
      destruct Hin as [->|Hin]; [contradiction | exact Hin].
Qed.

Lemma drop_comm (c c' : nat) (l : list nat) :
  drop c (drop c' l) = drop c' (drop c l).
Proof.
  unfold drop. induction l as [|x l IH]; simpl.
  - reflexivity.
  - destruct (x =? c') eqn:E1, (x =? c) eqn:E2; simpl;
      rewrite ?E1, ?E2; simpl; rewrite IH; reflexivity.
Qed.

Lemma picks_NoDup (l : list nat) :
  NoDup l -> picks l = map (fun c => (c, drop c l)) l.
Proof.
  induction l as [|x l IH]; intro Hnd; simpl.
  - reflexivity.
  - inversion Hnd as [|? ? Hnot Hnd']; subst.
    unfold drop at 1. simpl. rewrite Nat.eqb_refl. simpl. fold (drop x l).
    rewrite drop_notin by assumption. f_equal.
    rewrite IH by assumption. rewrite map_map. apply map_ext_in.
    intros c Hc. simpl. unfold drop at 2. simpl.
    destruct (Nat.eqb_spec x c) as [->|_]; [contradiction|]. reflexivity.
Qed.

Lemma prod_along_cons (m : ndarray) (r c : nat) (rows cols : list nat) :
  prod_along m (r :: rows) (c :: cols)
  = get m r c * prod_along m rows cols.
Proof. unfold prod_along. simpl. apply prod_list_cons. Qed.

(** The sum over [itertools.permutations] is the expansion along the rows. *)
Lemma permanent_expand (m : ndarray) (rows cols : list nat) :
  NoDup cols ->
  sum_over (permutations (length rows) cols) (prod_along m rows)
  = perm_rows (get m) rows cols.
Proof.
  revert cols. induction rows as [|r rows IH]; intros cols Hnd; simpl.
  - rewrite sum_over_cons, sum_over_nil. unfold prod_along, prod_list.
    simpl. lra.
  - rewrite sum_over_flat_map, picks_NoDup by assumption.
    rewrite sum_over_map. apply sum_over_ext. intros c Hc. simpl.
    rewrite sum_over_map.
    rewrite (sum_over_ext _ (fun s => get m r c * prod_along m rows s)).
    + rewrite sum_over_scal, IH; [reflexivity | apply NoDup_drop; assumption].
    + intros s _. apply prod_along_cons.
Qed.

Variable m : nat -> nat -> R.

(** A free column in which no row has an entry: the permanent is 0. *)
Lemma perm_rows_zero_col (rows cols : list nat) (c : nat) :
  NoDup cols -> In c cols -> length rows = length cols ->
  (forall i, In i rows -> m i c = 0) ->
  perm_rows m rows cols = 0.
Proof.
  revert cols. induction rows as [|r rows IH]; intros cols Hnd Hin Hlen Hz.
  - destruct cols; [contradiction | discriminate].
  - simpl. apply sum_over_zero. intros c' Hc'.
    destruct (Nat.eq_dec c' c) as [->|Hne].
    + rewrite Hz; [lra | left; reflexivity].
    + rewrite IH; [lra | apply NoDup_drop; assumption | | |].
      * apply in_drop. split; [assumption | congruence].
      * pose proof (length_drop c' cols Hnd Hc'). simpl in Hlen. lia.
      * intros i Hi. apply Hz. right. exact Hi.
Qed.

(** A free column whose only entry is a 1 in row [k]: row [k] takes it. *)
Lemma perm_rows_unit_col (rows cols : list nat) (k c : nat) :
  NoDup rows -> NoDup cols -> In k rows -> In c cols ->
  length rows = length cols ->
  (forall i, In i rows -> m i c = if i =? k then 1 else 0) ->
  perm_rows m rows cols = perm_rows m (drop k rows) (drop c cols).
Proof.
  revert cols. induction rows as [|r rows IH];
    intros cols Hndr Hndc Hk Hc Hlen Hcol.
  - contradiction.
  - inversion Hndr as [|? ? Hnot Hndr']; subst. simpl.
    destruct (Nat.eq_dec r k) as [->|Hne].
    + replace (drop k (k :: rows)) with rows.
      2:{ unfold drop. simpl. rewrite Nat.eqb_refl. simpl. fold (drop k rows).
          symmetry. apply drop_notin. assumption. }
      rewrite (sum_over_single _ cols c Hndc Hc).
      * rewrite Hcol by (left; reflexivity). rewrite Nat.eqb_refl. lra.
      * intros c' Hc' Hne.
        rewrite (perm_rows_zero_col rows (drop c' cols) c); [lra | | | |].
        -- apply NoDup_drop. assumption.
        -- apply in_drop. split; [assumption | congruence].
        -- pose proof (length_drop c' cols Hndc Hc'). simpl in Hlen. lia.
        -- intros i Hi. rewrite Hcol by (right; exact Hi).
           destruct (Nat.eqb_spec i k) as [->|_]; [contradiction | reflexivity].
    + destruct Hk as [->|Hk]; [contradiction|].
      replace (drop k (r :: rows)) with (r :: drop k rows).
      2:{ unfold drop. simpl.
          replace (r =? k) with false by (symmetry; apply Nat.eqb_neq; exact Hne).
          reflexivity. }
      simpl.
      rewrite (sum_over_Permutation _ cols (c :: drop c cols)).
      * rewrite sum_over_cons. rewrite Hcol by (left; reflexivity).
        replace (r =? k) with false by (symmetry; apply Nat.eqb_neq; exact Hne).
        rewrite Rmult_0_l, Rplus_0_l.
        apply sum_over_ext. intros c' Hc'. apply in_drop in Hc'.
        destruct Hc' as [Hc' Hne']. f_equal.
        rewrite (drop_comm c' c).
        apply IH; try assumption.
        -- apply NoDup_drop. assumption.
        -- apply in_drop. split; [assumption | congruence].
        -- pose proof (length_drop c' cols Hndc Hc'). simpl in Hlen. lia.
        -- intros i Hi. apply Hcol. right. exact Hi.
      * apply NoDup_Permutation.
        -- assumption.
        -- constructor; [|apply NoDup_drop; assumption].
           intro H. apply in_drop in H. destruct H as [_ H]. congruence.
        -- intro y. simpl. rewrite in_drop.
           destruct (Nat.eq_dec y c) as [->|Hy]; split; intro H; auto.
           ++ destruct H as [H|[H _]]; [subst; assumption | assumption].
Qed.

End PermanentExpansion.

(** ** Pair excitations of several pairs *)

Section PairExcitations.

Definition mem (p : nat) (l : list nat) : bool := existsb (Nat.eqb p) l.

Definition in_pairs (b : nat) (l : list nat) : bool :=
  existsb (fun p => (b =? 2 * p) || (b =? 2 * p + 1)) l.

Lemma mem_iff (p : nat) (l : list nat) : mem p l = true <-> In p l.
Proof.
  unfold mem. rewrite existsb_exists. split.
  - intros (q & Hq & E). apply Nat.eqb_eq in E. subst q. exact Hq.
  - intro H. exists p. split; [exact H | apply Nat.eqb_refl].
Qed.

Lemma in_pairs_even (p : nat) (l : list nat) : in_pairs (2 * p) l = mem p l.
Proof.
  unfold in_pairs, mem. induction l as [|q l IH]; cbn [existsb].
  - reflexivity.
  - rewrite IH. f_equal.
    destruct (Nat.eqb_spec p q) as [->|Hne].
    + rewrite Nat.eqb_refl. reflexivity.
    + replace (2 * p =? 2 * q) with false by (symmetry; apply Nat.eqb_neq; lia).
      replace (2 * p =? 2 * q + 1) with false
        by (symmetry; apply Nat.eqb_neq; lia).
      reflexivity.
Qed.

Lemma in_pairs_odd (p : nat) (l : list nat) : in_pairs (2 * p + 1) l = mem p l.
Proof.
  unfold in_pairs, mem. induction l as [|q l IH]; cbn [existsb].
  - reflexivity.
  - rewrite IH. f_equal.
    destruct (Nat.eqb_spec p q) as [->|Hne].
    + rewrite Nat.eqb_refl. apply orb_true_r.
    + replace (2 * p + 1 =? 2 * q) with false
        by (symmetry; apply Nat.eqb_neq; lia).
      replace (2 * p + 1 =? 2 * q + 1) with false
        by (symmetry; apply Nat.eqb_neq; lia).
      reflexivity.
Qed.

Lemma remove_pairs_opt_ok (l : list nat) :
  forall sd, NoDup l ->
    (forall p, In p l -> is_pair_occupied sd p = true) ->
    exists sd', remove_pairs_opt sd l = Some sd' /\
                forall b, is_occupied sd' b
                          = is_occupied sd b && negb (in_pairs b l).
Proof.
  induction l as [|p l IH]; intros sd Hnd Hocc.
  - exists sd. split; [reflexivity|]. intro b. simpl. symmetry.
    apply andb_true_r.
  - inversion Hnd as [|? ? Hnot Hnd']; subst. cbn [remove_pairs_opt in_pairs existsb].
    rewrite Hocc by (left; reflexivity).
    set (sd1 := N.clearbit (N.clearbit sd (N.of_nat (2 * p)))
                           (N.of_nat (2 * p + 1))).
    assert (H1 : forall b, is_occupied sd1 b
                           = is_occupied sd b
                             && negb ((b =? 2 * p) || (b =? 2 * p + 1))).
    { intro b. unfold sd1. rewrite !is_occupied_clearbit.
      rewrite (Nat.eqb_sym (2 * p + 1) b), (Nat.eqb_sym (2 * p) b).
      destruct (is_occupied sd b), (b =? 2 * p), (b =? 2 * p + 1);
        reflexivity. }
    destruct (IH sd1 Hnd') as (sd' & E & Hb).
    + intros q Hq. unfold is_pair_occupied. rewrite !H1.
      assert (q <> p) by (intros ->; contradiction).
      specialize (Hocc q (or_intror Hq)). unfold is_pair_occupied in Hocc.
      apply andb_true_iff in Hocc. destruct Hocc as [-> ->].
      replace (2 * q =? 2 * p) with false by (symmetry; apply Nat.eqb_neq; lia).
      replace (2 * q =? 2 * p + 1) with false
        by (symmetry; apply Nat.eqb_neq; lia).
      replace (2 * q + 1 =? 2 * p) with false
        by (symmetry; apply Nat.eqb_neq; lia).
      replace (2 * q + 1 =? 2 * p + 1) with false
        by (symmetry; apply Nat.eqb_neq; lia).
      reflexivity.
    + exists sd'. split; [exact E|]. intro b. rewrite Hb, H1.
      fold (in_pairs b l).
      destruct (is_occupied sd b), ((b =? 2 * p) || (b =? 2 * p + 1)),
        (in_pairs b l); reflexivity.
Qed.

Lemma add_pairs_opt_ok (l : list nat) :
  forall sd, NoDup l ->
    (forall p, In p l -> is_occupied sd (2 * p) = false /\
                         is_occupied sd (2 * p + 1) = false) ->
    exists sd', add_pairs_opt sd l = Some sd' /\
                forall b, is_occupied sd' b = is_occupied sd b || in_pairs b l.
Proof.
  induction l as [|p l IH]; intros sd Hnd Hfree.
  - exists sd. split; [reflexivity|]. intro b. simpl. symmetry.
    apply orb_false_r.
  - inversion Hnd as [|? ? Hnot Hnd']; subst. cbn [add_pairs_opt in_pairs existsb].
    destruct (Hfree p (or_introl eq_refl)) as [-> ->]. cbn [orb].
    set (sd1 := N.setbit (N.setbit sd (N.of_nat (2 * p)))
                         (N.of_nat (2 * p + 1))).
    assert (H1 : forall b, is_occupied sd1 b
                           = is_occupied sd b
                             || ((b =? 2 * p) || (b =? 2 * p + 1))).
    { intro b. unfold sd1. rewrite !is_occupied_setbit.
      rewrite (Nat.eqb_sym (2 * p + 1) b), (Nat.eqb_sym (2 * p) b).
      destruct (is_occupied sd b), (b =? 2 * p), (b =? 2 * p + 1);
        reflexivity. }
    destruct (IH sd1 Hnd') as (sd' & E & Hb).
    + intros q Hq. rewrite !H1.
      assert (q <> p) by (intros ->; contradiction).
      destruct (Hfree q (or_intror Hq)) as [-> ->].
      replace (2 * q =? 2 * p) with false by (symmetry; apply Nat.eqb_neq; lia).
      replace (2 * q =? 2 * p + 1) with false
        by (symmetry; apply Nat.eqb_neq; lia).
      replace (2 * q + 1 =? 2 * p) with false
        by (symmetry; apply Nat.eqb_neq; lia).
      replace (2 * q + 1 =? 2 * p + 1) with false
        by (symmetry; apply Nat.eqb_neq; lia).
      split; reflexivity.
    + exists sd'. split; [exact E|]. intro b. rewrite Hb, H1.
      fold (in_pairs b l).
      destruct (is_occupied sd b), ((b =? 2 * p) || (b =? 2 * p + 1)),
        (in_pairs b l); reflexivity.
Qed.

(** The occupations after an allowed excitation of several pairs. *)
Lemma is_occupied_excite_pairs_list (sd : N) (occ vir : list nat) (b : nat) :
  NoDup occ -> NoDup vir ->
  (forall p, In p occ -> is_pair_occupied sd p = true) ->
  (forall p, In p vir -> is_occupied sd (2 * p) = false /\
                         is_occupied sd (2 * p + 1) = false) ->
  is_occupied (excite_pairs sd occ vir) b
  = (is_occupied sd b && negb (in_pairs b occ)) || in_pairs b vir.
Proof.
  intros Hno Hnv Hocc Hvir. unfold excite_pairs.
  destruct (remove_pairs_opt_ok occ sd Hno Hocc) as (sd1 & -> & H1).
  destruct (add_pairs_opt_ok vir sd1 Hnv) as (sd2 & -> & H2).
  - intros p Hp. rewrite !H1. destruct (Hvir p Hp) as [-> ->].
    split; reflexivity.
  - simpl. rewrite H2, H1. reflexivity.
Qed.

Lemma is_pair_occupied_excite_pairs_list (sd : N) (occ vir : list nat)
    (p : nat) :
  NoDup occ -> NoDup vir ->
  (forall q, In q occ -> is_pair_occupied sd q = true) ->
  (forall q, In q vir -> is_occupied sd (2 * q) = false /\
                         is_occupied sd (2 * q + 1) = false) ->
  is_pair_occupied (excite_pairs sd occ vir) p
  = (is_pair_occupied sd p && negb (mem p occ)) || mem p vir.
Proof.
  intros Hno Hnv Hocc Hvir. unfold is_pair_occupied.
  rewrite !(is_occupied_excite_pairs_list sd occ vir _ Hno Hnv Hocc Hvir).
  rewrite !in_pairs_even, !in_pairs_odd.
  destruct (is_occupied sd (2 * p)), (is_occupied sd (2 * p + 1)),
    (mem p occ), (mem p vir); reflexivity.
Qed.

End PairExcitations.

(** ** The permanent of the occupied columns of an array *)

Section PermanentColumns.

Local Open Scope R_scope.

Local Arguments drop : simpl never.

Lemma map_drop (g : nat -> nat) (l : list nat) (c : nat) :
  NoDup (map g l) -> In c l -> map g (drop c l) = drop (g c) (map g l).
Proof.
  induction l as [|x l IH]; intros Hnd Hin.
  - contradiction.
  - simpl in Hnd. inversion Hnd as [|? ? Hnot Hnd']; subst.
    unfold drop. simpl. fold (drop c l). fold (drop (g c) (map g l)).
    destruct Hin as [->|Hin].
    + rewrite !Nat.eqb_refl. simpl.
      rewrite (drop_notin (g c)) by assumption.
      rewrite drop_notin; [reflexivity|].
      intro H. apply Hnot. apply in_map. exact H.
    + assert (Hg : g x <> g c).
      { intro E. apply Hnot. rewrite E. apply in_map. exact Hin. }
      assert (Hx : x <> c) by congruence.
      replace (x =? c) with false by (symmetry; apply Nat.eqb_neq; exact Hx).
      replace (g x =? g c) with false by (symmetry; apply Nat.eqb_neq; exact Hg).
      simpl. f_equal. apply IH; assumption.
Qed.

Lemma perm_rows_relabel (m : nat -> nat -> R) (g : nat -> nat)
    (rows cols : list nat) :
  NoDup (map g cols) ->
  perm_rows (fun i p => m i (g p)) rows cols = perm_rows m rows (map g cols).
Proof.
  revert cols. induction rows as [|r rows IH]; intros cols Hnd; simpl.
  - reflexivity.
  - rewrite sum_over_map. apply sum_over_ext. intros c Hc. f_equal.
    rewrite <- map_drop by assumption. apply IH.
    rewrite map_drop by assumption. apply NoDup_drop. exact Hnd.
Qed.

Lemma map_nth_seq (l : list nat) :
  map (fun p => nth p l 0%nat) (seq 0 (length l)) = l.
Proof.
  induction l as [|x l IH]; simpl.
  - reflexivity.
  - f_equal. rewrite <- seq_shift, map_map. exact IH.
Qed.

Lemma same_object_small (a b : nat) :
  (a <= 256)%nat -> APIG.same_object a b = (a =? b)%nat.
Proof.
  intro H. unfold APIG.same_object.
  replace (a <=? 256)%nat with true by (symmetry; apply Nat.leb_le; exact H).
  apply andb_true_r.
Qed.

Lemma same_object_differ (a b : nat) :
  a <> b -> APIG.same_object a b = false.
Proof.
  intro H. unfold APIG.same_object.
  replace (a =? b)%nat with false by (symmetry; apply Nat.eqb_neq; exact H).
  reflexivity.
Qed.

Lemma same_object_large (a b : nat) :
  (256 < a)%nat -> APIG.same_object a b = false.
Proof.
  intro H. unfold APIG.same_object.
  replace (a <=? 256)%nat with false by (symmetry; apply Nat.leb_gt; exact H).
  apply andb_false_r.
Qed.

(** Up to 256 rows, [APIG.permanent] is the permanent of a square array. *)
Lemma permanent_is_square_permanent (matrix : ndarray) :
  (nrow matrix <= 256)%nat -> APIG.permanent matrix = square_permanent matrix.
Proof.
  intro H. unfold APIG.permanent, square_permanent.
  rewrite same_object_small by exact H. reflexivity.
Qed.

Lemma take_cols_permanent (matrix : ndarray) (cols : list nat) :
  (nrow matrix <= 256)%nat ->
  bind (take_cols matrix cols) APIG.permanent
  = bind (take_cols matrix cols) square_permanent.
Proof.
  intro H. unfold take_cols.
  destruct (forallb _ cols); [|reflexivity].
  cbn [bind]. apply permanent_is_square_permanent. exact H.
Qed.

(** [permanent(matrix[:, cols])] for as many distinct columns as the
    matrix has rows. *)
Lemma permanent_take_cols (matrix : ndarray) (cols : list nat) :
  NoDup cols -> nrow matrix = length cols ->
  (forall c, In c cols -> (c < ncol matrix)%nat) ->
  bind (take_cols matrix cols) square_permanent
  = Ok (perm_rows (get matrix) (seq 0 (nrow matrix)) cols).
Proof.
  intros Hnd Hlen Hin. unfold take_cols.
  replace (forallb (fun c => c <? ncol matrix) cols) with true.
  2:{ symmetry. apply forallb_forall. intros c Hc. apply Nat.ltb_lt, Hin, Hc. }
  unfold bind, square_permanent. cbn [nrow ncol get].
  rewrite Hlen, Nat.eqb_refl. f_equal.
  rewrite <- (length_seq (length cols) 0) at 1.
  rewrite permanent_expand by apply seq_NoDup.
  cbn [get].
  rewrite (perm_rows_relabel (get matrix) (fun p => nth p cols 0%nat)).
  - rewrite map_nth_seq. reflexivity.
  - rewrite map_nth_seq. exact Hnd.
Qed.

Lemma drop_all_filter (ks l : list nat) :
  drop_all ks l = filter (fun x => negb (mem x ks)) l.
Proof.
  unfold drop_all. revert l. induction ks as [|k ks IH]; intro l; simpl.
  - induction l as [|x l IHl]; simpl; [reflexivity | f_equal; exact IHl].
  - rewrite IH. unfold drop.
    induction l as [|x l IHl]; simpl; [reflexivity|].
    destruct (x =? k); simpl; [exact IHl|].
    destruct (mem x ks); simpl; [exact IHl | f_equal; exact IHl].
Qed.

Variable m : nat -> nat -> R.

(** Several unit columns are taken by their rows. *)
Lemma perm_rows_unit_cols (ks : list nat) :
  forall rows cols,
    NoDup ks -> NoDup rows -> NoDup cols ->
    incl ks rows -> incl ks cols -> length rows = length cols ->
    (forall k i, In k ks -> In i rows -> m i k = if i =? k then 1 else 0) ->
    perm_rows m rows cols = perm_rows m (drop_all ks rows) (drop_all ks cols).
Proof.
  induction ks as [|k ks IH];
    intros rows cols Hndk Hndr Hndc Hir Hic Hlen Hunit.
  - reflexivity.
  - inversion Hndk as [|? ? Hnot Hndk']; subst.
    assert (Hkr : In k rows) by (apply Hir; left; reflexivity).
    assert (Hkc : In k cols) by (apply Hic; left; reflexivity).
    rewrite (perm_rows_unit_col m rows cols k k); try assumption.
    + change (drop_all (k :: ks) rows) with (drop_all ks (drop k rows)).
      change (drop_all (k :: ks) cols) with (drop_all ks (drop k cols)).
      apply IH; try assumption; try (apply NoDup_drop; assumption).
      * intros q Hq. apply in_drop. split.
        -- apply Hir. right. exact Hq.
        -- intros ->. contradiction.
      * intros q Hq. apply in_drop. split.
        -- apply Hic. right. exact Hq.
        -- intros ->. contradiction.
      * pose proof (length_drop k rows Hndr Hkr).
        pose proof (length_drop k cols Hndc Hkc). lia.
      * intros q i Hq Hi. apply in_drop in Hi. destruct Hi as [Hi _].
        apply Hunit; [right; exact Hq | exact Hi].
    + intros i Hi. apply Hunit; [left; reflexivity | exact Hi].
Qed.

End PermanentColumns.

(** ** The closed forms of AP1roG against the permanent *)

Definition ap1rog_2_4_double : APIG.geminal :=
  {| APIG.npairs := 2; APIG.norbs := 4;
     APIG.one := fun _ _ => 0%R; APIG.two := fun _ _ _ _ => 0%R;
     APIG.pspace := [15; 60; 51; 204; 195; 240]%N; APIG.coeffs := None |}.

Definition x_1234 : list R := [1 / 10; 2 / 10; 3 / 10; 4 / 10]%R.

(** [I + X] for [X = [[0.1, 0.2], [0.3, 0.4]]]. *)
Definition c_1234 : ndarray :=
  {| nrow := 2; ncol := 4;
     get := fun i j =>
              ((if i =? j then 1 else 0)
               + (if 2 <=? j then nth (i * 2 + (j - 2)) x_1234 0 else 0))%R |}.

(** C1, as stated, fails for two excited pairs: with [npairs = 2],
    [norbs = 4] and [X = [[0.1, 0.2], [0.3, 0.4]]], the overlap of the
    determinant [0b11110000] is [0.1*0.4 - 0.2*0.3 = -0.02], while the
    permanent of the columns 2 and 3 of [I + X] is [0.1*0.4 + 0.2*0.3 = 0.1]. *)
Lemma ap1rog_double_excitation_not_permanent :
  AP1roG.construct_guess ap1rog_2_4_double x_1234 = Ok c_1234 /\
  AP1roG.overlap ap1rog_2_4_double (Some 240%N) c_1234 false None
  = Ok (-2 / 100)%R /\
  bind (take_cols c_1234 (filter (is_pair_occupied 240) (seq 0 4)))
       APIG.permanent
  = Ok (10 / 100)%R /\
  AP1roG.overlap ap1rog_2_4_double (Some 240%N) c_1234 false None
  <> bind (take_cols c_1234 (filter (is_pair_occupied 240) (seq 0 4)))
          APIG.permanent.
Proof.
  assert (E1 : AP1roG.overlap ap1rog_2_4_double (Some 240%N) c_1234 false None
               = Ok (-2 / 100)%R).
  { unfold AP1roG.overlap. simpl. f_equal. lra. }
  assert (E2 : bind (take_cols c_1234 (filter (is_pair_occupied 240) (seq 0 4)))
                    APIG.permanent
               = Ok (10 / 100)%R).
  { unfold APIG.permanent. simpl. f_equal.
    unfold sum_over, prod_along, prod_list. simpl. lra. }
  split; [reflexivity | split; [exact E1 | split; [exact E2 |]]].
  rewrite E1, E2. intro H. inversion H. lra.
Qed.


Section ClosedForms.

Local Open Scope R_scope.

Variable self : APIG.geminal.
Variable x0 : list R.
Variable C : ndarray.
Variable phi : N.

Hypothesis HC : AP1roG.construct_guess self x0 = Ok C.
Hypothesis Hle : (APIG.npairs self <= APIG.norbs self)%nat.

Let occ : list nat :=
  filter (is_pair_occupied phi) (seq 0 (APIG.norbs self)).

Let kept : list nat :=
  filter (is_pair_occupied phi) (seq 0 (APIG.npairs self)).

Lemma embedded_shape :
  nrow C = APIG.npairs self /\ ncol C = APIG.norbs self /\
  forall i j, (j < APIG.npairs self)%nat ->
              get C i j = if i =? j then 1 else 0.
Proof.
  unfold AP1roG.construct_guess, bind, reshape in HC.
  destruct (length x0 =? _)%nat; [|discriminate].
  inversion HC; subst C; clear HC. cbn [nrow ncol get].
  split; [reflexivity | split; [reflexivity|]].
  intros i j Hj.
  replace (APIG.npairs self <=? j)%nat with false
    by (symmetry; apply Nat.leb_gt; exact Hj).
  destruct (i =? j)%nat; lra.
Qed.

Lemma occ_split : occ = kept ++ AP1roG.to_index self phi.
Proof.
  unfold occ, kept, AP1roG.to_index.
  replace (APIG.norbs self)
    with (APIG.npairs self + (APIG.norbs self - APIG.npairs self))%nat at 1
    by lia.
  rewrite seq_app, filter_app. reflexivity.
Qed.

Lemma in_kept (p : nat) :
  In p kept <-> (p < APIG.npairs self)%nat /\ is_pair_occupied phi p = true.
Proof.
  unfold kept. rewrite filter_In, in_seq. intuition lia.
Qed.

Lemma in_to_index (p : nat) :
  In p (AP1roG.to_index self phi) ->
  (APIG.npairs self <= p < APIG.norbs self)%nat.
Proof.
  unfold AP1roG.to_index. rewrite filter_In, in_seq. intuition lia.
Qed.

Lemma drop_kept_rows :
  drop_all kept (seq 0 (APIG.npairs self)) = AP1roG.from_index self phi.
Proof.
  rewrite drop_all_filter. unfold AP1roG.from_index.
  apply filter_ext_in. intros p Hp. apply in_seq in Hp. f_equal.
  destruct (is_pair_occupied phi p) eqn:E.
  - apply mem_iff, in_kept. split; [lia | exact E].
  - destruct (mem p kept) eqn:E'; [|reflexivity].
    apply mem_iff, in_kept in E'. destruct E' as [_ E']. congruence.
Qed.

Lemma drop_kept_cols : drop_all kept occ = AP1roG.to_index self phi.
Proof.
  rewrite drop_all_filter, occ_split, filter_app.
  rewrite (filter_ext_in _ (fun _ => false) kept).
  - rewrite (filter_ext_in _ (fun _ => true) (AP1roG.to_index self phi)).
    + assert (Hf : forall l : list nat, filter (fun _ => false) l = []).
      { induction l; simpl; auto. }
      assert (Ht : forall l : list nat, filter (fun _ => true) l = l).
      { induction l; simpl; [reflexivity | f_equal; assumption]. }
      rewrite Hf, Ht. reflexivity.
    + intros p Hp. apply in_to_index in Hp. apply negb_true_iff.
      destruct (mem p kept) eqn:E; [|reflexivity].
      apply mem_iff, in_kept in E. lia.
  - intros p Hp. apply negb_false_iff, mem_iff. exact Hp.
Qed.

Lemma NoDup_occ : NoDup occ.
Proof. unfold occ. apply NoDup_filter, seq_NoDup. Qed.

Lemma length_to_index :
  length occ = APIG.npairs self ->
  length (AP1roG.to_index self phi) = AP1roG.excite_count self phi.
Proof.
  intro Hocc. rewrite occ_split, length_app in Hocc.
  pose proof (filter_length (is_pair_occupied phi)
                (seq 0 (APIG.npairs self))) as H.
  rewrite length_seq in H. fold kept in H.
  unfold AP1roG.excite_count, AP1roG.from_index. lia.
Qed.

(** The permanent of the occupied columns of [I + X] is the permanent of
    the rows that were vacated against the columns that were filled. *)
Lemma permanent_embedded :
  length occ = APIG.npairs self ->
  bind (take_cols C occ) square_permanent
  = Ok (perm_rows (get C) (AP1roG.from_index self phi)
                  (AP1roG.to_index self phi)).
Proof.
  intro Hocc. destruct embedded_shape as (Hr & Hc & Hunit).
  rewrite permanent_take_cols.
  - f_equal. rewrite Hr.
    rewrite (perm_rows_unit_cols (get C) kept).
    + rewrite drop_kept_rows, drop_kept_cols. reflexivity.
    + unfold kept. apply NoDup_filter, seq_NoDup.
    + apply seq_NoDup.
    + apply NoDup_occ.
    + intros p Hp. apply in_kept in Hp. apply in_seq. lia.
    + intros p Hp. rewrite occ_split. apply in_or_app. left. exact Hp.
    + rewrite length_seq. symmetry. exact Hocc.
    + intros k i Hk _. apply Hunit. apply in_kept in Hk. lia.
  - apply NoDup_occ.
  - rewrite Hr. symmetry. exact Hocc.
  - intros c Hc'. unfold occ in Hc'. apply filter_In in Hc'.
    destruct Hc' as [Hc' _]. apply in_seq in Hc'. lia.
Qed.

End ClosedForms.


(** C1, amended: let [C] be the embedded matrix [I + X] of an AP1roG
    wavefunction with [npairs <= norbs], and [phi] a determinant of its
    projection space, not 0, in which [npairs] of the [norbs] spatial
    orbitals are doubly occupied.  When no pair is excited the overlap and
    the permanent of the occupied columns of [C] are both 1; when the one
    pair [f] is excited, to the orbital [t], both are [C[f,t]]; when two
    pairs [f0 < f1] are excited, to [t0 < t1], the overlap is
    [C[f0,t0]*C[f1,t1] - C[f0,t1]*C[f1,t0]] and the permanent is
    [C[f0,t0]*C[f1,t1] + C[f0,t1]*C[f1,t0]].  The permanent is the sum over
    the permutations, for every size; up to 256 pairs it is what
    [APIG.permanent] returns. *)
Theorem ap1rog_closed_forms_vs_permanent :
  forall (self : APIG.geminal) (x0 : list R) (C : ndarray) (phi : N),
    AP1roG.construct_guess self x0 = Ok C ->
    APIG.npairs self <= APIG.norbs self ->
    phi <> 0%N ->
    In phi (APIG.pspace self) ->
    length (filter (is_pair_occupied phi) (seq 0 (APIG.norbs self)))
    = APIG.npairs self ->
    let olp := AP1roG.overlap self (Some phi) C false None in
    let per :=
      bind (take_cols C (filter (is_pair_occupied phi)
                                (seq 0 (APIG.norbs self))))
           square_permanent in
    (AP1roG.excite_count self phi = 0 -> olp = Ok 1%R /\ per = Ok 1%R) /\
    (forall f, AP1roG.from_index self phi = [f] ->
       exists t, AP1roG.to_index self phi = [t] /\
                 olp = Ok (get C f t) /\ per = Ok (get C f t)) /\
    (forall f0 f1, AP1roG.from_index self phi = [f0; f1] ->
       exists t0 t1,
         AP1roG.to_index self phi = [t0; t1] /\
         olp = Ok (get C f0 t0 * get C f1 t1 - get C f0 t1 * get C f1 t0)%R /\
         per = Ok (get C f0 t0 * get C f1 t1 + get C f0 t1 * get C f1 t0)%R) /\
    (APIG.npairs self <= 256 ->
     bind (take_cols C (filter (is_pair_occupied phi)
                               (seq 0 (APIG.norbs self))))
          APIG.permanent = per).
Proof.
  intros self x0 C phi HC Hle Hphi Hin Hocc olp per.
  assert (Hper : per = Ok (perm_rows (get C) (AP1roG.from_index self phi)
                                     (AP1roG.to_index self phi))).
  { unfold per. apply (permanent_embedded self x0 C phi HC Hle Hocc). }
  pose proof (length_to_index self phi Hle Hocc) as Hto.
  destruct (embedded_shape self x0 C HC) as (Hr & Hc & _).
  assert (Hd : AP1roG.dispatch self (Some phi)
               = match AP1roG.excite_count self phi with
                 | 0 => AP1roG.Excite_0
                 | 1 => AP1roG.Excite_1
                 | 2 => AP1roG.Excite_2
                 | _ => AP1roG.Excite_more
                 end).
  { unfold AP1roG.dispatch.
    replace (phi =? 0)%N with false by (symmetry; apply N.eqb_neq; exact Hphi).
    replace (AP1roG.N_in phi (APIG.pspace self)) with true
      by (symmetry; apply N_in_iff; exact Hin).
    reflexivity. }
  assert (Hndt : NoDup (AP1roG.to_index self phi))
    by (apply NoDup_filter, seq_NoDup).
  assert (Hentry : forall f t, In f (AP1roG.from_index self phi) ->
                               In t (AP1roG.to_index self phi) ->
                               entry C f t = Ok (get C f t)).
  { intros f t Hf Ht. unfold entry.
    unfold AP1roG.from_index in Hf. apply filter_In in Hf.
    destruct Hf as [Hf _]. apply in_seq in Hf.
    apply in_to_index in Ht; [|exact Hle].
    replace (f <? nrow C) with true by (symmetry; apply Nat.ltb_lt; lia).
    replace (t <? ncol C) with true by (symmetry; apply Nat.ltb_lt; lia).
    reflexivity. }
  split; [|split; [|split]]; cycle 3.
  - intro H256. apply take_cols_permanent. rewrite Hr. exact H256.
  - intro H0. split.
    + unfold olp, AP1roG.overlap. rewrite Hd, H0. reflexivity.
    + rewrite Hper. unfold AP1roG.excite_count in H0.
      apply length_zero_iff_nil in H0. rewrite H0. reflexivity.
  - intros f Hf.
    unfold AP1roG.excite_count in Hto. rewrite Hf in Hto. simpl in Hto.
    destruct (AP1roG.to_index self phi) as [|t [|t' l]] eqn:Et;
      try discriminate.
    exists t. split; [reflexivity|].
    assert (He : entry C f t = Ok (get C f t)).
    { apply Hentry; [rewrite Hf | idtac]; left; reflexivity. }
    split.
    + unfold olp, AP1roG.overlap. rewrite Hd.
      unfold AP1roG.excite_count. rewrite Hf, Et. simpl. exact He.
    + rewrite Hper, Hf. simpl.
      rewrite sum_over_cons, sum_over_nil. f_equal. lra.
  - intros f0 f1 Hf.
    unfold AP1roG.excite_count in Hto. rewrite Hf in Hto. simpl in Hto.
    destruct (AP1roG.to_index self phi) as [|t0 [|t1 [|t' l]]] eqn:Et;
      try discriminate.
    exists t0, t1. split; [reflexivity|].
    assert (Hne : t0 <> t1).
    { inversion Hndt as [|? ? Hnot _]; subst. intros ->.
      apply Hnot. left. reflexivity. }
    assert (He : forall f t, In f [f0; f1] -> In t [t0; t1] ->
                             entry C f t = Ok (get C f t)).
    { intros f t Hf' Ht'. apply Hentry; [rewrite Hf | idtac]; assumption. }
    split.
    + unfold olp, AP1roG.overlap. rewrite Hd.
      unfold AP1roG.excite_count. rewrite Hf, Et. simpl.
      rewrite !He by (simpl; auto). reflexivity.
    + rewrite Hper, Hf. cbn [perm_rows].
      rewrite !sum_over_cons, !sum_over_nil. unfold drop. simpl.
      rewrite !Nat.eqb_refl.
      replace (t1 =? t0) with false by (symmetry; apply Nat.eqb_neq; congruence).
      replace (t0 =? t1) with false by (symmetry; apply Nat.eqb_neq; congruence).
      simpl. rewrite !sum_over_cons, !sum_over_nil. f_equal. lra.
Qed.

Lemma ap1rog_closed_forms_vs_permanent_witness :
  exists t0 t1,
    AP1roG.to_index ap1rog_2_4_double 240 = [t0; t1] /\
    AP1roG.overlap ap1rog_2_4_double (Some 240%N) c_1234 false None
    = Ok (get c_1234 0 t0 * get c_1234 1 t1
          - get c_1234 0 t1 * get c_1234 1 t0)%R /\
    bind (take_cols c_1234 (filter (is_pair_occupied 240) (seq 0 4)))
         square_permanent
    = Ok (get c_1234 0 t0 * get c_1234 1 t1
          + get c_1234 0 t1 * get c_1234 1 t0)%R.
Proof.
  destruct (ap1rog_closed_forms_vs_permanent ap1rog_2_4_double x_1234 c_1234
              240%N) as (_ & _ & H & _).
  - reflexivity.
  - simpl. lia.
  - discriminate.
  - simpl. intuition.
  - reflexivity.
  - apply (H 0 1). reflexivity.
Defined.

(** ** The Jacobian of the projected Schroedinger equations *)

Definition apig_3_3 : APIG.geminal :=
  {| APIG.npairs := 3; APIG.norbs := 3;
     APIG.one := fun _ _ => 0%R; APIG.two := fun _ _ _ _ => 0%R;
     APIG.pspace := [63%N]; APIG.coeffs := None |}.

Definition ones (n : nat) : list R := repeat 1%R n.

Definition proj_3_3 : list N := repeat 63%N 9.

(** The first residual, as a function of the first coefficient. *)
Definition first_residual (t : R) : R :=
  nth 0 (values (APIG.nonlin APIG.APIG_class apig_3_3 (t :: ones 8) proj_3_3))
      0%R.

Lemma first_residual_affine (t : R) : first_residual t = (2 * t + 3)%R.
Proof.
  unfold first_residual. vm_compute. ring.
Qed.

(** C3: for three pairs in three orbitals, all coefficients 1 and a
    projection list of nine determinants, the entry (0, 0) of the matrix of
    [nonlin_jac] is 1, while the derivative of the first residual (the
    permanent of the coefficient matrix minus 1) with respect to the first
    coefficient is 2: the entry is not that partial derivative. *)
Theorem nonlin_jac_3_pairs_not_jacobian :
  exists J,
    APIG.nonlin_jac APIG.APIG_class apig_3_3 (ones 9) proj_3_3 = Ok J /\
    get J 0 0 = 1%R /\
    derivable_pt_lim first_residual 1%R 2%R /\
    ~ derivable_pt_lim first_residual 1%R (get J 0 0).
Proof.
  assert (D : derivable_pt_lim first_residual 1%R 2%R).
  { intros eps Heps. exists (mkposreal 1 Rlt_0_1). intros h Hh _.
    rewrite !first_residual_affine.
    replace ((2 * (1 + h) + 3 - (2 * 1 + 3)) / h - 2)%R with 0%R
      by (field; exact Hh).
    rewrite Rabs_R0. exact Heps. }
  eexists. split; [vm_compute; reflexivity|].
  split; [vm_compute; lra | split; [exact D|]].
  intro D'.
  pose proof (uniqueness_limite first_residual 1%R _ _ D D') as H.
  revert H. vm_compute. lra.
Qed.

(** ** The two permanents of [math_tools] *)

Example permanent_ryser_3x3 :
  MathTools.permanent_ryser 8 (of_rows [[1; 2; 3]; [4; 5; 6]; [7; 8; 10]]%R)
  = Some (Ok 463%R) /\
  MathTools.permanent_combinatoric
    (of_rows [[1; 2; 3]; [4; 5; 6]; [7; 8; 10]]%R) = Ok 463%R.
Proof.
  split.
  - vm_compute. do 2 f_equal. lra.
  - vm_compute. f_equal. lra.
Qed.


Section GrayCounter.

Lemma set_nth_middle {A : Type} (l l' : list A) (a v : A) :
  set_nth (l ++ a :: l') (length l) v = l ++ v :: l'.
Proof.
  induction l as [|x l IH]; simpl.
  - reflexivity.
  - f_equal. exact IH.
Qed.

Lemma nth_gray (b : list bool) (p : nat) :
  nth p (gray b) false = xorb (nth p b false) (nth (S p) b false).
Proof.
  revert p. induction b as [|x t IH]; intro p.
  - destruct p; reflexivity.
  - destruct p as [|p].
    + simpl. destruct t; reflexivity.
    + simpl gray. cbn [nth]. rewrite IH. reflexivity.
Qed.

Lemma next_app_true (i : nat) (rest : list bool) :
  next (repeat true i ++ rest) = repeat false i ++ next rest.
Proof.
  induction i as [|i IH]; simpl; [reflexivity | f_equal; exact IH].
Qed.

Lemma ruler_app_true (i : nat) (rest : list bool) :
  ruler (repeat true i ++ rest) = i + ruler rest.
Proof.
  induction i as [|i IH]; simpl; [reflexivity | f_equal; exact IH].
Qed.

Lemma repeat_snoc {A : Type} (x : A) (i : nat) (t : list A) :
  repeat x i ++ x :: t = repeat x (S i) ++ t.
Proof.
  induction i as [|i IH]; simpl; [reflexivity | f_equal; exact IH].
Qed.

(** The [for] loop, once the bits below [i] have been found set and have
    been cleared. *)
Lemma update_graycode_from (rest : list bool) :
  forall i p0 v0,
    forallb (fun b => b) rest = false ->
    let g' := repeat false i ++ next rest in
    let pos := i + ruler rest in
    MathTools.update_graycode (seq i (length rest)) (i + length rest)
      (repeat false i ++ rest) p0 v0
    = (g', pos, xorb (nth pos g' false) (nth (S pos) g' false)).
Proof.
  induction rest as [|x t IH]; intros i p0 v0 Hall; [discriminate|].
  cbn [length seq MathTools.update_graycode].
  assert (Hlen : length (repeat false i) = i) by apply repeat_length.
  pose proof (nth_middle (repeat false i) t x false) as Hn.
  rewrite Hlen in Hn.
  assert (Hs : forall v, set_nth (repeat false i ++ x :: t) i v
                         = repeat false i ++ v :: t).
  { intro v. rewrite <- Hlen at 2. apply set_nth_middle. }
  rewrite !Hn, !Hs. clear Hn Hs.
  destruct x.
  - (* the bit is set: it is cleared and the loop goes on *)
    cbn [negb]. simpl in Hall.
    rewrite repeat_snoc.
    replace (i + S (length t)) with (S i + length t) by lia.
    rewrite (IH (S i) _ _ Hall).
    cbn [next ruler]. rewrite <- repeat_snoc.
    replace (S i + ruler t) with (i + S (ruler t)) by lia.
    reflexivity.
  - (* the bit is clear: it is set and the loop is left *)
    cbn [negb next ruler]. rewrite Nat.add_0_r.
    f_equal.
    assert (Hi : nth i (repeat false i ++ true :: t) false = true).
    { rewrite <- Hlen at 1. apply nth_middle. }
    rewrite Hi. cbn [xorb andb].
    destruct (Nat.eqb_spec i (i + S (length t) - 1)) as [E|E].
    + assert (t = []) by (destruct t; [reflexivity | simpl in E; lia]).
      subst t. rewrite <- E, Hi.
      rewrite nth_overflow; [reflexivity|].
      rewrite length_app, Hlen. simpl. lia.
    + replace (i + 1) with (S i) by lia. reflexivity.
Qed.

Lemma update_graycode_spec (b : list bool) (p0 : nat) (v0 : bool) :
  forallb (fun x => x) b = false ->
  MathTools.update_graycode (seq 0 (length b)) (length b) b p0 v0
  = (next b, ruler b, nth (ruler b) (gray (next b)) false).
Proof.
  intro Hall. rewrite nth_gray.
  exact (update_graycode_from b 0 p0 v0 Hall).
Qed.

End GrayCounter.


Section CounterFacts.

Local Open Scope R_scope.

Lemma length_next (b : list bool) : length (next b) = length b.
Proof.
  induction b as [|[|] t IH]; simpl; [reflexivity | f_equal; exact IH |
                                      reflexivity].
Qed.

Lemma length_gray (b : list bool) : length (gray b) = length b.
Proof.
  induction b as [|x t IH]; simpl; [reflexivity | f_equal; exact IH].
Qed.

Lemma val_next (b : list bool) :
  forallb (fun x => x) b = false -> val (next b) = S (val b).
Proof.
  induction b as [|[|] t IH]; simpl; intro H.
  - discriminate.
  - rewrite IH by exact H. lia.
  - reflexivity.
Qed.

Lemma val_bound (b : list bool) : (val b < 2 ^ length b)%nat.
Proof.
  induction b as [|x t IH]; simpl.
  - lia.
  - destruct x; lia.
Qed.

Lemma all_true_val (b : list bool) :
  forallb (fun x => x) b = true <-> val b = (2 ^ length b - 1)%nat.
Proof.
  induction b as [|x t IH]; simpl.
  - split; reflexivity.
  - pose proof (val_bound t). destruct x; simpl.
    + rewrite IH. lia.
    + split; [discriminate | lia].
Qed.

Lemma ruler_lt (b : list bool) :
  forallb (fun x => x) b = false -> (ruler b < length b)%nat.
Proof.
  induction b as [|[|] t IH]; simpl; intro H.
  - discriminate.
  - apply IH in H. lia.
  - lia.
Qed.

Lemma hd_next (b : list bool) :
  b <> [] -> hd false (next b) = negb (hd false b).
Proof. destruct b as [|[|] t]; intro H; [contradiction | |]; reflexivity. Qed.

(** One pass changes the subset of columns in the column [ruler b] only. *)
Lemma gray_next (b : list bool) :
  forallb (fun x => x) b = false ->
  gray (next b)
  = set_nth (gray b) (ruler b) (negb (nth (ruler b) (gray b) false)).
Proof.
  induction b as [|[|] t IH]; simpl; intro H.
  - discriminate.
  - rewrite <- IH by exact H. f_equal.
    rewrite hd_next by (intros ->; discriminate).
    destruct (hd false t); reflexivity.
  - f_equal; try (destruct (hd false t); reflexivity).
Qed.

Lemma iterates_double (m : nat) :
  forall t, iterates next (2 * m) (false :: t)
            = flat_map (fun t => [false :: t; true :: t]) (iterates next m t).
Proof.
  induction m as [|m IH]; intro t.
  - reflexivity.
  - replace (2 * S m)%nat with (S (S (2 * m))) by lia.
    cbn [iterates flat_map app next]. rewrite IH. reflexivity.
Qed.

(** The counter runs through all subsets. *)
Lemma masks_iterates (n : nat) :
  masks n = iterates next (2 ^ n) (repeat false n).
Proof.
  induction n as [|n IH].
  - reflexivity.
  - cbn [masks repeat]. rewrite IH.
    replace (2 ^ S n)%nat with (2 * 2 ^ n)%nat by (simpl; lia).
    symmetry. apply iterates_double.
Qed.

(** A sum over all subsets may be taken in the order of the Gray code. *)
Lemma sum_over_gray (n : nat) :
  forall F : list bool -> R,
    sum_over (masks n) (fun b => F (gray b)) = sum_over (masks n) F.
Proof.
  induction n as [|n IH]; intro F.
  - reflexivity.
  - cbn [masks]. rewrite !sum_over_flat_map.
    rewrite <- (IH (fun s => sum_over [false :: s; true :: s] F)).
    apply sum_over_ext. intros t _.
    rewrite !sum_over_cons, !sum_over_nil. cbn [gray].
    destruct (hd false t); simpl; lra.
Qed.

Lemma sg_gray (b : list bool) :
  sg (gray b)
  = if Bool.eqb (Nat.odd (length b)) (hd false b) then 1 else -1.
Proof.
  induction b as [|x t IH].
  - reflexivity.
  - cbn [gray sg length hd]. rewrite Nat.odd_succ, <- Nat.negb_odd.
    destruct x, (hd false t), (Nat.odd (length t));
      cbn [xorb sg negb Bool.eqb] in *; rewrite IH; lra.
Qed.

End CounterFacts.


(** ** The formula of Ryser *)

Section RyserFormula.

Local Open Scope R_scope.

Local Arguments drop : simpl never.

Variable A : nat -> nat -> R.

Lemma sum_over_minus {X : Type} (f g : X -> R) (l : list X) :
  sum_over l (fun x => f x - g x) = sum_over l f - sum_over l g.
Proof.
  induction l as [|x l IH].
  - rewrite !sum_over_nil. lra.
  - rewrite !sum_over_cons, IH. lra.
Qed.

Lemma prod_map_ext (f g : nat -> R) (l : list nat) :
  (forall r, In r l -> f r = g r) ->
  prod_list (map f l) = prod_list (map g l).
Proof.
  intro H. f_equal. apply map_ext_in. exact H.
Qed.

Lemma ryser_sum_ext (rows D : list nat) :
  forall base base',
    (forall r, In r rows -> base r = base' r) ->
    ryser_sum A rows D base = ryser_sum A rows D base'.
Proof.
  induction D as [|c D IH]; intros base base' H; simpl.
  - apply prod_map_ext. exact H.
  - rewrite (IH base base' H).
    rewrite (IH (fun r => base r + A r c) (fun r => base' r + A r c)).
    + reflexivity.
    + intros r Hr. rewrite (H r Hr). reflexivity.
Qed.

Lemma ryser_sum_no_rows (D : list nat) (base : nat -> R) :
  ryser_sum A [] D base = match D with [] => 1 | _ :: _ => 0 end.
Proof.
  revert base. induction D as [|c D IH]; intro base; simpl.
  - reflexivity.
  - rewrite !IH. destruct D; lra.
Qed.

(** The expansion of the inclusion-exclusion sum along the first row. *)
Lemma ryser_sum_row (r : nat) (rest D : list nat) :
  forall base,
    NoDup D ->
    ryser_sum A (r :: rest) D base
    = base r * ryser_sum A rest D base
      + sum_over D (fun j => A r j
                             * ryser_sum A rest (drop j D)
                                 (fun r' => base r' + A r' j)).
Proof.
  induction D as [|c D IH]; intros base Hnd.
  - simpl. rewrite prod_list_cons, sum_over_nil. lra.
  - inversion Hnd as [|? ? Hnot Hnd']; subst.
    cbn [ryser_sum]. rewrite !IH by assumption.
    rewrite sum_over_cons.
    replace (drop c (c :: D)) with D.
    2:{ unfold drop. simpl. rewrite Nat.eqb_refl. simpl. fold (drop c D).
        symmetry. apply drop_notin. exact Hnot. }
    rewrite (sum_over_ext
               (fun j => A r j * ryser_sum A rest (drop j (c :: D))
                                   (fun r' => base r' + A r' j))
               (fun j => A r j * ryser_sum A rest (drop j D)
                                   (fun r' => base r' + A r' c + A r' j)
                         - A r j * ryser_sum A rest (drop j D)
                                     (fun r' => base r' + A r' j))).
    + rewrite sum_over_minus. lra.
    + intros j Hj.
      assert (Hjc : j <> c) by (intros ->; contradiction).
      replace (drop j (c :: D)) with (c :: drop j D).
      2:{ unfold drop. simpl.
          replace (c =? j)%nat with false
            by (symmetry; apply Nat.eqb_neq; congruence).
          reflexivity. }
      cbn [ryser_sum].
      rewrite (ryser_sum_ext rest (drop j D)
                 (fun r0 => base r0 + A r0 j + A r0 c)
                 (fun r' => base r' + A r' c + A r' j)).
      * lra.
      * intros r0 _. lra.
Qed.

(** With fewer rows than columns the sum is 0; with as many it is the
    permanent, whatever the row sums it starts from. *)
Lemma ryser_sum_perm_rows (rows : list nat) :
  forall D base,
    NoDup D ->
    ((length rows < length D)%nat -> ryser_sum A rows D base = 0) /\
    (length rows = length D -> ryser_sum A rows D base = perm_rows A rows D).
Proof.
  induction rows as [|r rest IH]; intros D base Hnd.
  - rewrite ryser_sum_no_rows. destruct D; simpl; split; intro H;
      try reflexivity; try lia; discriminate.
  - rewrite ryser_sum_row by assumption. simpl length.
    destruct (IH D base Hnd) as [H1 _].
    split; intro H.
    + rewrite H1 by lia.
      rewrite sum_over_zero; [lra|].
      intros j Hj.
      destruct (IH (drop j D) (fun r' => base r' + A r' j)
                   (NoDup_drop j D Hnd)) as [H2 _].
      pose proof (length_drop j D Hnd Hj).
      rewrite H2 by lia. lra.
    + rewrite H1 by lia.
      rewrite Rmult_0_r, Rplus_0_l. cbn [perm_rows].
      apply sum_over_ext. intros j Hj. f_equal.
      destruct (IH (drop j D) (fun r' => base r' + A r' j)
                   (NoDup_drop j D Hnd)) as [_ H2].
      pose proof (length_drop j D Hnd Hj).
      apply H2. lia.
Qed.

(** The sum over the subsets of the columns [D] is the inclusion and
    exclusion of its columns one after the other. *)
Lemma masks_sum_ryser_sum (rows D : list nat) :
  forall base,
    sum_over (masks (length D))
      (fun S => sg S * prod_list (map (fun r => base r + wsum (A r) D S) rows))
    = ryser_sum A rows D base.
Proof.
  induction D as [|c D IH]; intro base.
  - cbn [length masks ryser_sum]. rewrite sum_over_cons, sum_over_nil.
    cbn [sg wsum].
    rewrite (prod_map_ext (fun r => base r + 0) base); [lra|].
    intros r _. lra.
  - cbn [length masks ryser_sum]. rewrite sum_over_flat_map.
    rewrite <- (IH base), <- (IH (fun r => base r + A r c)).
    rewrite <- sum_over_minus. apply sum_over_ext. intros t _.
    rewrite !sum_over_cons, sum_over_nil. cbn [sg wsum].
    rewrite (prod_map_ext (fun r => base r + (0 + wsum (A r) D t))
                          (fun r => base r + wsum (A r) D t))
      by (intros r _; lra).
    rewrite (prod_map_ext (fun r => base r + (A r c + wsum (A r) D t))
                          (fun r => base r + A r c + wsum (A r) D t))
      by (intros r _; lra).
    lra.
Qed.

(** The formula of Ryser for the columns [D] and as many rows. *)
Lemma ryser_formula (rows D : list nat) :
  NoDup D -> length rows = length D ->
  sum_over (masks (length D))
    (fun S => sg S * prod_list (map (fun r => wsum (A r) D S) rows))
  = perm_rows A rows D.
Proof.
  intros Hnd Hlen.
  destruct (ryser_sum_perm_rows rows D (fun _ => 0) Hnd) as [_ H].
  rewrite <- (H Hlen). clear H.
  rewrite <- masks_sum_ryser_sum. apply sum_over_ext. intros S _. f_equal.
  apply prod_map_ext. intros r _. lra.
Qed.

End RyserFormula.


(** ** The loop of [permanent_ryser] *)

Section RyserLoop.

Local Open Scope R_scope.

Variable matrix : ndarray.

Let n : nat := ncol matrix.

(** The row sums over the columns that the mask [S] selects. *)
Definition row_sums (S : list bool) : list R :=
  map (fun i => wsum (get matrix i) (seq 0 n) S) (seq 0 n).

(** What a pass of the loop adds to [permanent] when it reaches [b]. *)
Definition ryser_term (b : list bool) : R :=
  (if Bool.eqb (Nat.odd n) (hd false b) then 1 else -1)
  * prod_list (row_sums (gray b)).

(** The state of the loop when the counter is [b]. *)
Definition ryser_inv (s : MathTools.ryser_state) (b : list bool) : Prop :=
  MathTools.rowsums s = row_sums (gray b) /\
  MathTools.sign s = xorb (Nat.odd n) (hd false b) /\
  MathTools.graycode s = b.

Lemma wsum_set_nth (g : nat -> R) (D : list nat) :
  forall S p v,
    (p < length S)%nat -> length S = length D -> nth p S false = negb v ->
    wsum g D (set_nth S p v)
    = wsum g D S + (if v then g (nth p D 0%nat) else - g (nth p D 0%nat)).
Proof.
  induction D as [|c D IH]; intros S p v Hp Hlen Hn.
  - destruct S; simpl in *; [lia | discriminate].
  - destruct S as [|s S]; [simpl in Hp; lia|].
    destruct p as [|p]; simpl in *.
    + subst s. destruct v; simpl; lra.
    + rewrite (IH S p v) by (try lia; assumption). lra.
Qed.

Lemma nth_set_nth {X : Type} (l : list X) (p : nat) (v d : X) :
  (p < length l)%nat -> nth p (set_nth l p v) d = v.
Proof.
  revert p. induction l as [|x l IH]; intros p Hp; simpl in *; [lia|].
  destruct p as [|p]; simpl; [reflexivity | apply IH; lia].
Qed.

Lemma map_combine_map {X Y Z : Type} (h : X * Y -> Z) (f : X -> Y)
    (l : list X) :
  map h (combine l (map f l)) = map (fun i => h (i, f i)) l.
Proof.
  induction l as [|x l IH]; simpl; [reflexivity | f_equal; exact IH].
Qed.

Lemma enumerate_map_seq (f : nat -> R) (k : nat) :
  enumerate (map f (seq 0 k)) = combine (seq 0 k) (map f (seq 0 k)).
Proof. unfold enumerate. rewrite length_map, length_seq. reflexivity. Qed.

Lemma wsum_no_column (g : nat -> R) (D : list nat) (k : nat) :
  wsum g D (repeat false k) = 0.
Proof.
  revert k. induction D as [|c D IH]; intro k; destruct k; simpl;
    try reflexivity.
  rewrite IH. lra.
Qed.

Lemma gray_repeat_false (k : nat) : gray (repeat false k) = repeat false k.
Proof.
  induction k as [|k IH]; simpl; [reflexivity|].
  rewrite IH. destruct k; reflexivity.
Qed.

Lemma row_sums_empty : row_sums (repeat false n) = repeat 0 n.
Proof.
  unfold row_sums.
  rewrite (map_ext _ (fun _ => 0)) by (intro i; apply wsum_no_column).
  generalize 0%nat. induction n as [|k IH]; intro a; simpl;
    [reflexivity | f_equal; apply IH].
Qed.

(** One pass of the loop moves the counter on and adds its term. *)
Lemma ryser_step_inv (s : MathTools.ryser_state) (b : list bool) :
  ryser_inv s b -> length b = n -> forallb (fun x => x) b = false ->
  ryser_inv (MathTools.ryser_step matrix n s) (next b) /\
  MathTools.permanent (MathTools.ryser_step matrix n s)
  = MathTools.permanent s + ryser_term (next b).
Proof.
  intros (Hrow & Hsign & Hgray) Hlen Hall.
  set (p := ruler b). set (v := nth p (gray (next b)) false).
  assert (Hupd : MathTools.update_graycode (seq 0 n) n b
                   (MathTools.cur_position s) (MathTools.cur_value s)
                 = (next b, p, v)).
  { rewrite <- Hlen. apply update_graycode_spec. exact Hall. }
  unfold MathTools.ryser_step. rewrite Hgray, Hupd.
  assert (Hp : (p < length b)%nat) by (apply ruler_lt; exact Hall).
  assert (Hg : gray (next b) = set_nth (gray b) p v /\
               nth p (gray b) false = negb v).
  { unfold v. rewrite (gray_next b Hall). fold p.
    rewrite nth_set_nth by (rewrite length_gray; exact Hp).
    rewrite negb_involutive. split; reflexivity. }
  destruct Hg as [Hg Hold].
  assert (Hrows : (if v then MathTools.add_column matrix (MathTools.rowsums s) p
                   else MathTools.sub_column matrix (MathTools.rowsums s) p)
                  = row_sums (gray (next b))).
  { rewrite Hrow, Hg. unfold row_sums.
    unfold MathTools.add_column, MathTools.sub_column.
    rewrite enumerate_map_seq, !map_combine_map. cbn [fst snd].
    assert (E : forall i,
               wsum (get matrix i) (seq 0 n) (set_nth (gray b) p v)
               = wsum (get matrix i) (seq 0 n) (gray b)
                 + (if v then get matrix i p else - get matrix i p)).
    { intro i. rewrite wsum_set_nth.
      - rewrite seq_nth by lia. reflexivity.
      - rewrite length_gray. exact Hp.
      - rewrite length_gray, length_seq. exact Hlen.
      - exact Hold. }
    destruct v; apply map_ext; intro i; rewrite E; lra. }
  assert (Hb : b <> []) by (intros ->; discriminate).
  assert (Hhd : hd false (next b) = negb (hd false b)) by (apply hd_next, Hb).
  unfold ryser_term, ryser_inv. rewrite Hhd, <- Hrows.
  destruct (MathTools.sign s) eqn:Es; cbn [MathTools.rowsums MathTools.sign
    MathTools.permanent MathTools.graycode];
    (split; [split; [reflexivity | split; [|reflexivity]] |]).
  - destruct (Nat.odd n), (hd false b); simpl in *; congruence.
  - destruct (Nat.odd n), (hd false b); simpl in *; try discriminate; lra.
  - destruct (Nat.odd n), (hd false b); simpl in *; congruence.
  - destruct (Nat.odd n), (hd false b); simpl in *; try discriminate; lra.
Qed.

(** With fuel for the passes that remain the loop ends, and [permanent]
    has grown by the terms of the counters it went through. *)
Lemma ryser_loop_runs (d : nat) :
  forall b s fuel,
    ryser_inv s b -> length b = n -> (val b + d = 2 ^ n - 1)%nat ->
    (d <= fuel)%nat ->
    exists s', MathTools.ryser_loop fuel matrix n s = Some s' /\
               MathTools.permanent s'
               = MathTools.permanent s
                 + sum_over (iterates next d (next b)) ryser_term.
Proof.
  induction d as [|d IH]; intros b s fuel Hinv Hlen Hval Hfuel.
  - assert (Hall : forallb (fun x => x) b = true).
    { apply all_true_val. rewrite Hlen. lia. }
    exists s. split.
    + destruct Hinv as (_ & _ & Hg).
      destruct fuel; simpl; rewrite Hg, Hall; reflexivity.
    + simpl. rewrite sum_over_nil. lra.
  - assert (Hall : forallb (fun x => x) b = false).
    { destruct (forallb (fun x => x) b) eqn:E; [|reflexivity].
      apply all_true_val in E. rewrite Hlen in E. lia. }
    destruct fuel as [|fuel]; [lia|].
    destruct (ryser_step_inv s b Hinv Hlen Hall) as [Hinv' Hperm].
    destruct (IH (next b) (MathTools.ryser_step matrix n s) fuel Hinv')
      as (s' & Hrun & Hs').
    + rewrite length_next. exact Hlen.
    + rewrite val_next by exact Hall. lia.
    + lia.
    + exists s'. split.
      * destruct Hinv as (_ & _ & Hg).
        simpl. rewrite Hg, Hall. exact Hrun.
      * rewrite Hs', Hperm. cbn [iterates]. rewrite sum_over_cons. lra.
Qed.

Lemma length_masks (k : nat) (b : list bool) :
  In b (masks k) -> length b = k.
Proof.
  revert b. induction k as [|k IH]; intros b H; simpl in H.
  - destruct H as [<-|[]]. reflexivity.
  - apply in_flat_map in H. destruct H as (t & Ht & [<-|[<-|[]]]);
      simpl; f_equal; apply IH; exact Ht.
Qed.

End RyserLoop.


(** The permanent of a square array, by expansion along the rows. *)
Lemma permanent_combinatoric_square (matrix : ndarray) :
  nrow matrix = ncol matrix -> 0 < ncol matrix ->
  MathTools.permanent_combinatoric matrix
  = Ok (perm_rows (get matrix) (seq 0 (ncol matrix)) (seq 0 (ncol matrix))).
Proof.
  intros Hsq Hpos. unfold MathTools.permanent_combinatoric.
  rewrite Hsq.
  replace (ncol matrix =? 0) with false by (symmetry; apply Nat.eqb_neq; lia).
  rewrite Nat.ltb_irrefl. cbn [orb]. rewrite Hsq. f_equal.
  rewrite <- (length_seq (ncol matrix) 0) at 1.
  apply permanent_expand. apply seq_NoDup.
Qed.

Lemma permanent_ryser_square (matrix : ndarray) (fuel : nat) :
  nrow matrix = ncol matrix -> 0 < ncol matrix ->
  2 ^ ncol matrix <= fuel ->
  MathTools.permanent_ryser fuel matrix
  = Some (Ok (perm_rows (get matrix) (seq 0 (ncol matrix))
                        (seq 0 (ncol matrix)))).
Proof.
  intros Hsq Hpos Hfuel. unfold MathTools.permanent_ryser.
  rewrite Hsq, Nat.eqb_refl.
  replace (ncol matrix =? 0) with false by (symmetry; apply Nat.eqb_neq; lia).
  cbn [orb negb].
  set (n := ncol matrix) in *.
  set (s0 := {| MathTools.rowsums := repeat 0%R n;
                MathTools.sign := Nat.odd n;
                MathTools.permanent := 0%R;
                MathTools.graycode := repeat false n;
                MathTools.cur_position := 0;
                MathTools.cur_value := false |}).
  assert (Hinv : ryser_inv matrix s0 (repeat false n)).
  { unfold ryser_inv, s0. cbn [MathTools.rowsums MathTools.sign
                                MathTools.graycode].
    fold n. rewrite gray_repeat_false, row_sums_empty. fold n.
    split; [reflexivity | split; [|reflexivity]].
    assert (Hhd : forall k, hd false (repeat false k) = false)
      by (intros [|k]; reflexivity).
    rewrite Hhd, xorb_false_r. reflexivity. }
  assert (Hval : val (repeat false n) = 0).
  { clear. induction n as [|k IH]; simpl; [reflexivity | rewrite IH; lia]. }
  assert (Hpow : 2 ^ n = S (2 ^ n - 1)).
  { assert (2 ^ n <> 0) by (apply Nat.pow_nonzero; lia). lia. }
  destruct (ryser_loop_runs matrix (2 ^ n - 1) (repeat false n) s0 fuel Hinv)
    as (s' & Hrun & Hs').
  - apply repeat_length.
  - fold n. rewrite Hval. lia.
  - lia.
  - change (MathTools.ryser_loop fuel matrix n s0 = Some s') in Hrun.
    rewrite Hrun.
    do 2 f_equal. rewrite Hs'. unfold s0. cbn [MathTools.permanent].
    fold n.
    assert (Hzero : ryser_term matrix (repeat false n) = 0%R).
    { unfold ryser_term. fold n.
      rewrite gray_repeat_false, row_sums_empty. fold n.
      assert (Hp0 : forall k, (0 < k)%nat -> prod_list (repeat 0%R k) = 0%R).
      { intros [|k] Hk; [lia|]. simpl repeat. rewrite prod_list_cons. lra. }
      rewrite (Hp0 n Hpos). lra. }
    assert (Hsum : forall k, 2 ^ n = S k ->
                     sum_over (iterates next k (next (repeat false n)))
                       (ryser_term matrix)
                     = sum_over (masks n) (ryser_term matrix)).
    { intros k Hk. rewrite masks_iterates, Hk. cbn [iterates].
      rewrite sum_over_cons, Hzero. lra. }
    rewrite (Hsum _ Hpow).
    rewrite (sum_over_ext (ryser_term matrix)
               (fun b => (sg (gray b)
                          * prod_list (row_sums matrix (gray b)))%R)).
    + pose proof (sum_over_gray n
                    (fun S => (sg S * prod_list (row_sums matrix S))%R)) as HG.
      cbv beta in HG. rewrite HG. clear HG.
      unfold row_sums. fold n.
      rewrite <- (length_seq n 0) at 1.
      rewrite (ryser_formula (get matrix) (seq 0 n) (seq 0 n)).
      * lra.
      * apply seq_NoDup.
      * reflexivity.
    + intros b Hb. unfold ryser_term. fold n. rewrite sg_gray.
      rewrite (length_masks n b Hb). reflexivity.
Qed.

(** C4: for every square matrix, [permanent_ryser] ends and returns what
    [permanent_combinatoric] returns: both raise [ValueError] for the empty
    matrix, and otherwise both return the sum over all column permutations
    of the products of the entries. *)
Theorem permanent_ryser_is_combinatoric :
  forall (matrix : ndarray) (fuel : nat),
    nrow matrix = ncol matrix ->
    2 ^ ncol matrix <= fuel ->
    MathTools.permanent_ryser fuel matrix
    = Some (MathTools.permanent_combinatoric matrix) /\
    (0 < ncol matrix ->
     exists p, MathTools.permanent_combinatoric matrix = Ok p).
Proof.
  intros matrix fuel Hsq Hfuel.
  destruct (Nat.eq_dec (ncol matrix) 0) as [E|E].
  - split; [|lia].
    unfold MathTools.permanent_ryser, MathTools.permanent_combinatoric.
    rewrite Hsq, E. reflexivity.
  - rewrite permanent_ryser_square by (try assumption; lia).
    rewrite permanent_combinatoric_square by (try assumption; lia).
    split; [reflexivity|]. intros _. eexists. reflexivity.
Qed.

Lemma permanent_ryser_is_combinatoric_witness :
  MathTools.permanent_ryser 8 (of_rows [[1; 2; 3]; [4; 5; 6]; [7; 8; 10]]%R)
  = Some (MathTools.permanent_combinatoric
            (of_rows [[1; 2; 3]; [4; 5; 6]; [7; 8; 10]]%R)).
Proof.
  apply (permanent_ryser_is_combinatoric
           (of_rows [[1; 2; 3]; [4; 5; 6]; [7; 8; 10]]%R) 8).
  - reflexivity.
  - simpl. lia.
Defined.


(** ** Loops that add up *)

Section AdditiveLoops.

Local Open Scope R_scope.



Lemma sum_with_suffix_ext {A : Type} (l : list A) (F G : A -> list A -> R) :
  (forall pre x suf, l = pre ++ x :: suf -> F x suf = G x suf) ->
  sum_with_suffix l F = sum_with_suffix l G.
Proof.
  induction l as [|x l IH]; intro H; simpl.
  - reflexivity.
  - rewrite (H [] x l eq_refl). f_equal. apply IH.
    intros pre y suf E. apply (H (x :: pre)). rewrite E. reflexivity.
Qed.











Lemma div_mod_2 (i : nat) : i = (2 * (i / 2) + i mod 2)%nat /\ (i mod 2 < 2)%nat.
Proof. split; [apply Nat.div_mod_eq | apply Nat.mod_upper_bound; lia]. Qed.



Lemma mod_even (p : nat) : ((2 * p) mod 2 = 0)%nat.
Proof. pose proof (div_mod_2 (2 * p)). lia. Qed.

Lemma mod_odd (p : nat) : ((2 * p + 1) mod 2 = 1)%nat.
Proof. pose proof (div_mod_2 (2 * p + 1)). lia. Qed.

Lemma is_occupied_excite_orbs (x : N) (a b c : nat) :
  is_occupied x a = true -> (b = a \/ is_occupied x b = false) ->
  is_occupied (excite_orbs x [a] [b]) c
  = (c =? b) || (negb (c =? a) && is_occupied x c).
Proof.
  intros Ha Hb. unfold excite_orbs. cbn [remove_orbs_opt add_orbs_opt].
  rewrite Ha.
  assert (E : is_occupied (N.clearbit x (N.of_nat a)) b = false).
  { rewrite is_occupied_clearbit. destruct Hb as [->|Hb].
    - rewrite Nat.eqb_refl. apply andb_false_r.
    - rewrite Hb. reflexivity. }
  rewrite E. cbn [sentinel]. rewrite is_occupied_setbit, is_occupied_clearbit.
  rewrite (Nat.eqb_sym b c), (Nat.eqb_sym a c).
  destruct (c =? b), (c =? a), (is_occupied x c); reflexivity.
Qed.

Lemma seq_double (n : nat) :
  seq 0 (2 * S n) = seq 0 (2 * n) ++ [(2 * n)%nat; (2 * n + 1)%nat].
Proof.
  transitivity (seq 0 (2 * n + 2)); [f_equal; lia|].
  rewrite seq_app. cbn [seq Nat.add]. rewrite Nat.add_1_r. reflexivity.
Qed.


End AdditiveLoops.


(** ** The two ways to integrate the Hamiltonian *)

Section HamiltonianPaths.

Local Open Scope R_scope.

Variable self : APIG.geminal.
Variable ov : option N -> ndarray -> result R.
Variable C : ndarray.
Variable w : N -> R.

Let K : nat := APIG.norbs self.

(** No spin orbital beyond the [norbs] spatial orbitals is occupied. *)
Definition bounded (x : N) : Prop :=
  forall b, (2 * K <= b)%nat -> is_occupied x b = false.

(** The overlap does not raise on the determinants of the system. *)
Hypothesis Hov : forall x, bounded x -> ov (Some x) C = Ok (w x).

Lemma bounded_0 : bounded 0%N.
Proof. intros b _. apply is_occupied_0. Qed.


Lemma bounded_excite_orbs (sd : N) (i k : nat) :
  bounded sd -> (k < 2 * K)%nat -> bounded (excite_orbs sd [i] [k]).
Proof.
  intros Hb Hk b Hbig. unfold excite_orbs. cbn [remove_orbs_opt].
  destruct (is_occupied sd i); [|apply is_occupied_0].
  cbn [add_orbs_opt].
  destruct (is_occupied _ k); cbn [sentinel]; [apply is_occupied_0|].
  rewrite is_occupied_setbit, is_occupied_clearbit, (Hb b Hbig).
  replace (k =? b)%nat with false by (symmetry; apply Nat.eqb_neq; lia).
  reflexivity.
Qed.

Variable sd : N.

Hypothesis Hsd : bounded sd.






(** The spin orbitals that [brute_phi_H_psi] loops over. *)
Let occ : list nat :=
  filter (fun i => is_occupied sd i) (seq 0 (2 * K)).

Let vir : list nat :=
  filter (fun i => negb (is_occupied sd i)) (seq 0 (2 * K)).











(** *** The loops of [brute_phi_H_psi] as sums over sets of spin orbitals *)









(** *** The determinants that survive in a closed-shell determinant *)

(** The closed-shell invariant and the pre-filter of the overlap. *)
Hypothesis Hclosed :
  forall p, is_occupied sd (2 * p) = is_occupied sd (2 * p + 1).

Hypothesis Hzero :
  forall x p, (p < K)%nat ->
    is_occupied x (2 * p) <> is_occupied x (2 * p + 1) -> w x = 0.
















(** *** The terms that remain *)
















(** *** From spin orbitals to spatial orbitals *)










End HamiltonianPaths.


(** ** The overlap on the determinants of the system *)

Section OverlapDomain.

Local Open Scope R_scope.

Lemma is_occupied_xI_0 (q : positive) : is_occupied (Npos q~1) 0 = true.
Proof. reflexivity. Qed.

Lemma is_occupied_xO_0 (q : positive) : is_occupied (Npos q~0) 0 = false.
Proof. reflexivity. Qed.

Lemma is_occupied_xI_S (q : positive) (i : nat) :
  is_occupied (Npos q~1) (S i) = is_occupied (Npos q) i.
Proof.
  unfold is_occupied. rewrite Nat2N.inj_succ.
  change (Npos q~1) with (2 * Npos q + 1)%N. apply N.testbit_odd_succ.
  lia.
Qed.

Lemma is_occupied_xO_S (q : positive) (i : nat) :
  is_occupied (Npos q~0) (S i) = is_occupied (Npos q) i.
Proof.
  unfold is_occupied. rewrite Nat2N.inj_succ.
  change (Npos q~0) with (2 * Npos q)%N. apply N.testbit_even_succ.
  lia.
Qed.

Lemma is_occupied_1_S (i : nat) : is_occupied 1 (S i) = false.
Proof.
  unfold is_occupied. rewrite Nat2N.inj_succ.
  change 1%N with (2 * 0 + 1)%N. rewrite N.testbit_odd_succ by lia.
  apply N.bits_0.
Qed.

(** The number of occupied spin orbitals among the first [m]. *)
Definition count (x : N) (m : nat) : nat :=
  length (filter (fun i => is_occupied x i) (seq 0 m)).

Lemma count_S (x : N) (m : nat) :
  count x (S m)
  = ((if is_occupied x 0 then 1 else 0)
     + length (filter (fun i => is_occupied x (S i)) (seq 0 m)))%nat.
Proof.
  unfold count. cbn [seq filter]. rewrite <- seq_shift.
  assert (E : forall l,
             length (filter (fun i => is_occupied x i) (map S l))
             = length (filter (fun i => is_occupied x (S i)) l)).
  { induction l as [|y l IH]; cbn [map filter]; [reflexivity|].
    destruct (is_occupied x (S y)); cbn [length]; rewrite IH; reflexivity. }
  destruct (is_occupied x 0); cbn [length]; rewrite E; reflexivity.
Qed.

Lemma popcount_pos_count (q : positive) :
  forall m, (forall b, (m <= b)%nat -> is_occupied (Npos q) b = false) ->
            popcount_pos q = count (Npos q) m.
Proof.
  induction q as [q IH|q IH|]; intros m Hm; cbn [popcount_pos].
  - destruct m as [|m].
    + specialize (Hm 0%nat (le_n 0)). rewrite is_occupied_xI_0 in Hm.
      discriminate.
    + rewrite count_S, is_occupied_xI_0.
      rewrite (filter_ext _ (fun i => is_occupied (Npos q) i))
        by (intro i; apply is_occupied_xI_S).
      cbn [Nat.add]. f_equal. apply IH. intros b Hb.
      rewrite <- is_occupied_xI_S. apply Hm. lia.
  - destruct m as [|m].
    + rewrite (IH 0%nat); [reflexivity|].
      intros b Hb. rewrite <- is_occupied_xO_S. apply Hm. lia.
    + rewrite count_S, is_occupied_xO_0.
      rewrite (filter_ext _ (fun i => is_occupied (Npos q) i))
        by (intro i; apply is_occupied_xO_S).
      cbn [Nat.add]. apply IH. intros b Hb.
      rewrite <- is_occupied_xO_S. apply Hm. lia.
  - destruct m as [|m].
    + specialize (Hm 0%nat (le_n 0)). discriminate.
    + rewrite count_S.
      rewrite (filter_ext _ (fun _ => false))
        by (intro i; apply is_occupied_1_S).
      change (is_occupied 1 0) with true.
      replace (filter (fun _ : nat => false) (seq 0 m)) with (@nil nat);
        [reflexivity|].
      generalize (seq 0 m). intro l. induction l; [reflexivity|assumption].
Qed.

(** [bin(sd).count('1')] counts the occupied spin orbitals. *)
Lemma popcount_count (x : N) (m : nat) :
  (forall b, (m <= b)%nat -> is_occupied x b = false) ->
  popcount x = count x m.
Proof.
  destruct x as [|q]; intro Hm.
  - unfold count. cbn [popcount].
    rewrite (filter_ext _ (fun _ => false))
      by (intro i; apply is_occupied_0).
    generalize (seq 0 m). intro l. induction l; [reflexivity|assumption].
  - apply popcount_pos_count. exact Hm.
Qed.

Lemma count_pairs (x : N) (n : nat) :
  (forall p, (p < n)%nat -> is_occupied x (2 * p) = is_occupied x (2 * p + 1)) ->
  count x (2 * n)
  = (2 * length (filter (is_pair_occupied x) (seq 0 n)))%nat.
Proof.
  unfold count. induction n as [|n IH]; intro H.
  - reflexivity.
  - rewrite seq_double, filter_app, length_app.
    rewrite IH by (intros p Hp; apply H; lia).
    rewrite seq_S, filter_app, length_app. cbn [filter Nat.add].
    assert (E : is_pair_occupied x n = is_occupied x (2 * n)).
    { unfold is_pair_occupied. rewrite <- (H n) by lia. apply andb_diag. }
    rewrite E, <- (H n) by lia.
    destruct (is_occupied x (2 * n)); cbn [length]; lia.
Qed.

Lemma is_occupied_above_size (x : N) (b : nat) :
  (N.to_nat (N.size x) <= b)%nat -> is_occupied x b = false.
Proof.
  intro H. unfold is_occupied. destruct (N.eq_dec x 0) as [->|Hx].
  - apply N.bits_0.
  - apply N.bits_above_log2. pose proof (N.size_log2 x Hx). lia.
Qed.


Lemma bounded_of_lt (self : APIG.geminal) (sd : N) :
  (sd < 2 ^ N.of_nat (2 * APIG.norbs self))%N -> bounded self sd.
Proof.
  intros H b Hb. unfold is_occupied. destruct (N.eq_dec sd 0) as [->|Hx].
  - apply N.bits_0.
  - apply N.bits_above_log2.
    apply N.log2_lt_pow2 in H; lia.
Qed.


(** On a determinant of the system the overlap with a coefficient matrix
    of shape [npairs x norbs] does not raise. *)
Lemma overlap_total (self : APIG.geminal) (C : ndarray) (x : N) :
  nrow C = APIG.npairs self -> ncol C = APIG.norbs self ->
  (APIG.npairs self <= 256)%nat ->
  bounded self x ->
  exists v, APIG.overlap self (Some x) C false None = Ok v.
Proof.
  intros Hrow Hcol H256 Hx. unfold APIG.overlap.
  destruct (negb (popcount x =? APIG.nelec self)) eqn:Epc;
    [exists 0; reflexivity|].
  destruct (existsb _ _) eqn:Eex; [exists 0; reflexivity|].
  apply negb_false_iff, Nat.eqb_eq in Epc.
  assert (Halike : forall p, (p < APIG.norbs self)%nat ->
                     is_occupied x (2 * p) = is_occupied x (2 * p + 1)).
  { intros p Hp.
    destruct (Bool.eqb (is_occupied x (2 * p)) (is_occupied x (2 * p + 1)))
      eqn:Eb; [apply eqb_prop; exact Eb|].
    exfalso.
    assert (E : existsb
                  (fun i => negb (Bool.eqb (is_occupied x (i * 2))
                                           (is_occupied x (i * 2 + 1))))
                  (seq 0 (APIG.norbs self)) = true).
    { apply existsb_exists. exists p. split; [apply in_seq; lia|].
      rewrite (Nat.mul_comm p 2), Eb. reflexivity. }
    congruence. }
  assert (Hlen : length (filter (is_pair_occupied x)
                           (seq 0 (APIG.norbs self))) = APIG.npairs self).
  { pose proof (popcount_count x (2 * APIG.norbs self) Hx) as E1.
    rewrite (count_pairs x (APIG.norbs self) Halike) in E1.
    unfold APIG.nelec in Epc. lia. }
  unfold take_cols.
  assert (Hcols : forallb (fun c => c <? ncol C)%nat
                    (filter (is_pair_occupied x) (seq 0 (APIG.norbs self)))
                  = true).
  { apply forallb_forall. intros c Hc. apply filter_In in Hc.
    destruct Hc as [Hc _]. apply in_seq in Hc. apply Nat.ltb_lt. lia. }
  rewrite Hcols. cbn [bind]. unfold APIG.permanent, APIG.same_object.
  cbn [nrow ncol].
  rewrite Hlen, Hrow, Nat.eqb_refl.
  replace (APIG.npairs self <=? 256)%nat with true
    by (symmetry; apply Nat.leb_le; exact H256).
  eexists. reflexivity.
Qed.


(** Two spatial orbitals, one pair, integrals that are not symmetric. *)
Definition h2_ham : APIG.geminal :=
  {| APIG.npairs := 1; APIG.norbs := 2;
     APIG.one := fun i j => INR (i + 2 * j + 1);
     APIG.two := fun i j k l => INR (i + 2 * j + 3 * k + 5 * l + 1);
     APIG.pspace := [3%N]; APIG.coeffs := None |}.



End OverlapDomain.


(** * Further properties of the code *)

(** ** The derivative mode of [AP1roG.overlap] *)

Section Derivatives.

Local Open Scope R_scope.

(** A function whose increments are [a * h] has the derivative [a]. *)
Lemma derivable_pt_lim_increments (f : R -> R) (x a : R) :
  (forall t h, f (t + h) - f t = a * h) -> derivable_pt_lim f x a.
Proof.
  intros H eps Heps. exists (mkposreal 1 Rlt_0_1). intros h Hh _.
  rewrite H. replace (a * h / h - a) with 0 by (field; exact Hh).
  rewrite Rabs_R0. exact Heps.
Qed.

Lemma item_0_1_distinct (l : list nat) (a b : nat) :
  NoDup l -> item l 0 = Ok a -> item l 1 = Ok b -> a <> b.
Proof.
  intros Hnd Ha Hb. destruct l as [|x [|y l]]; try discriminate.
  unfold item in Ha, Hb. cbn in Ha, Hb.
  injection Ha as ->. injection Hb as ->.
  inversion Hnd as [|? ? Hnot _]; subst. intros ->. apply Hnot. left.
  reflexivity.
Qed.

Lemma entry_set_entry (m : ndarray) (i j r c : nat) (t v : R) :
  entry m r c = Ok v ->
  entry (set_entry m i j t) r c
  = Ok (if (r =? i)%nat && (c =? j)%nat then t else v).
Proof.
  unfold entry. cbn [set_entry nrow ncol get].
  destruct ((r <? nrow m)%nat && (c <? ncol m)%nat); [|discriminate].
  intro H. injection H as <-. reflexivity.
Qed.

End Derivatives.

Ltac decide_eqb :=
  repeat match goal with
  | |- context [(?a =? ?b)%nat] =>
      first
        [ replace (a =? b)%nat with true
            by (symmetry; apply Nat.eqb_eq; lia)
        | replace (a =? b)%nat with false
            by (symmetry; apply Nat.eqb_neq; lia) ]
  end.

(** In derivative mode [AP1roG.overlap] returns the partial derivative of
    what it returns in value mode, with respect to the entry [(i, j)] of
    the matrix, [i <> j]: whenever the value mode returns, so does the
    derivative mode, and its value is the derivative of the overlap as a
    function of that entry. *)
Theorem ap1rog_overlap_derivative_exact :
  forall (self : APIG.geminal) (phi : option N) (matrix : ndarray)
         (i j : nat) (v : R),
    i <> j ->
    AP1roG.overlap self phi matrix false None = Ok v ->
    exists d,
      AP1roG.overlap self phi matrix true (Some (i, j)) = Ok d /\
      derivable_pt_lim
        (fun t => value (AP1roG.overlap self phi (set_entry matrix i j t)
                           false None))
        (get matrix i j) d.
Proof.
  intros self phi matrix i j v Hij Hv. unfold AP1roG.overlap in *.
  destruct (AP1roG.dispatch self phi) eqn:Ed; destruct phi as [phi|];
    try (exists 0%R; split; [reflexivity|];
         apply derivable_pt_lim_increments; intros; cbn [value]; ring).
  - (* no pair is excited *)
    replace (i =? j) with false by (symmetry; apply Nat.eqb_neq; exact Hij).
    exists 0%R. split; [reflexivity|].
    apply derivable_pt_lim_increments; intros; cbn [value]; ring.
  - (* one pair is excited *)
    destruct (item (AP1roG.from_index self phi) 0) as [f0|] eqn:Ef0;
      [|discriminate].
    cbn [bind] in *.
    destruct (item (AP1roG.to_index self phi) 0) as [t0|] eqn:Et0;
      [|discriminate].
    cbn [bind] in *.
    exists (if AP1roG.pair_eqb (i, j) (f0, t0) then 1 else 0)%R. split.
    + destruct (AP1roG.pair_eqb (i, j) (f0, t0)); reflexivity.
    + apply derivable_pt_lim_increments. intros t h.
      rewrite !(entry_set_entry matrix i j f0 t0 _ v Hv). cbn [value].
      unfold AP1roG.pair_eqb. cbn [fst snd].
      rewrite (Nat.eqb_sym i f0), (Nat.eqb_sym j t0).
      destruct ((f0 =? i) && (t0 =? j)); ring.
  - (* two pairs are excited *)
    destruct (item (AP1roG.from_index self phi) 0) as [f0|] eqn:Ef0;
      [|discriminate].
    cbn [bind] in *.
    destruct (item (AP1roG.to_index self phi) 0) as [t0|] eqn:Et0;
      [|discriminate].
    cbn [bind] in *.
    destruct (entry matrix f0 t0) as [a|] eqn:Ea; [|discriminate].
    cbn [bind] in *.
    destruct (item (AP1roG.from_index self phi) 1) as [f1|] eqn:Ef1;
      [|discriminate].
    cbn [bind] in *.
    destruct (item (AP1roG.to_index self phi) 1) as [t1|] eqn:Et1;
      [|discriminate].
    cbn [bind] in *.
    destruct (entry matrix f1 t1) as [b|] eqn:Eb; [|discriminate].
    cbn [bind] in *.
    destruct (entry matrix f0 t1) as [c|] eqn:Ec; [|discriminate].
    cbn [bind] in *.
    destruct (entry matrix f1 t0) as [d|] eqn:Ed'; [|discriminate].
    cbn [bind] in *.
    assert (Hf : f0 <> f1).
    { apply (item_0_1_distinct (AP1roG.from_index self phi));
        [apply NoDup_filter, seq_NoDup | assumption | assumption]. }
    assert (Ht : t0 <> t1).
    { apply (item_0_1_distinct (AP1roG.to_index self phi));
        [apply NoDup_filter, seq_NoDup | assumption | assumption]. }
    assert (Hfun : forall t,
               value
                 (a' <- entry (set_entry matrix i j t) f0 t0 ;;
                  b' <- entry (set_entry matrix i j t) f1 t1 ;;
                  c' <- entry (set_entry matrix i j t) f0 t1 ;;
                  d' <- entry (set_entry matrix i j t) f1 t0 ;;
                  Ok (a' * b' - c' * d')%R)
               = ((if (f0 =? i)%nat && (t0 =? j)%nat then t else a)
                  * (if (f1 =? i)%nat && (t1 =? j)%nat then t else b)
                  - (if (f0 =? i)%nat && (t1 =? j)%nat then t else c)
                    * (if (f1 =? i)%nat && (t0 =? j)%nat then t else d))%R).
    { intro t.
      rewrite (entry_set_entry matrix i j f0 t0 t a Ea),
        (entry_set_entry matrix i j f1 t1 t b Eb),
        (entry_set_entry matrix i j f0 t1 t c Ec),
        (entry_set_entry matrix i j f1 t0 t d Ed').
      reflexivity. }
    unfold AP1roG.pair_eqb. cbn [fst snd].
    destruct (Nat.eq_dec i f0) as [Hi0|Hi0];
      destruct (Nat.eq_dec i f1) as [Hi1|Hi1];
      destruct (Nat.eq_dec j t0) as [Hj0|Hj0];
      destruct (Nat.eq_dec j t1) as [Hj1|Hj1];
      try (exfalso; congruence);
      decide_eqb; cbn [andb bind];
      eexists; (split; [reflexivity|]);
      apply derivable_pt_lim_increments; intros t h;
      rewrite !Hfun; decide_eqb; cbn [andb]; ring.
  - (* more than two pairs are excited *)
    discriminate.
Qed.

Lemma ap1rog_overlap_derivative_exact_witness :
  exists d,
    AP1roG.overlap ap1rog_2_4_double (Some 240%N) c_1234 true (Some (0, 2))
    = Ok d /\
    derivable_pt_lim
      (fun t => value (AP1roG.overlap ap1rog_2_4_double (Some 240%N)
                         (set_entry c_1234 0 2 t) false None))
      (get c_1234 0 2) d.
Proof.
  apply (ap1rog_overlap_derivative_exact ap1rog_2_4_double (Some 240%N)
           c_1234 0 2
           (value (AP1roG.overlap ap1rog_2_4_double (Some 240%N) c_1234
                     false None)));
    [lia | reflexivity].
Defined.

(** ** [permanent_derivative] and the derivative mode of [APIG.overlap] *)

(** On a 3-by-3 matrix the two wrap-around diagonals of
    [permanent_derivative] are the two products of the minor: the function
    returns the permanent of the matrix without row [i] and column [j],
    which is the derivative of the permanent with respect to the entry
    [(i, j)]. *)
Theorem permanent_derivative_3x3_exact :
  forall (matrix : ndarray) (i j : nat),
    nrow matrix = 3 -> ncol matrix = 3 -> i < 3 -> j < 3 ->
    exists d,
      APIG.permanent_derivative matrix i j = Ok d /\
      APIG.permanent (minor matrix i j) = Ok d /\
      derivable_pt_lim
        (fun t => value (APIG.permanent (set_entry matrix i j t)))
        (get matrix i j) d.
Proof.
  intros [nr nc g] i j Hr Hc Hi Hj. cbn [nrow ncol] in Hr, Hc. subst nr nc.
  destruct i as [|[|[|i]]]; try lia; destruct j as [|[|[|j]]]; try lia;
    (eexists; split;
     [unfold APIG.permanent_derivative; cbn; reflexivity|]; split;
     [unfold APIG.permanent; cbn; f_equal;
      unfold sum_over, prod_along, prod_list; cbn; ring
     |apply derivable_pt_lim_increments; intros t h;
      unfold APIG.permanent; cbn;
      unfold sum_over, prod_along, prod_list; cbn; ring]).
Qed.

Lemma permanent_derivative_3x3_exact_witness :
  exists d,
    APIG.permanent_derivative
      (of_rows [[1; 2; 3]; [4; 5; 6]; [7; 8; 9]]%R) 1 2 = Ok d /\
    APIG.permanent
      (minor (of_rows [[1; 2; 3]; [4; 5; 6]; [7; 8; 9]]%R) 1 2) = Ok d /\
    derivable_pt_lim
      (fun t => value (APIG.permanent
                         (set_entry
                            (of_rows [[1; 2; 3]; [4; 5; 6]; [7; 8; 9]]%R)
                            1 2 t)))
      (get (of_rows [[1; 2; 3]; [4; 5; 6]; [7; 8; 9]]%R) 1 2) d.
Proof.
  apply (permanent_derivative_3x3_exact
           (of_rows [[1; 2; 3]; [4; 5; 6]; [7; 8; 9]]%R) 1 2);
    cbn; lia.
Defined.

(** For one or two pairs the halved value of [permanent_derivative] is
    right: whenever [APIG.overlap] returns in value mode for a coefficient
    matrix of at most two rows, it returns in derivative mode the partial
    derivative of the overlap with respect to the coefficient [(i, j)]. *)
Theorem apig_overlap_derivative_exact_two_pairs :
  forall (self : APIG.geminal) (sd : N) (C : ndarray) (i j : nat) (v : R),
    nrow C <= 2 -> i < nrow C ->
    APIG.overlap self (Some sd) C false None = Ok v ->
    exists d,
      APIG.overlap self (Some sd) C true (Some (i, j)) = Ok d /\
      derivable_pt_lim
        (fun t => value (APIG.overlap self (Some sd) (set_entry C i j t)
                           false None))
        (get C i j) d.
Proof.
  intros self sd [nr nc g] i j v Hr Hi Hv. cbn [nrow] in Hr, Hi.
  unfold APIG.overlap, set_entry in *. cbn [nrow ncol get] in *.
  destruct (negb (popcount sd =? APIG.nelec self));
    [exists 0%R; split; [reflexivity|];
     apply derivable_pt_lim_increments; intros; cbn [value]; ring|].
  destruct (existsb _ _);
    [exists 0%R; split; [reflexivity|];
     apply derivable_pt_lim_increments; intros; cbn [value]; ring|].
  assert (Hnd : NoDup (filter (is_pair_occupied sd)
                         (seq 0 (APIG.norbs self))))
    by apply NoDup_filter, seq_NoDup.
  remember (filter (is_pair_occupied sd) (seq 0 (APIG.norbs self))) as occ
    eqn:Eocc.
  clear Eocc. unfold take_cols in *. cbn [nrow ncol get] in *.
  destruct (forallb (fun c => c <? nc) occ); [|discriminate].
  cbn [bind] in *. unfold APIG.permanent in *. cbn [nrow ncol get] in *.
  rewrite (same_object_small nr) in * by lia.
  destruct (nr =? length occ) eqn:En; [|discriminate].
  apply Nat.eqb_eq in En.
  destruct occ as [|a [|b [|c occ]]]; cbn [length] in En; try lia; subst nr.
  - (* one pair *)
    assert (i = 0) by lia. subst i. cbn [index_of].
    destruct (Nat.eq_dec j a) as [Hja|Hja]; decide_eqb.
    + eexists. split; [unfold APIG.permanent_derivative; cbn; reflexivity|].
      apply derivable_pt_lim_increments. intros t h.
      unfold sum_over, prod_along, prod_list; cbn. decide_eqb. cbn [andb].
      field.
    + exists 0%R. split; [reflexivity|].
      apply derivable_pt_lim_increments. intros t h.
      unfold sum_over, prod_along, prod_list; cbn. decide_eqb.
      rewrite ?andb_false_r. ring.
  - (* two pairs *)
    assert (Hab : a <> b).
    { inversion Hnd as [|? ? Hnot _]; subst. intros ->. apply Hnot. left.
      reflexivity. }
    cbn [index_of].
    destruct (Nat.eq_dec j a) as [Hja|Hja];
      destruct (Nat.eq_dec j b) as [Hjb|Hjb];
      try (exfalso; congruence); decide_eqb;
      destruct i as [|[|i]]; try lia;
      (eexists; split;
       [first [reflexivity
              | unfold APIG.permanent_derivative; cbn; reflexivity]|];
       apply derivable_pt_lim_increments; intros t h;
       unfold sum_over, prod_along, prod_list; cbn; decide_eqb;
       rewrite ?andb_false_r; cbn [andb]; field).
Qed.

Definition apig_2_3 : APIG.geminal :=
  {| APIG.npairs := 2; APIG.norbs := 3;
     APIG.one := fun _ _ => 0%R; APIG.two := fun _ _ _ _ => 0%R;
     APIG.pspace := [15%N]; APIG.coeffs := None |}.

Definition c_123456 : ndarray := of_rows [[1; 2; 3]; [4; 5; 6]]%R.

Example apig_overlap_derivative_2_3 :
  APIG.overlap apig_2_3 (Some 15%N) c_123456 true (Some (1, 0)) = Ok 2%R.
Proof.
  unfold APIG.overlap, APIG.permanent_derivative. cbn. f_equal. lra.
Qed.

Lemma apig_overlap_derivative_exact_two_pairs_witness :
  exists d,
    APIG.overlap apig_2_3 (Some 15%N) c_123456 true (Some (1, 0)) = Ok d /\
    derivable_pt_lim
      (fun t => value (APIG.overlap apig_2_3 (Some 15%N)
                         (set_entry c_123456 1 0 t) false None))
      (get c_123456 1 0) d.
Proof.
  apply (apig_overlap_derivative_exact_two_pairs apig_2_3 15 c_123456 1 0
           (value (APIG.overlap apig_2_3 (Some 15%N) c_123456 false None)));
    [cbn; lia | cbn; lia | reflexivity].
Defined.

(** ** Permanents of transposed and of rectangular matrices *)

Section PermanentShapes.

Local Open Scope R_scope.

Local Arguments drop : simpl never.

Lemma drop_head (c : nat) (l : list nat) :
  ~ In c l -> drop c (c :: l) = l.
Proof.
  intro H. unfold drop. cbn [filter]. rewrite Nat.eqb_refl. cbn [negb].
  apply drop_notin. exact H.
Qed.

Lemma drop_tail (c x : nat) (l : list nat) :
  x <> c -> drop c (x :: l) = x :: drop c l.
Proof.
  intro H. unfold drop. cbn [filter].
  replace (x =? c)%nat with false by (symmetry; apply Nat.eqb_neq; exact H).
  reflexivity.
Qed.

Lemma perm_rows_ext (m m' : nat -> nat -> R) (rows : list nat) :
  forall cols,
    (forall r c, In r rows -> m r c = m' r c) ->
    perm_rows m rows cols = perm_rows m' rows cols.
Proof.
  induction rows as [|r rows IH]; intros cols H; cbn [perm_rows].
  - reflexivity.
  - apply sum_over_ext. intros c _.
    rewrite (H r c) by (left; reflexivity). f_equal.
    apply IH. intros r' c' Hr'. apply H. right. exact Hr'.
Qed.

(** In a square array every column is taken by one of the rows: the
    expansion along a column. *)
Lemma perm_rows_col_expand (m : nat -> nat -> R) (rows : list nat) :
  forall cols c,
    NoDup rows -> NoDup (c :: cols) -> length rows = S (length cols) ->
    perm_rows m rows (c :: cols)
    = sum_over rows (fun r => m r c * perm_rows m (drop r rows) cols).
Proof.
  induction rows as [|r0 rest IH]; intros cols c Hr Hc Hlen.
  - discriminate.
  - inversion Hr as [|? ? Hr0 Hrest]; subst.
    inversion Hc as [|? ? Hc0 Hcols]; subst.
    cbn [perm_rows]. rewrite !sum_over_cons.
    rewrite (drop_head c cols Hc0), (drop_head r0 rest Hr0). f_equal.
    rewrite (sum_over_ext _
               (fun c' => sum_over rest
                            (fun r => m r c
                                      * (m r0 c'
                                         * perm_rows m (drop r rest)
                                             (drop c' cols))))).
    + rewrite sum_over_swap. apply sum_over_ext. intros r Hin.
      rewrite drop_tail by (intros ->; contradiction).
      cbn [perm_rows]. rewrite <- sum_over_scal. reflexivity.
    + intros c' Hin.
      rewrite drop_tail by (intros ->; contradiction).
      rewrite IH.
      * rewrite <- sum_over_scal. apply sum_over_ext. intros r _. ring.
      * exact Hrest.
      * constructor; [|apply NoDup_drop; exact Hcols].
        intro H. apply in_drop in H. destruct H as [H _]. contradiction.
      * cbn [length] in Hlen.
        pose proof (length_drop c' cols Hcols Hin). lia.
Qed.

(** The permanent of the transposed array. *)
Lemma perm_rows_transpose (m : nat -> nat -> R) (rows : list nat) :
  forall cols,
    NoDup rows -> NoDup cols -> length rows = length cols ->
    perm_rows (fun i j => m j i) rows cols = perm_rows m cols rows.
Proof.
  induction rows as [|r rest IH]; intros cols Hr Hc Hlen.
  - destruct cols; [reflexivity | discriminate].
  - inversion Hr as [|? ? Hr0 Hrest]; subst.
    rewrite (perm_rows_col_expand m cols rest r Hc Hr)
      by (cbn [length] in Hlen; lia).
    cbn [perm_rows]. apply sum_over_ext. intros c Hin. f_equal.
    apply IH; [exact Hrest | apply NoDup_drop; exact Hc |].
    cbn [length] in Hlen. pose proof (length_drop c cols Hc Hin). lia.
Qed.

Lemma sum_over_const {A : Type} (l : list A) (c : R) :
  sum_over l (fun _ => c) = INR (length l) * c.
Proof.
  induction l as [|x l IH].
  - rewrite sum_over_nil. cbn. lra.
  - rewrite sum_over_cons, IH. cbn [length]. rewrite S_INR. lra.
Qed.

(** Rows of ones: every arrangement counts 1. *)
Lemma perm_rows_ones (m : nat -> nat -> R) (rows : list nat) :
  forall cols,
    (forall r c, In r rows -> m r c = 1) ->
    NoDup cols -> length rows = length cols ->
    perm_rows m rows cols = INR (fact (length rows)).
Proof.
  induction rows as [|r rest IH]; intros cols H Hc Hlen.
  - cbn. lra.
  - cbn [perm_rows].
    rewrite (sum_over_ext _ (fun _ => INR (fact (length rest)))).
    + rewrite sum_over_const, <- Hlen, <- mult_INR. reflexivity.
    + intros c Hin. rewrite (H r c) by (left; reflexivity).
      rewrite IH; [lra | | apply NoDup_drop; exact Hc |].
      * intros r' c' Hr'. apply H. right. exact Hr'.
      * cbn [length] in Hlen. pose proof (length_drop c cols Hc Hin). lia.
Qed.

(** Rows of ones below a rectangular array: the arrangements of the rows
    of the array, each with all the ways to place the rows of ones. *)
Lemma perm_rows_padded (m : nat -> nat -> R) (rows ones : list nat) :
  forall cols,
    (forall r c, In r ones -> m r c = 1) ->
    NoDup cols -> (length rows + length ones)%nat = length cols ->
    perm_rows m (rows ++ ones) cols
    = perm_rows m rows cols * INR (fact (length ones)).
Proof.
  induction rows as [|r rest IH]; intros cols H Hc Hlen.
  - cbn [app perm_rows]. rewrite (perm_rows_ones m ones cols H Hc Hlen).
    lra.
  - cbn [app perm_rows].
    rewrite (sum_over_ext _
               (fun c => INR (fact (length ones))
                         * (m r c * perm_rows m rest (drop c cols)))).
    + rewrite sum_over_scal. lra.
    + intros c Hin. rewrite IH; [ring | exact H | apply NoDup_drop; exact Hc |].
      cbn [length] in Hlen. pose proof (length_drop c cols Hc Hin). lia.
Qed.

End PermanentShapes.

Lemma sum_permutations_seq (m : ndarray) (n : nat) (cols : list nat) :
  NoDup cols ->
  sum_over (permutations n cols) (fun perm => prod_along m (seq 0 n) perm)
  = perm_rows (get m) (seq 0 n) cols.
Proof.
  intro H. rewrite <- (permanent_expand m (seq 0 n) cols H).
  rewrite length_seq. reflexivity.
Qed.

Lemma permanent_combinatoric_transposed (matrix : ndarray) :
  MathTools.permanent_combinatoric (transpose matrix)
  = MathTools.permanent_combinatoric matrix.
Proof.
  destruct matrix as [nr nc g].
  unfold MathTools.permanent_combinatoric, transpose.
  cbn [nrow ncol get].
  rewrite (orb_comm (nc =? 0) (nr =? 0)).
  destruct ((nr =? 0) || (nc =? 0)); [reflexivity|].
  destruct (Nat.ltb_spec nr nc) as [H1|H1];
    destruct (Nat.ltb_spec nc nr) as [H2|H2]; try lia;
    cbn [nrow ncol get]; try reflexivity.
  assert (nr = nc) by lia. subst nc. f_equal.
  rewrite !sum_permutations_seq by apply seq_NoDup. cbn [get].
  apply (perm_rows_transpose g); try apply seq_NoDup. reflexivity.
Qed.

Lemma apig_permanent_transposed (matrix : ndarray) :
  APIG.permanent (transpose matrix) = APIG.permanent matrix.
Proof.
  destruct matrix as [nr nc g].
  unfold APIG.permanent, transpose. cbn [nrow ncol get].
  destruct (Nat.eq_dec nr nc) as [->|Hne];
    [|rewrite !same_object_differ by congruence; reflexivity].
  destruct (APIG.same_object nc nc); [|reflexivity]. f_equal.
  rewrite !sum_permutations_seq by apply seq_NoDup. cbn [get].
  apply (perm_rows_transpose g); try apply seq_NoDup. reflexivity.
Qed.

(** [permanent_combinatoric] and [APIG.permanent] do not depend on the
    orientation of the matrix: the transposed matrix has the same
    permanent, and raises the same exception where the matrix does. *)
Theorem permanent_transpose :
  forall matrix : ndarray,
    MathTools.permanent_combinatoric (transpose matrix)
    = MathTools.permanent_combinatoric matrix /\
    APIG.permanent (transpose matrix) = APIG.permanent matrix.
Proof.
  intro matrix. split.
  - apply permanent_combinatoric_transposed.
  - apply apig_permanent_transposed.
Qed.

Lemma permanent_ryser_wide (matrix : ndarray) (fuel : nat) :
  0 < nrow matrix -> nrow matrix < ncol matrix ->
  2 ^ ncol matrix <= fuel ->
  MathTools.permanent_ryser fuel matrix
  = Some (Ok (perm_rows (get matrix) (seq 0 (nrow matrix))
                        (seq 0 (ncol matrix)))).
Proof.
  intros Hpos Hlt Hfuel.
  set (k := ncol matrix - nrow matrix).
  pose proof (permanent_ryser_square (MathTools.pad_rows matrix k) fuel)
    as Hsq.
  unfold MathTools.permanent_ryser in Hsq |- *.
  cbn [nrow ncol MathTools.pad_rows] in Hsq.
  replace (nrow matrix + k) with (ncol matrix) in Hsq by (unfold k; lia).
  rewrite Nat.eqb_refl in Hsq.
  replace (nrow matrix =? 0) with false by (symmetry; apply Nat.eqb_neq; lia).
  replace (ncol matrix =? 0) with false in Hsq |- *
    by (symmetry; apply Nat.eqb_neq; lia).
  replace (nrow matrix =? ncol matrix) with false
    by (symmetry; apply Nat.eqb_neq; lia).
  replace (ncol matrix <? nrow matrix) with false
    by (symmetry; apply Nat.ltb_ge; lia).
  cbn [orb negb nrow ncol MathTools.pad_rows] in Hsq |- *. fold k.
  specialize (Hsq eq_refl ltac:(lia) Hfuel).
  destruct (MathTools.ryser_loop fuel (MathTools.pad_rows matrix k)
              (ncol matrix) _) as [s|]; [|discriminate].
  injection Hsq as Hs. do 2 f_equal.
  assert (Hsplit : seq 0 (ncol matrix) = seq 0 (nrow matrix) ++ seq (nrow matrix) k).
  { rewrite <- seq_app. f_equal. unfold k. lia. }
  rewrite Hsplit in Hs at 1.
  rewrite perm_rows_padded in Hs.
  - rewrite (perm_rows_ext _ (get matrix)) in Hs.
    + rewrite length_seq in Hs.
      pose proof (INR_fact_neq_0 k) as Hk.
      replace (MathTools.permanent s)
        with (perm_rows (get matrix) (seq 0 (nrow matrix))
                (seq 0 (ncol matrix)) * INR (fact k))%R by lra.
      field. exact Hk.
    + intros r c Hr. apply in_seq in Hr. cbn [get MathTools.pad_rows].
      replace (r <? nrow matrix) with true
        by (symmetry; apply Nat.ltb_lt; lia).
      reflexivity.
  - intros r c Hr. apply in_seq in Hr. cbn [get MathTools.pad_rows].
    replace (r <? nrow matrix) with false
      by (symmetry; apply Nat.ltb_ge; lia).
    reflexivity.
  - apply seq_NoDup.
  - rewrite !length_seq. unfold k. lia.
Qed.

Lemma permanent_ryser_tall (matrix : ndarray) (fuel : nat) :
  ncol matrix < nrow matrix ->
  MathTools.permanent_ryser fuel matrix
  = MathTools.permanent_ryser fuel (transpose matrix).
Proof.
  intro Hlt. unfold MathTools.permanent_ryser. cbn [nrow ncol transpose].
  rewrite (orb_comm (ncol matrix =? 0) (nrow matrix =? 0)).
  replace (nrow matrix =? ncol matrix) with false
    by (symmetry; apply Nat.eqb_neq; lia).
  replace (ncol matrix =? nrow matrix) with false
    by (symmetry; apply Nat.eqb_neq; lia).
  replace (ncol matrix <? nrow matrix) with true
    by (symmetry; apply Nat.ltb_lt; lia).
  replace (nrow matrix <? ncol matrix) with false
    by (symmetry; apply Nat.ltb_ge; lia).
  reflexivity.
Qed.

(** For a matrix that is not square, [permanent_ryser] pads the shorter
    side with rows of ones and divides by the factorial of their number;
    it ends and returns what [permanent_combinatoric] returns: the sum over
    the arrangements of the shorter side in the longer one, or
    [ValueError] when a side is empty. *)
Theorem permanent_ryser_rectangular :
  forall (matrix : ndarray) (fuel : nat),
    nrow matrix <> ncol matrix ->
    2 ^ Nat.max (nrow matrix) (ncol matrix) <= fuel ->
    MathTools.permanent_ryser fuel matrix
    = Some (MathTools.permanent_combinatoric matrix).
Proof.
  intros matrix fuel Hne Hfuel.
  destruct (Nat.eq_dec (nrow matrix) 0) as [E0|E0].
  { unfold MathTools.permanent_ryser, MathTools.permanent_combinatoric.
    rewrite E0. reflexivity. }
  destruct (Nat.eq_dec (ncol matrix) 0) as [E1|E1].
  { unfold MathTools.permanent_ryser, MathTools.permanent_combinatoric.
    rewrite E1, orb_true_r. reflexivity. }
  assert (Hcomb : forall m : ndarray,
             0 < nrow m -> nrow m < ncol m ->
             MathTools.permanent_combinatoric m
             = Ok (perm_rows (get m) (seq 0 (nrow m)) (seq 0 (ncol m)))).
  { intros m H0 H1. unfold MathTools.permanent_combinatoric.
    replace (nrow m =? 0) with false by (symmetry; apply Nat.eqb_neq; lia).
    replace (ncol m =? 0) with false by (symmetry; apply Nat.eqb_neq; lia).
    replace (ncol m <? nrow m) with false by (symmetry; apply Nat.ltb_ge; lia).
    cbn [orb]. f_equal. apply sum_permutations_seq. apply seq_NoDup. }
  destruct (Nat.lt_ge_cases (nrow matrix) (ncol matrix)) as [Hlt|Hge].
  - rewrite Nat.max_r in Hfuel by lia.
    rewrite permanent_ryser_wide, Hcomb by (try assumption; lia).
    reflexivity.
  - rewrite Nat.max_l in Hfuel by lia.
    rewrite permanent_ryser_tall by lia.
    rewrite (permanent_ryser_wide (transpose matrix))
      by (cbn [nrow ncol transpose]; try assumption; lia).
    rewrite <- (permanent_combinatoric_transposed matrix).
    rewrite (Hcomb (transpose matrix))
      by (cbn [nrow ncol transpose]; lia).
    reflexivity.
Qed.

Lemma permanent_ryser_rectangular_witness :
  MathTools.permanent_ryser 8 (of_rows [[1; 2; 3]; [4; 5; 6]]%R)
  = Some (MathTools.permanent_combinatoric (of_rows [[1; 2; 3]; [4; 5; 6]]%R)).
Proof.
  apply (permanent_ryser_rectangular (of_rows [[1; 2; 3]; [4; 5; 6]]%R) 8).
  - cbn. lia.
  - cbn. lia.
Defined.

(** ** [APIG.overlap] on and off the determinants of the system *)

Lemma count_split (x : N) (a d : nat) :
  count x (a + d)
  = count x a + length (filter (fun i => is_occupied x i) (seq a d)).
Proof.
  unfold count. rewrite seq_app, filter_app, length_app. reflexivity.
Qed.

Lemma count_beyond (x : N) (a b m : nat) :
  a <= b -> b < m -> is_occupied x b = true -> count x a < count x m.
Proof.
  intros Hab Hbm Hb. replace m with (a + (m - a)) by lia.
  rewrite count_split.
  assert (Hin : In b (filter (fun i => is_occupied x i) (seq a (m - a)))).
  { apply filter_In. split; [apply in_seq; lia | exact Hb]. }
  destruct (filter (fun i => is_occupied x i) (seq a (m - a)));
    [contradiction | cbn [length]; lia].
Qed.

(** For at most 256 pairs, a coefficient matrix of shape [npairs x norbs]
    and a determinant below [2^(2 * norbs)], [APIG.overlap] in value mode
    returns a value: no assertion fails and no index leaves the matrix.
    (Beyond 256 pairs the two sizes of a square array are not the same
    object, and the assertion of [permanent] fails.) *)
Theorem apig_overlap_returns :
  forall (self : APIG.geminal) (C : ndarray) (sd : N),
    nrow C = APIG.npairs self -> ncol C = APIG.norbs self ->
    APIG.npairs self <= 256 ->
    (sd < 2 ^ N.of_nat (2 * APIG.norbs self))%N ->
    exists v, APIG.overlap self (Some sd) C false None = Ok v.
Proof.
  intros self C sd Hrow Hcol H256 Hlt.
  apply overlap_total; [exact Hrow | exact Hcol | exact H256 |].
  apply bounded_of_lt. exact Hlt.
Qed.

Lemma apig_overlap_returns_witness :
  exists v, APIG.overlap h2_ham (Some 12%N) (of_rows [[2; 3]]%R) false None
            = Ok v.
Proof.
  apply (apig_overlap_returns h2_ham (of_rows [[2; 3]]%R) 12);
    try reflexivity.
  cbn. lia.
Defined.

(** A determinant with the right number of electrons whose pairs inside
    the system are intact, but which occupies a spin orbital beyond the
    [2 * norbs] of the system, is not answered with 0: too few columns are
    selected and the assertion of [permanent] fails. *)
Theorem apig_overlap_beyond_norbs :
  forall (self : APIG.geminal) (C : ndarray) (sd : N) (b : nat),
    nrow C = APIG.npairs self -> ncol C = APIG.norbs self ->
    popcount sd = APIG.nelec self ->
    (forall p, p < APIG.norbs self ->
               is_occupied sd (2 * p) = is_occupied sd (2 * p + 1)) ->
    2 * APIG.norbs self <= b -> is_occupied sd b = true ->
    APIG.overlap self (Some sd) C false None = Raise AssertionError.
Proof.
  intros self C sd b Hrow Hcol Hpop Halike Hb Hocc. unfold APIG.overlap.
  rewrite Hpop, Nat.eqb_refl. cbn [negb].
  destruct (existsb _ _) eqn:Eex.
  { exfalso. apply existsb_exists in Eex. destruct Eex as (p & Hp & E).
    apply in_seq in Hp. rewrite !(Nat.mul_comm p 2) in E.
    rewrite (Halike p) in E by lia. rewrite eqb_reflx in E. discriminate. }
  assert (Hlen : length (filter (is_pair_occupied sd)
                           (seq 0 (APIG.norbs self))) < APIG.npairs self).
  { set (m := Nat.max (N.to_nat (N.size sd)) (S b)).
    assert (E1 : popcount sd = count sd m).
    { apply popcount_count. intros c Hc. apply is_occupied_above_size.
      unfold m in Hc. lia. }
    assert (E2 : count sd (2 * APIG.norbs self) < count sd m).
    { apply (count_beyond sd _ b); [exact Hb | unfold m; lia | exact Hocc]. }
    rewrite (count_pairs sd (APIG.norbs self) Halike) in E2.
    unfold APIG.nelec in Hpop. lia. }
  unfold take_cols.
  assert (Hcols : forallb (fun c => c <? ncol C)
                    (filter (is_pair_occupied sd) (seq 0 (APIG.norbs self)))
                  = true).
  { apply forallb_forall. intros c Hc. apply filter_In in Hc.
    destruct Hc as [Hc _]. apply in_seq in Hc. apply Nat.ltb_lt. lia. }
  rewrite Hcols. cbn [bind]. unfold APIG.permanent. cbn [nrow ncol].
  rewrite same_object_differ by lia. reflexivity.
Qed.

Lemma apig_overlap_beyond_norbs_witness :
  APIG.overlap h2_ham (Some 48%N) (of_rows [[2; 3]]%R) false None
  = Raise AssertionError.
Proof.
  apply (apig_overlap_beyond_norbs h2_ham (of_rows [[2; 3]]%R) 48 4);
    try reflexivity.
  intros p Hp. cbn in Hp.
  destruct p as [|[|p]]; [reflexivity | reflexivity | lia].
Defined.

(** From 257 pairs on the overlap of no determinant is computed: the
    assertion of [permanent] compares the two sizes of the array with
    [is], which holds for equal sizes up to 256 only, so a determinant
    that passes the two tests of the overlap, the ground determinant
    among them, raises [AssertionError] although the selected array is
    square. *)
Theorem apig_overlap_beyond_256_pairs :
  forall (self : APIG.geminal) (C : ndarray) (sd : N),
    nrow C = APIG.npairs self -> ncol C = APIG.norbs self ->
    256 < APIG.npairs self ->
    popcount sd = APIG.nelec self ->
    (forall p, p < APIG.norbs self ->
               is_occupied sd (2 * p) = is_occupied sd (2 * p + 1)) ->
    APIG.overlap self (Some sd) C false None = Raise AssertionError.
Proof.
  intros self C sd Hrow Hcol Hbig Hpop Halike. unfold APIG.overlap.
  rewrite Hpop, Nat.eqb_refl. cbn [negb].
  destruct (existsb _ _) eqn:Eex.
  { exfalso. apply existsb_exists in Eex. destruct Eex as (p & Hp & E).
    apply in_seq in Hp. rewrite !(Nat.mul_comm p 2) in E.
    rewrite (Halike p) in E by lia. rewrite eqb_reflx in E. discriminate. }
  unfold take_cols.
  assert (Hcols : forallb (fun c => c <? ncol C)
                    (filter (is_pair_occupied sd) (seq 0 (APIG.norbs self)))
                  = true).
  { apply forallb_forall. intros c Hc. apply filter_In in Hc.
    destruct Hc as [Hc _]. apply in_seq in Hc. apply Nat.ltb_lt. lia. }
  rewrite Hcols. cbn [bind]. unfold APIG.permanent. cbn [nrow ncol].
  rewrite same_object_large by lia. reflexivity.
Qed.

Definition apig_257 : APIG.geminal :=
  {| APIG.npairs := 257; APIG.norbs := 257;
     APIG.one := fun _ _ => 0%R; APIG.two := fun _ _ _ _ => 0%R;
     APIG.pspace := []; APIG.coeffs := None |}.

Definition c_257 : ndarray :=
  {| nrow := 257; ncol := 257; get := fun _ _ => 1%R |}.

Lemma apig_overlap_beyond_256_pairs_witness :
  APIG.overlap apig_257 (Some (APIG.ground apig_257)) c_257 false None
  = Raise AssertionError.
Proof.
  apply (apig_overlap_beyond_256_pairs apig_257 c_257 (APIG.ground apig_257)).
  - reflexivity.
  - reflexivity.
  - cbn. lia.
  - vm_compute. reflexivity.
  - intros p _. rewrite ground_ones, !is_occupied_ones.
    destruct (Nat.ltb_spec (2 * p) (2 * APIG.npairs apig_257)),
      (Nat.ltb_spec (2 * p + 1) (2 * APIG.npairs apig_257));
      try reflexivity; lia.
Defined.

(** ** [__call__] before the solver *)

Lemma remove_first_missing (v : N) (l : list N) :
  ~ In v l -> APIG.remove_first v l = Raise ValueError.
Proof.
  induction l as [|y l IH]; intro H; cbn [APIG.remove_first].
  - reflexivity.
  - destruct (N.eqb_spec v y) as [->|_].
    + exfalso. apply H. left. reflexivity.
    + rewrite IH; [reflexivity|]. intro Hin. apply H. right. exact Hin.
Qed.

(** [__call__] raises [ValueError] before the solver is run, whatever the
    solver is, when the projection list is shorter than the guess, and
    also when no list is given and the ground determinant is not in the
    projection space of the object ([list.remove]).  The object is left as
    it was and nothing but the output of the guess is printed. *)
Theorem call_value_error :
  forall (cls : APIG.geminal_class)
         (root : (list R -> list N -> result (list R)) -> list R ->
                 option (list R -> list N -> result ndarray) -> list N ->
                 APIG.options -> result APIG.solver_result)
         (generate_guess : APIG.geminal -> result (list R) * list APIG.printed)
         (svd_values : ndarray -> result (list R))
         (kw : APIG.kwargs) (self : APIG.geminal) (out : list APIG.printed)
         (x0 : list R) (lines : list APIG.printed),
    guess_is generate_guess kw self x0 lines ->
    ((APIG.kw_proj kw = [] /\ ~ In (APIG.ground self) (APIG.pspace self)) \/
     (exists proj, proj_is kw self proj /\ length proj < length x0)) ->
    APIG.call cls root generate_guess svd_values kw (self, out)
    = (Raise ValueError, (self, out ++ lines)).
Proof.
  intros cls root generate_guess svd_values kw self out x0 lines Hx0 H.
  assert (E0 : match APIG.kw_x0 kw with
               | Some x1 => APIG.ret x1
               | None => APIG.guess generate_guess
               end (self, out) = (Ok x0, (self, out ++ lines))).
  { unfold guess_is in Hx0. destruct (APIG.kw_x0 kw) as [x1|].
    - destruct Hx0 as [-> ->]. rewrite app_nil_r. reflexivity.
    - unfold APIG.guess. cbn [fst snd]. rewrite Hx0. reflexivity. }
  unfold APIG.call. unfold APIG.and_then at 1. rewrite E0.
  unfold APIG.and_then at 1. unfold APIG.get_self at 1. cbn [fst snd].
  unfold APIG.and_then at 1.
  destruct H as [[Hproj Hnot] | (proj & Hproj & Hlen)].
  - rewrite Hproj. unfold APIG.lift.
    rewrite (remove_first_missing _ _ Hnot). reflexivity.
  - assert (E1 : match APIG.kw_proj kw with
                 | [] => APIG.lift (APIG.remove_first (APIG.ground self)
                                      (APIG.pspace self))
                 | n :: l => APIG.ret (n :: l)
                 end (self, out ++ lines) = (Ok proj, (self, out ++ lines))).
    { unfold proj_is in Hproj. destruct (APIG.kw_proj kw) as [|n l].
      - unfold APIG.lift. rewrite Hproj. reflexivity.
      - rewrite Hproj. reflexivity. }
    rewrite E1.
    replace (length proj <? length x0) with true
      by (symmetry; apply Nat.ltb_lt; exact Hlen).
    reflexivity.
Qed.

Definition kwargs_short : APIG.kwargs :=
  {| APIG.kw_x0 := Some [1; 0]%R; APIG.kw_jac := false;
     APIG.kw_proj := [12%N]; APIG.kw_options := [];
     APIG.kw_verbose := false |}.

Lemma call_value_error_witness :
  APIG.call APIG.APIG_class failing_root no_guess (fun _ => Ok [])
    kwargs_short (h2_system, [])
  = (Raise ValueError, (h2_system, [] ++ [])).
Proof.
  apply (call_value_error APIG.APIG_class failing_root no_guess
           (fun _ => Ok []) kwargs_short h2_system [] [1; 0]%R []).
  - split; reflexivity.
  - right. exists [12%N]. split; [reflexivity | cbn; lia].
Defined.

(** What [generate_pspace] returns starts with the ground determinant,
    which does not occur again. *)
Lemma generate_pspace_ground_first (test : nat -> nat -> bool)
    (self : APIG.geminal) (res : list N) :
  APIG.generate_pspace test self = Ok res ->
  exists proj, res = APIG.ground self :: proj /\
               length proj = APIG.npairs self * APIG.norbs self /\
               ~ In (APIG.ground self) proj.
Proof.
  intro H. unfold APIG.generate_pspace in H.
  destruct (APIG.npairs self =? 0); [discriminate|].
  destruct (add_pair_excitations_prefix test self
              (seq 1 (length (APIG.ind_occ self))) [APIG.ground self])
    as [t Ht].
  rewrite Ht in H. clear Ht.
  set (list_sd := if APIG.npairs self <=? 2
                  then ([APIG.ground self] ++ t) ++ APIG.single_excitations self
                  else [APIG.ground self] ++ t) in H.
  assert (Hhd : exists u, list_sd = APIG.ground self :: u).
  { unfold list_sd. destruct (APIG.npairs self <=? 2); cbn [app];
      eexists; reflexivity. }
  destruct (length list_sd =? APIG.len_set list_sd) eqn:E1; [|discriminate].
  destruct (APIG.num_needed self <=? length list_sd) eqn:E2; [|discriminate].
  cbn [negb] in H. injection H as <-.
  apply Nat.eqb_eq in E1. apply Nat.leb_le in E2.
  apply len_set_NoDup in E1.
  destruct Hhd as [u Hu]. rewrite Hu in *. unfold APIG.num_needed in *.
  rewrite Nat.add_1_r in *. cbn [firstn].
  exists (firstn (APIG.npairs self * APIG.norbs self) u).
  split; [reflexivity|]. split.
  - apply firstn_length_le. cbn [length] in E2. lia.
  - inversion E1 as [|? ? Hnot _]; subst. intro Hin. apply Hnot.
    rewrite <- (firstn_skipn (APIG.npairs self * APIG.norbs self) u).
    apply in_or_app. left. exact Hin.
Qed.

(** With the projection space that [generate_pspace] makes, [__call__]
    without a projection list projects on the [npairs * norbs] determinants
    after the ground determinant; a guess of at most that many coefficients
    passes the length check, so the solver is run on these. *)
Theorem call_default_projections :
  forall (cls : APIG.geminal_class)
         (root : (list R -> list N -> result (list R)) -> list R ->
                 option (list R -> list N -> result ndarray) -> list N ->
                 APIG.options -> result APIG.solver_result)
         (generate_guess : APIG.geminal -> result (list R) * list APIG.printed)
         (svd_values : ndarray -> result (list R))
         (test : nat -> nat -> bool)
         (kw : APIG.kwargs) (self : APIG.geminal) (out : list APIG.printed)
         (x0 : list R),
    APIG.generate_pspace test self = Ok (APIG.pspace self) ->
    APIG.kw_proj kw = [] ->
    APIG.kw_x0 kw = Some x0 ->
    length x0 <= APIG.npairs self * APIG.norbs self ->
    exists proj,
      APIG.pspace self = APIG.ground self :: proj /\
      length proj = APIG.npairs self * APIG.norbs self /\
      ~ In (APIG.ground self) proj /\
      APIG.call cls root generate_guess svd_values kw (self, out)
      = match root (APIG.nonlin cls self) x0 (jac_of cls kw self) proj
                   (solveropts kw) with
        | Ok res => after_root cls svd_values kw res (self, out)
        | Raise e => (Raise e, (self, out))
        end.
Proof.
  intros cls root generate_guess svd_values test kw self out x0
         Hgen Hproj Hx0 Hlen.
  destruct (generate_pspace_ground_first test self _ Hgen)
    as (proj & Hps & Hl & Hnot).
  exists proj. split; [exact Hps|]. split; [exact Hl|]. split; [exact Hnot|].
  rewrite (call_reaches_root cls root generate_guess svd_values kw self out
             [] x0 proj).
  - rewrite app_nil_r. unfold APIG.and_then at 1. unfold APIG.lift at 1.
    destruct (root _ _ _ _ _); reflexivity.
  - unfold guess_is. rewrite Hx0. split; reflexivity.
  - unfold proj_is. rewrite Hproj, Hps. cbn [APIG.remove_first].
    rewrite N.eqb_refl. reflexivity.
  - lia.
Qed.

Definition apig_2_4 : APIG.geminal :=
  {| APIG.npairs := 2; APIG.norbs := 4;
     APIG.one := fun _ _ => 0%R; APIG.two := fun _ _ _ _ => 0%R;
     APIG.pspace := [15; 51; 195; 60; 204; 240; 23; 71; 29]%N;
     APIG.coeffs := None |}.

Definition kwargs_2_4 : APIG.kwargs :=
  {| APIG.kw_x0 := Some (repeat 1%R 8); APIG.kw_jac := false;
     APIG.kw_proj := []; APIG.kw_options := [];
     APIG.kw_verbose := false |}.

Lemma call_default_projections_witness :
  exists proj,
    APIG.pspace apig_2_4 = APIG.ground apig_2_4 :: proj /\
    length proj = APIG.npairs apig_2_4 * APIG.norbs apig_2_4 /\
    ~ In (APIG.ground apig_2_4) proj /\
    APIG.call APIG.APIG_class failing_root no_guess (fun _ => Ok [])
      kwargs_2_4 (apig_2_4, [])
    = match failing_root (APIG.nonlin APIG.APIG_class apig_2_4)
              (repeat 1%R 8) (jac_of APIG.APIG_class kwargs_2_4 apig_2_4)
              proj (solveropts kwargs_2_4) with
      | Ok res => after_root APIG.APIG_class (fun _ => Ok []) kwargs_2_4 res
                    (apig_2_4, [])
      | Raise e => (Raise e, (apig_2_4, []))
      end.
Proof.
  apply (call_default_projections APIG.APIG_class failing_root no_guess
           (fun _ => Ok []) APIG.exact_test kwargs_2_4 apig_2_4 []
           (repeat 1%R 8)).
  - vm_compute. reflexivity.
  - reflexivity.
  - reflexivity.
  - cbn. lia.
Defined.

(** ** The equations of [nonlin] *)

Lemma for_each_ext {A S : Type} (l : list A) (body body' : S -> A -> result S) :
  (forall s x, In x l -> body s x = body' s x) ->
  forall s, for_each l body s = for_each l body' s.
Proof.
  induction l as [|x l IH]; intros H s; cbn [for_each].
  - reflexivity.
  - rewrite (H s x (or_introl eq_refl)). destruct (body' s x) as [s'|e];
      cbn [bind]; [|reflexivity].
    apply IH. intros s0 y Hy. apply H. right. exact Hy.
Qed.

Lemma item_firstn {A : Type} (l : list A) (n d : nat) :
  d < n -> item (firstn n l) d = item l d.
Proof.
  unfold item. revert l d. induction n as [|n IH]; intros l d Hd; [lia|].
  destruct l as [|x l]; [reflexivity|]. destruct d as [|d]; [reflexivity|].
  cbn [firstn nth_error]. apply IH. lia.
Qed.

Lemma item_Ok_lt {A : Type} (l : list A) (d : nat) (x : A) :
  item l d = Ok x -> d < length l.
Proof.
  unfold item. intro H. apply nth_error_Some.
  destruct (nth_error l d); [discriminate | discriminate].
Qed.

(** [nonlin] reads the first [x0.size - eqn_offset] entries of the
    projection list and no other: two lists that agree on these give the
    same result, and when [nonlin] returns, the list has at least that many
    entries and the vector has one equation for every entry of [x0].  (So
    for APIG, with its normalisation equation, as many projections as
    coefficients leave the last projection unused.) *)
Theorem nonlin_projections :
  forall (cls : APIG.geminal_class) (self : APIG.geminal) (x0 : list R)
         (proj : list N),
    (forall proj',
        firstn (length x0 - APIG.eqn_offset cls) proj'
        = firstn (length x0 - APIG.eqn_offset cls) proj ->
        APIG.nonlin cls self x0 proj' = APIG.nonlin cls self x0 proj) /\
    (forall vec,
        APIG.nonlin cls self x0 proj = Ok vec ->
        length vec = length x0 /\
        length x0 - APIG.eqn_offset cls <= length proj).
Proof.
  intros cls self x0 proj. split.
  - intros proj' Hfirst. unfold APIG.nonlin.
    destruct (APIG.construct_guess_method cls self x0) as [C|e];
      [|reflexivity].
    cbn [bind].
    destruct (APIG.phi_H_psi self (APIG.class_overlap cls self)
                (APIG.ground self) C) as [energy|e]; [|reflexivity].
    cbn [bind].
    match goal with
    | |- bind ?m _ = bind ?m _ => destruct m as [vec|e]; [|reflexivity]
    end.
    cbn [bind]. apply for_each_ext. intros s d Hd. apply in_seq in Hd.
    rewrite <- (item_firstn proj' (length x0 - APIG.eqn_offset cls) d) by lia.
    rewrite <- (item_firstn proj (length x0 - APIG.eqn_offset cls) d) by lia.
    rewrite Hfirst. reflexivity.
  - intros vec H. unfold APIG.nonlin in H.
    destruct (APIG.construct_guess_method cls self x0) as [C|e];
      [|discriminate].
    cbn [bind] in H.
    destruct (APIG.phi_H_psi self (APIG.class_overlap cls self)
                (APIG.ground self) C) as [energy|e]; [|discriminate].
    cbn [bind] in H.
    assert (Hloop : forall k a acc res,
               for_each (seq a k)
                 (fun vec d =>
                    sd <- item proj d ;;
                    o <- APIG.class_overlap cls self (Some sd) C ;;
                    h <- APIG.phi_H_psi self (APIG.class_overlap cls self)
                           sd C ;;
                    Ok (vec ++ [(energy * o - h)%R]))
                 acc = Ok res ->
               length res = length acc + k /\
               (0 < k -> a + k <= length proj)).
    { induction k as [|k IH]; intros a acc res Hres; cbn [seq for_each] in Hres.
      - injection Hres as <-. split; lia.
      - destruct (item proj a) as [sd|e] eqn:Ei; [|discriminate].
        cbn [bind] in Hres.
        destruct (APIG.class_overlap cls self (Some sd) C) as [o|e];
          [|discriminate].
        cbn [bind] in Hres.
        destruct (APIG.phi_H_psi self (APIG.class_overlap cls self) sd C)
          as [h|e]; [|discriminate].
        cbn [bind] in Hres.
        destruct (IH _ _ _ Hres) as [H1 H2].
        rewrite length_app in H1. cbn [length] in H1.
        apply item_Ok_lt in Ei. split; [lia|]. intros _.
        destruct k as [|k]; [lia | specialize (H2 ltac:(lia)); lia]. }
    unfold APIG.eqn_offset in *.
    destruct (APIG.normalize cls).
    + destruct (APIG.class_overlap cls self (Some (APIG.ground self)) C)
        as [o|e]; [|discriminate].
      cbn [bind] in H.
      destruct (length x0 =? 0) eqn:E0; [discriminate|].
      apply Nat.eqb_neq in E0. cbn [bind] in H.
      destruct (Hloop _ _ _ _ H) as [H1 H2]. cbn [length] in H1.
      split; [lia|].
      destruct (Nat.eq_dec (length x0 - 1) 0) as [Ez|Ez]; [lia|].
      specialize (H2 ltac:(lia)). lia.
    + cbn [bind] in H. destruct (Hloop _ _ _ _ H) as [H1 H2].
      cbn [length] in H1. split; [lia|].
      destruct (Nat.eq_dec (length x0 - 0) 0) as [Ez|Ez]; [lia|].
      specialize (H2 ltac:(lia)). lia.
Qed.

(** ** [generate_pspace] without virtual orbitals *)

Lemma is_pair_occupied_ground (self : APIG.geminal) (p : nat) :
  is_pair_occupied (APIG.ground self) p = (p <? APIG.npairs self).
Proof.
  unfold is_pair_occupied. rewrite ground_ones, !is_occupied_ones.
  destruct (Nat.ltb_spec p (APIG.npairs self)),
    (Nat.ltb_spec (2 * p) (2 * APIG.npairs self)),
    (Nat.ltb_spec (2 * p + 1) (2 * APIG.npairs self));
    cbn [andb]; try reflexivity; lia.
Qed.

Lemma ind_vir_nil (self : APIG.geminal) :
  APIG.norbs self <= APIG.npairs self -> APIG.ind_vir self = [].
Proof.
  intro H. unfold APIG.ind_vir.
  rewrite (filter_ext_in _ (fun _ => false)).
  - generalize (seq 0 (APIG.norbs self)). intro l.
    induction l; [reflexivity | assumption].
  - intros p Hp. apply in_seq in Hp. rewrite is_pair_occupied_ground.
    replace (p <? APIG.npairs self) with true
      by (symmetry; apply Nat.ltb_lt; lia).
    reflexivity.
Qed.

Lemma flat_map_nil {A B : Type} (f : A -> list B) (l : list A) :
  (forall x, In x l -> f x = []) -> flat_map f l = [].
Proof.
  induction l as [|x l IH]; intro H; cbn [flat_map].
  - reflexivity.
  - rewrite (H x (or_introl eq_refl)), IH; [reflexivity|].
    intros y Hy. apply H. right. exact Hy.
Qed.

Lemma pair_excitations_nil (test : nat -> nat -> bool) (self : APIG.geminal)
    (list_sd : list N) (k : nat) :
  APIG.ind_vir self = [] -> 0 < k ->
  APIG.pair_excitations test self list_sd k = [].
Proof.
  intros Hvir Hk. unfold APIG.pair_excitations. rewrite Hvir, firstn_nil.
  destruct k as [|k]; [lia|]. cbn [combinations map].
  apply flat_map_nil. intros; reflexivity.
Qed.

Lemma add_pair_excitations_nil (test : nat -> nat -> bool)
    (self : APIG.geminal) (nums : list nat) (l : list N) :
  APIG.ind_vir self = [] -> (forall k, In k nums -> 0 < k) ->
  APIG.add_pair_excitations test self nums l = l.
Proof.
  intro Hvir. revert l. induction nums as [|k nums IH]; intros l Hpos;
    cbn [APIG.add_pair_excitations].
  - reflexivity.
  - destruct (length l <? APIG.num_needed self); [|reflexivity].
    rewrite pair_excitations_nil, app_nil_r
      by (try assumption; apply Hpos; left; reflexivity).
    apply IH. intros k' Hk'. apply Hpos. right. exact Hk'.
Qed.

(** When every spatial orbital is occupied in the ground determinant
    ([norbs <= npairs]) there is nothing to excite to: the list consists of
    the ground determinant alone and the check that enough determinants
    were generated fails, whatever the frontier test says. *)
Theorem generate_pspace_no_virtuals :
  forall (test : nat -> nat -> bool) (self : APIG.geminal),
    0 < APIG.norbs self -> APIG.norbs self <= APIG.npairs self ->
    APIG.generate_pspace test self = Raise AssertionError.
Proof.
  intros test self Hpos Hle. unfold APIG.generate_pspace.
  replace (APIG.npairs self =? 0) with false
    by (symmetry; apply Nat.eqb_neq; lia).
  pose proof (ind_vir_nil self Hle) as Hvir.
  rewrite (add_pair_excitations_nil test self _ _ Hvir)
    by (intros k Hk; apply in_seq in Hk; lia).
  assert (Hs : APIG.single_excitations self = []).
  { unfold APIG.single_excitations. rewrite Hvir.
    apply flat_map_nil. intros; reflexivity. }
  rewrite Hs, app_nil_r.
  assert (Hl : (if APIG.npairs self <=? 2
                then [APIG.ground self] else [APIG.ground self])
               = [APIG.ground self])
    by (destruct (APIG.npairs self <=? 2); reflexivity).
  rewrite Hl. unfold APIG.len_set. cbn [nodup in_dec length Nat.eqb negb].
  unfold APIG.num_needed.
  replace (APIG.npairs self * APIG.norbs self + 1 <=? 1) with false;
    [reflexivity|].
  symmetry. apply Nat.leb_gt. nia.
Qed.

Lemma generate_pspace_no_virtuals_witness :
  APIG.generate_pspace APIG.exact_test apig_3_3 = Raise AssertionError.
Proof.
  apply (generate_pspace_no_virtuals APIG.exact_test apig_3_3); cbn; lia.
Defined.

(** ** Determinants with unequal numbers of alpha and beta electrons *)

(** The number of occupied spin orbitals [2 * p + e] of the system: the
    alpha electrons for [e = 0], the beta electrons for [e = 1]. *)
Definition spin_count (self : APIG.geminal) (x : N) (e : nat) : nat :=
  length (filter (fun p => is_occupied x (2 * p + e))
                 (seq 0 (APIG.norbs self))).

Section SpinCounts.

Lemma length_filter_sum (g : nat -> bool) (l : list nat) :
  length (filter g l) = list_sum (map (fun p => if g p then 1 else 0) l).
Proof.
  unfold list_sum. induction l as [|x l IH]; cbn [filter map fold_right].
  - reflexivity.
  - destruct (g x); cbn [length]; rewrite IH; reflexivity.
Qed.

Lemma list_sum_map_add (u v : nat -> nat) (l : list nat) :
  list_sum (map (fun p => u p + v p) l)
  = list_sum (map u l) + list_sum (map v l).
Proof.
  unfold list_sum. induction l as [|x l IH]; cbn [map fold_right];
    [reflexivity|].
  rewrite IH. lia.
Qed.

Lemma list_sum_map_ext (u v : nat -> nat) (l : list nat) :
  (forall p, In p l -> u p = v p) ->
  list_sum (map u l) = list_sum (map v l).
Proof.
  intro H. f_equal. apply map_ext_in. exact H.
Qed.

(** Among the spin orbitals [2 * p + e], [p < K], the orbital [a] occurs
    once if it has the spin [e] and lies in the system, else not at all. *)
Lemma tally_point (K a e : nat) :
  e < 2 ->
  list_sum (map (fun p => if 2 * p + e =? a then 1 else 0) (seq 0 K))
  = if (a mod 2 =? e) && (a <? 2 * K) then 1 else 0.
Proof.
  intro He. pose proof (div_mod_2 a) as [Da Ma].
  induction K as [|K IH].
  - cbn [seq map]. rewrite andb_false_r. reflexivity.
  - rewrite seq_S, map_app, list_sum_app, IH. unfold list_sum at 1.
    cbn [map fold_right Nat.add].
    destruct (Nat.eqb_spec (a mod 2) e) as [Hp|Hp]; cbn [andb];
      destruct (Nat.ltb_spec a (2 * K));
      destruct (Nat.ltb_spec a (2 * S K));
      destruct (Nat.eqb_spec (2 * K + e) a); lia.
Qed.

Lemma move_point (f : nat -> bool) (a b c : nat) :
  f a = true -> (b = a \/ f b = false) ->
  (if (c =? b) || (negb (c =? a) && f c) then 1 else 0)
  + (if c =? a then 1 else 0)
  = (if f c then 1 else 0) + (if c =? b then 1 else 0).
Proof.
  intros Ha Hb.
  destruct (Nat.eqb_spec c b) as [Ecb|Hcb];
    destruct (Nat.eqb_spec c a) as [Eca|Hca]; cbn [orb andb negb].
  - subst. rewrite Ha. reflexivity.
  - subst. destruct Hb as [Hb|Hb]; [contradiction|].
    rewrite Hb. reflexivity.
  - subst. rewrite Ha. reflexivity.
  - destruct (f c); reflexivity.
Qed.

Variable self : APIG.geminal.

(** Moving an electron from [a] to [b] takes one from the count of the
    spin of [a] and adds one to the count of the spin of [b]. *)
Lemma spin_count_move (x x' : N) (a b e : nat) :
  (forall c, is_occupied x' c
             = (c =? b) || (negb (c =? a) && is_occupied x c)) ->
  is_occupied x a = true -> (b = a \/ is_occupied x b = false) ->
  a < 2 * APIG.norbs self -> b < 2 * APIG.norbs self -> e < 2 ->
  spin_count self x' e + (if a mod 2 =? e then 1 else 0)
  = spin_count self x e + (if b mod 2 =? e then 1 else 0).
Proof.
  intros Hx' Ha Hb HaK HbK He. unfold spin_count.
  rewrite !length_filter_sum.
  pose proof (tally_point (APIG.norbs self) a e He) as Ta.
  pose proof (tally_point (APIG.norbs self) b e He) as Tb.
  replace (a <? 2 * APIG.norbs self) with true in Ta
    by (symmetry; apply Nat.ltb_lt; exact HaK).
  replace (b <? 2 * APIG.norbs self) with true in Tb
    by (symmetry; apply Nat.ltb_lt; exact HbK).
  rewrite andb_true_r in Ta, Tb. rewrite <- Ta, <- Tb.
  rewrite <- !list_sum_map_add. apply list_sum_map_ext. intros p _.
  rewrite Hx'. apply move_point; assumption.
Qed.

Lemma spin_count_excite_orbs (x : N) (a b e : nat) :
  is_occupied x a = true -> (b = a \/ is_occupied x b = false) ->
  a < 2 * APIG.norbs self -> b < 2 * APIG.norbs self -> e < 2 ->
  spin_count self (excite_orbs x [a] [b]) e
  + (if a mod 2 =? e then 1 else 0)
  = spin_count self x e + (if b mod 2 =? e then 1 else 0).
Proof.
  intros Ha Hb HaK HbK He.
  apply spin_count_move; try assumption.
  intro c. apply is_occupied_excite_orbs; assumption.
Qed.


End SpinCounts.

Section SpinImbalance.

Local Open Scope R_scope.

Variable self : APIG.geminal.
Variable C : ndarray.
Variable sd : N.

Let K : nat := APIG.norbs self.

Let w : N -> R := fun x => value (APIG.overlap self (Some x) C false None).

Hypothesis Himb : spin_count self sd 0 <> spin_count self sd 1.








Hypothesis Hrow : nrow C = APIG.npairs self.
Hypothesis Hcol : ncol C = APIG.norbs self.
Hypothesis H256 : (APIG.npairs self <= 256)%nat.
Hypothesis Hsd : bounded self sd.


End SpinImbalance.






(** ** The two implementations of the closed-shell energy *)

Section TwoImplementations.

Local Open Scope R_scope.



Variable dense : ndarray -> result R.
Variable w : Prowl.apig.
Variable self : APIG.geminal.

Hypothesis Hn : Prowl.n w = APIG.nelec self.
Hypothesis Hk : Prowl.k w = APIG.norbs self.

(** [permanent.dense] returns the permanent of a square array. *)
Hypothesis Hdense :
  forall m, nrow m = ncol m -> dense m = square_permanent m.

Hypothesis Hrow : nrow (Prowl.C w) = APIG.npairs self.
Hypothesis H256 : (APIG.npairs self <= 256)%nat.





End TwoImplementations.



(** ** [generate_pspace] for one pair *)

Lemma combinations_1 {A : Type} (l : list A) :
  combinations 1 l = map (fun a => [a]) l.
Proof.
  assert (E0 : forall t : list A, combinations 0 t = [[]])
    by (intros [|? ?]; reflexivity).
  induction l as [|x l IH]; [reflexivity|].
  change (combinations 1 (x :: l))
    with (map (cons x) (combinations 0 l) ++ combinations 1 l).
  rewrite E0, IH. reflexivity.
Qed.

Lemma NoDup_map_in {A B : Type} (f : A -> B) (l : list A) :
  (forall x y, In x l -> In y l -> f x = f y -> x = y) ->
  NoDup l -> NoDup (map f l).
Proof.
  induction l as [|x l IH]; intros Hinj Hnd; cbn [map].
  - constructor.
  - inversion Hnd as [|? ? Hnot Hnd']; subst. constructor.
    + intro Hin. apply in_map_iff in Hin. destruct Hin as (y & E & Hy).
      apply Hnot.
      rewrite (Hinj x y (or_introl eq_refl) (or_intror Hy) (eq_sym E)).
      exact Hy.
    + apply IH; [|exact Hnd'].
      intros a b Ha Hb. apply Hinj; right; assumption.
Qed.

Section OnePair.

Variable test : nat -> nat -> bool.
Variable self : APIG.geminal.

Hypothesis Hp : APIG.npairs self = 1.
Hypothesis HK : 2 <= APIG.norbs self.

Let g : N := APIG.ground self.
Let K : nat := APIG.norbs self.

Lemma ground_one_pair (b : nat) : is_occupied g b = (b <? 2).
Proof.
  unfold g. rewrite ground_ones, is_occupied_ones, Hp. reflexivity.
Qed.

Lemma ind_occ_one_pair : APIG.ind_occ self = [0].
Proof.
  unfold APIG.ind_occ. fold K. destruct K as [|k] eqn:EK; [unfold K in EK; lia|].
  cbn [seq filter]. rewrite is_pair_occupied_ground, Hp. cbn [Nat.ltb Nat.leb].
  rewrite (filter_ext_in _ (fun _ => false)).
  - assert (E : forall l : list nat, filter (fun _ => false) l = [])
      by (induction l; [reflexivity | assumption]).
    rewrite E. reflexivity.
  - intros p Hin. apply in_seq in Hin. rewrite is_pair_occupied_ground, Hp.
    apply Nat.ltb_ge. lia.
Qed.

Lemma ind_vir_one_pair : APIG.ind_vir self = seq 1 (K - 1).
Proof.
  unfold APIG.ind_vir. fold K. destruct K as [|k] eqn:EK; [unfold K in EK; lia|].
  cbn [seq filter]. rewrite is_pair_occupied_ground, Hp.
  cbn [Nat.ltb Nat.leb negb]. rewrite Nat.sub_succ, Nat.sub_0_r.
  rewrite (filter_ext_in _ (fun _ => true)).
  - assert (E : forall l : list nat, filter (fun _ => true) l = l)
      by (induction l as [|? ? IH]; [reflexivity | cbn; rewrite IH; reflexivity]).
    apply E.
  - intros p Hin. apply in_seq in Hin. rewrite is_pair_occupied_ground, Hp.
    apply negb_true_iff, Nat.ltb_ge. lia.
Qed.

(** The pair excitations and the single excitations of one pair. *)
Definition pair_to (a : nat) : N := excite_pairs g [0] [a].

Definition beta_to_alpha (j : nat) : N := excite_orbs g [0 * 2 + 1] [j * 2].

Lemma is_occupied_pair_to (a b : nat) :
  1 <= a ->
  is_occupied (pair_to a) b
  = (b =? 2 * a) || (b =? 2 * a + 1).
Proof.
  intro Ha. unfold pair_to.
  rewrite is_occupied_excite_pairs.
  - rewrite ground_one_pair.
    destruct (Nat.eqb_spec b (2 * a)), (Nat.eqb_spec b (2 * a + 1)),
      (Nat.eqb_spec b (2 * 0)), (Nat.eqb_spec b (2 * 0 + 1)),
      (Nat.ltb_spec b 2); cbn [orb andb negb]; try reflexivity; lia.
  - unfold is_pair_occupied. rewrite !ground_one_pair. reflexivity.
  - rewrite ground_one_pair. apply Nat.ltb_ge. lia.
  - rewrite ground_one_pair. apply Nat.ltb_ge. lia.
Qed.

Lemma is_occupied_beta_to_alpha (j b : nat) :
  1 <= j ->
  is_occupied (beta_to_alpha j) b = (b =? 2 * j) || (b =? 0).
Proof.
  intro Hj. unfold beta_to_alpha.
  rewrite is_occupied_excite_orbs.
  - rewrite ground_one_pair.
    destruct (Nat.eqb_spec b (j * 2)), (Nat.eqb_spec b (2 * j)),
      (Nat.eqb_spec b (0 * 2 + 1)), (Nat.eqb_spec b 0),
      (Nat.ltb_spec b 2); cbn [orb andb negb]; try reflexivity; lia.
  - rewrite ground_one_pair. reflexivity.
  - right. rewrite ground_one_pair. apply Nat.ltb_ge. lia.
Qed.

Lemma NoDup_one_pair :
  NoDup (([g] ++ map pair_to (seq 1 (K - 1)))
         ++ map beta_to_alpha (seq 1 (K - 1))).
Proof.
  apply NoDup_app.
  - cbn [app]. constructor.
    + intro Hin. apply in_map_iff in Hin. destruct Hin as (a & E & Ha).
      apply in_seq in Ha.
      assert (H : is_occupied (pair_to a) 0 = is_occupied g 0)
        by (rewrite E; reflexivity).
      rewrite is_occupied_pair_to, ground_one_pair in H by lia.
      destruct (Nat.eqb_spec 0 (2 * a)), (Nat.eqb_spec 0 (2 * a + 1));
        cbn in H; try discriminate; lia.
    + apply NoDup_map_in; [|apply seq_NoDup].
      intros a a' Ha Ha' E. apply in_seq in Ha, Ha'.
      assert (H : is_occupied (pair_to a) (2 * a)
                  = is_occupied (pair_to a') (2 * a))
        by (rewrite E; reflexivity).
      rewrite !is_occupied_pair_to in H by lia.
      rewrite Nat.eqb_refl in H. cbn [orb] in H.
      destruct (Nat.eqb_spec (2 * a) (2 * a')),
        (Nat.eqb_spec (2 * a) (2 * a' + 1)); cbn in H; try discriminate; lia.
  - apply NoDup_map_in; [|apply seq_NoDup].
    intros j j' Hj Hj' E. apply in_seq in Hj, Hj'.
    assert (H : is_occupied (beta_to_alpha j) (2 * j)
                = is_occupied (beta_to_alpha j') (2 * j))
      by (rewrite E; reflexivity).
    rewrite !is_occupied_beta_to_alpha in H by lia.
    rewrite Nat.eqb_refl in H. cbn [orb] in H.
    destruct (Nat.eqb_spec (2 * j) (2 * j')), (Nat.eqb_spec (2 * j) 0);
      cbn in H; try discriminate; lia.
  - intros x Hx Hx'. apply in_map_iff in Hx'.
    destruct Hx' as (j & <- & Hj). apply in_seq in Hj.
    destruct Hx as [Hx|Hx].
    + assert (H : is_occupied g 1 = is_occupied (beta_to_alpha j) 1)
        by (rewrite Hx; reflexivity).
      rewrite is_occupied_beta_to_alpha, ground_one_pair in H by lia.
      destruct (Nat.eqb_spec 1 (2 * j)); cbn in H; try discriminate; lia.
    + apply in_map_iff in Hx. destruct Hx as (a & E & Ha).
      apply in_seq in Ha.
      assert (H : is_occupied (pair_to a) 0 = is_occupied (beta_to_alpha j) 0)
        by (rewrite E; reflexivity).
      rewrite is_occupied_pair_to, is_occupied_beta_to_alpha in H by lia.
      destruct (Nat.eqb_spec 0 (2 * a)), (Nat.eqb_spec 0 (2 * a + 1)),
        (Nat.eqb_spec 0 (2 * j)); cbn in H; try discriminate; lia.
Qed.

Lemma generate_pspace_one_pair_value :
  APIG.generate_pspace test self
  = Ok (g :: map pair_to (seq 1 (K - 1)) ++ [beta_to_alpha 1]).
Proof.
  unfold APIG.generate_pspace. rewrite Hp. cbn [Nat.eqb Nat.leb].
  rewrite ind_occ_one_pair. cbn [length seq APIG.add_pair_excitations].
  assert (Hnn : APIG.num_needed self = K + 1)
    by (unfold APIG.num_needed; rewrite Hp; unfold K; lia).
  rewrite !Hnn. fold g.
  replace (1 <? K + 1) with true
    by (symmetry; apply Nat.ltb_lt; unfold K; lia).
  assert (Epairs : APIG.pair_excitations test self [g] 1
                   = map pair_to (seq 1 (K - 1))).
  { unfold APIG.pair_excitations, APIG.num_frontier.
    rewrite ind_occ_one_pair, ind_vir_one_pair. cbn [length Nat.sub seq find].
    rewrite !firstn_all2 by (rewrite ?length_seq; cbn [length]; lia).
    rewrite combinations_1. cbn [combinations map flat_map app].
    rewrite app_nil_r, map_map. reflexivity. }
  rewrite Epairs.
  assert (Esingle : APIG.single_excitations self
                    = map beta_to_alpha (seq 1 (K - 1))).
  { unfold APIG.single_excitations.
    rewrite ind_occ_one_pair, ind_vir_one_pair. cbn [flat_map].
    apply app_nil_r. }
  rewrite Esingle.
  pose proof NoDup_one_pair as Hnd.
  unfold APIG.len_set. rewrite (nodup_fixed_point N.eq_dec Hnd).
  rewrite Nat.eqb_refl. cbn [negb].
  rewrite !length_app, !length_map, !length_seq. cbn [length].
  replace (K + 1 <=? 1 + (K - 1) + (K - 1)) with true
    by (symmetry; apply Nat.leb_le; unfold K; lia).
  cbn [negb]. f_equal.
  rewrite firstn_app, length_app, length_map, length_seq. cbn [length].
  rewrite firstn_all2
    by (rewrite length_app, length_map, length_seq; cbn [length]; lia).
  replace (K + 1 - (1 + (K - 1))) with 1 by (unfold K; lia).
  destruct (K - 1) as [|k] eqn:Ek; [unfold K in Ek; lia|].
  cbn [seq map firstn app]. reflexivity.
Qed.

End OnePair.

(** For one electron pair in at least two spatial orbitals
    [generate_pspace] returns, whatever the frontier test says: the ground
    determinant, the excitations of the pair to every virtual orbital, and
    (to reach [norbs + 1] determinants) the first of the single
    excitations, [excite_orbs(hf_ground, 1, 2)]. *)
Theorem generate_pspace_one_pair :
  forall (test : nat -> nat -> bool) (self : APIG.geminal),
    APIG.npairs self = 1 -> 2 <= APIG.norbs self ->
    APIG.generate_pspace test self
    = Ok (APIG.ground self
          :: map (fun a => excite_pairs (APIG.ground self) [0] [a])
                 (seq 1 (APIG.norbs self - 1))
          ++ [excite_orbs (APIG.ground self) [1] [2]]).
Proof.
  intros test self Hp HK.
  apply (generate_pspace_one_pair_value test self Hp HK).
Qed.

Lemma generate_pspace_one_pair_witness :
  APIG.generate_pspace APIG.exact_test h2_ham
  = Ok (APIG.ground h2_ham
        :: map (fun a => excite_pairs (APIG.ground h2_ham) [0] [a])
               (seq 1 (APIG.norbs h2_ham - 1))
        ++ [excite_orbs (APIG.ground h2_ham) [1] [2]]).
Proof.
  apply (generate_pspace_one_pair APIG.exact_test h2_ham); cbn; lia.
Defined.

(** ** What [generate_pspace] makes passes the setter of [pspace] *)

Lemma combinations_spec {A : Type} (l : list A) :
  forall n c, In c (combinations n l) -> NoDup l ->
              NoDup c /\ (forall x, In x c -> In x l) /\ length c = n.
Proof.
  induction l as [|x l IH]; intros n c Hc Hnd.
  - destruct n as [|n]; cbn [combinations] in Hc.
    + destruct Hc as [<-|[]]. split; [constructor|]. split; [|reflexivity].
      intros y [].
    + contradiction.
  - destruct n as [|n]; cbn [combinations] in Hc.
    + destruct Hc as [<-|[]]. split; [constructor|]. split; [|reflexivity].
      intros y [].
    + inversion Hnd as [|? ? Hnot Hnd']; subst.
      apply in_app_or in Hc. destruct Hc as [Hc|Hc].
      * apply in_map_iff in Hc. destruct Hc as (c' & <- & Hc').
        destruct (IH n c' Hc' Hnd') as (H1 & H2 & H3).
        split; [|split].
        -- constructor; [|exact H1]. intro Hin. apply Hnot, H2, Hin.
        -- intros y [<-|Hy]; [left; reflexivity | right; apply H2, Hy].
        -- cbn [length]. rewrite H3. reflexivity.
      * destruct (IH (S n) c Hc Hnd') as (H1 & H2 & H3).
        split; [exact H1|]. split; [|exact H3].
        intros y Hy. right. apply H2, Hy.
Qed.

Lemma in_firstn {A : Type} (x : A) (n : nat) (l : list A) :
  In x (firstn n l) -> In x l.
Proof.
  intro H. rewrite <- (firstn_skipn n l). apply in_or_app. left. exact H.
Qed.

Lemma NoDup_firstn {A : Type} (n : nat) (l : list A) :
  NoDup l -> NoDup (firstn n l).
Proof.
  intro H. rewrite <- (firstn_skipn n l) in H.
  apply NoDup_app_remove_r in H. exact H.
Qed.

Lemma for_each_checks {A : Type} (check : A -> result unit) (l : list A) :
  (forall x, In x l -> check x = Ok tt) ->
  for_each l (fun _ x => check x) tt = Ok tt.
Proof.
  induction l as [|x l IH]; intro H; cbn [for_each]; [reflexivity|].
  rewrite (H x (or_introl eq_refl)). cbn [bind].
  apply IH. intros y Hy. apply H. right. exact Hy.
Qed.

Section SetterAccepts.

Variable self : APIG.geminal.

Let P : nat := APIG.npairs self.
Let K : nat := APIG.norbs self.
Let g : N := APIG.ground self.

Hypothesis HP : 0 < P.
Hypothesis HPK : P <= K.

Lemma ground_bit (b : nat) : is_occupied g b = (b <? 2 * P).
Proof. unfold g, P. rewrite ground_ones. apply is_occupied_ones. Qed.

(** A determinant that passes the first check is not empty, and when it
    lies in the system its leading digit does. *)
Lemma check_sd_bounded (x : N) :
  popcount x = 2 * P -> bounded self x ->
  (2 < P -> forall p, is_occupied x (2 * p) = is_occupied x (2 * p + 1)) ->
  APIG.check_sd self x = Ok tt.
Proof.
  intros Hpop Hb Halike. unfold APIG.check_sd, APIG.nelec. fold P K.
  rewrite Hpop, Nat.eqb_refl. cbn [negb].
  assert (Ealike : (2 <? P) && negb (APIG.alpha_beta_alike x) = false).
  { destruct (Nat.ltb_spec 2 P) as [H2|H2]; [|reflexivity]. cbn [andb].
    apply negb_false_iff. unfold APIG.alpha_beta_alike.
    apply forallb_forall. intros p _. rewrite (Halike H2 p).
    apply eqb_reflx. }
  rewrite Ealike.
  assert (Hx : x <> 0%N) by (intros ->; cbn in Hpop; lia).
  replace (x =? 0)%N with false by (symmetry; apply N.eqb_neq; exact Hx).
  assert (Hlog : N.to_nat (N.log2 x) < 2 * K).
  { destruct (Nat.lt_ge_cases (N.to_nat (N.log2 x)) (2 * K)) as [H|H];
      [exact H|].
    pose proof (Hb (N.to_nat (N.log2 x)) H) as Hbit.
    unfold is_occupied in Hbit. rewrite N2Nat.id in Hbit.
    rewrite (N.bit_log2 x Hx) in Hbit. discriminate. }
  replace (N.to_nat (N.log2 x) / 2 <? K) with true; [reflexivity|].
  symmetry. apply Nat.ltb_lt.
  pose proof (div_mod_2 (N.to_nat (N.log2 x))). lia.
Qed.

Lemma in_pairs_small (b : nat) (l : list nat) :
  (forall a, In a l -> 2 * a + 1 < b) -> in_pairs b l = false.
Proof.
  intro H. unfold in_pairs. induction l as [|a l IH]; [reflexivity|].
  cbn [existsb]. rewrite IH by (intros a' Ha'; apply H; right; exact Ha').
  pose proof (H a (or_introl eq_refl)).
  replace (b =? 2 * a) with false by (symmetry; apply Nat.eqb_neq; lia).
  replace (b =? 2 * a + 1) with false by (symmetry; apply Nat.eqb_neq; lia).
  reflexivity.
Qed.

Lemma tally_mem (l : list nat) (n : nat) :
  NoDup l -> (forall x, In x l -> x < n) ->
  list_sum (map (fun p => if mem p l then 1 else 0) (seq 0 n)) = length l.
Proof.
  revert n. induction l as [|x l IH]; intros n Hnd Hlt.
  - cbn [mem existsb length]. induction (seq 0 n) as [|? ? IHs];
      [reflexivity | exact IHs].
  - inversion Hnd as [|? ? Hnot Hnd']; subst.
    rewrite (list_sum_map_ext _
               (fun p => (if p =? x then 1 else 0)
                         + (if mem p l then 1 else 0))).
    + rewrite list_sum_map_add, IH
        by (try assumption; intros y Hy; apply Hlt; right; exact Hy).
      rewrite <- length_filter_sum. cbn [length]. f_equal.
      rewrite filter_eqb_seq; [reflexivity|].
      pose proof (Hlt x (or_introl eq_refl)). lia.
    + intros p _. unfold mem. cbn [existsb].
      destruct (Nat.eqb_spec p x) as [->|Hne]; cbn [orb].
      * fold (mem x l). destruct (mem x l) eqn:Em; [|reflexivity].
        apply mem_iff in Em. contradiction.
      * reflexivity.
Qed.

Lemma tally_below (n m : nat) :
  m <= n ->
  list_sum (map (fun p => if p <? m then 1 else 0) (seq 0 n)) = m.
Proof.
  intro H. rewrite <- length_filter_sum.
  replace n with (m + (n - m)) by lia.
  rewrite seq_app, filter_app, length_app.
  rewrite (filter_ext_in _ (fun _ => true)).
  - rewrite (filter_ext_in (fun p => p <? m) (fun _ => false)).
    + assert (E1 : forall l : list nat, filter (fun _ => true) l = l)
        by (induction l as [|? ? IH]; [reflexivity | cbn; rewrite IH; reflexivity]).
      assert (E2 : forall l : list nat, filter (fun _ => false) l = [])
        by (induction l; [reflexivity | assumption]).
      rewrite E1, E2, length_seq. cbn [length]. lia.
    + intros p Hp. apply in_seq in Hp. apply Nat.ltb_ge. lia.
  - intros p Hp. apply in_seq in Hp. apply Nat.ltb_lt. lia.
Qed.

(** The determinants that the excitation of pairs makes. *)
Lemma check_pair_excitation (occs virs : list nat) :
  NoDup occs -> NoDup virs -> length occs = length virs ->
  (forall p, In p occs -> p < P) ->
  (forall a, In a virs -> P <= a < K) ->
  APIG.check_sd self (excite_pairs g occs virs) = Ok tt.
Proof.
  intros Hno Hnv Hlen Hocc Hvir.
  assert (Hbit : forall b,
             is_occupied (excite_pairs g occs virs) b
             = ((b <? 2 * P) && negb (in_pairs b occs)) || in_pairs b virs).
  { intro b. rewrite is_occupied_excite_pairs_list; try assumption.
    - rewrite ground_bit. reflexivity.
    - intros p Hp. unfold is_pair_occupied. rewrite !ground_bit.
      pose proof (Hocc p Hp).
      replace (2 * p <? 2 * P) with true by (symmetry; apply Nat.ltb_lt; lia).
      replace (2 * p + 1 <? 2 * P) with true
        by (symmetry; apply Nat.ltb_lt; lia).
      reflexivity.
    - intros a Ha. rewrite !ground_bit. pose proof (Hvir a Ha).
      split; apply Nat.ltb_ge; lia. }
  assert (Halike : forall p,
             is_occupied (excite_pairs g occs virs) (2 * p)
             = is_occupied (excite_pairs g occs virs) (2 * p + 1)).
  { intro p. rewrite !Hbit, !in_pairs_even, !in_pairs_odd.
    destruct (Nat.ltb_spec (2 * p) (2 * P)),
      (Nat.ltb_spec (2 * p + 1) (2 * P)); try reflexivity; lia. }
  assert (Hb : bounded self (excite_pairs g occs virs)).
  { intros b Hbig. fold K in Hbig. rewrite Hbit.
    replace (b <? 2 * P) with false by (symmetry; apply Nat.ltb_ge; lia).
    cbn [andb orb]. apply in_pairs_small. intros a Ha.
    pose proof (Hvir a Ha). lia. }
  apply check_sd_bounded; [|exact Hb | intros _; exact Halike].
  rewrite (popcount_count _ (2 * K)) by exact Hb.
  rewrite (count_pairs _ K) by (intros p _; apply Halike).
  f_equal. rewrite length_filter_sum.
  assert (E : list_sum
                (map (fun p => if is_pair_occupied
                                    (excite_pairs g occs virs) p
                               then 1 else 0) (seq 0 K))
              + length occs = P + length virs).
  { rewrite <- (tally_mem occs K), <- (tally_mem virs K), <- (tally_below K P);
      try assumption.
    - rewrite <- !list_sum_map_add. apply list_sum_map_ext. intros p _.
      unfold is_pair_occupied.
      rewrite <- (Halike p), Hbit, !in_pairs_even, andb_diag.
      assert (Fo : mem p occs = true -> p < P)
        by (intro Hm; apply Hocc, mem_iff; exact Hm).
      assert (Fv : mem p virs = true -> P <= p)
        by (intro Hm; apply mem_iff in Hm; pose proof (Hvir p Hm); lia).
      destruct (mem p occs); destruct (mem p virs);
        destruct (Nat.ltb_spec (2 * p) (2 * P));
        destruct (Nat.ltb_spec p P); cbn [andb orb negb];
        try (specialize (Fo eq_refl)); try (specialize (Fv eq_refl)); lia.
    - intros a Ha. pose proof (Hvir a Ha). lia.
    - intros p Hp. pose proof (Hocc p Hp). lia. }
  lia.
Qed.

Lemma count_spin (x : N) (n : nat) :
  count x (2 * n)
  = length (filter (fun p => is_occupied x (2 * p + 0)) (seq 0 n))
    + length (filter (fun p => is_occupied x (2 * p + 1)) (seq 0 n)).
Proof.
  unfold count. induction n as [|n IH]; [reflexivity|].
  rewrite seq_double, filter_app, length_app, IH.
  rewrite seq_S, !filter_app, !length_app. cbn [filter Nat.add].
  rewrite Nat.add_0_r.
  destruct (is_occupied x (2 * n)), (is_occupied x (2 * n + 1));
    cbn [length]; lia.
Qed.

Lemma spin_count_ground_value (e : nat) :
  e < 2 -> spin_count self g e = P.
Proof.
  intro He. unfold spin_count. fold K. rewrite length_filter_sum.
  rewrite (list_sum_map_ext _ (fun p => if p <? P then 1 else 0)).
  - apply tally_below. exact HPK.
  - intros p _. rewrite ground_bit.
    destruct (Nat.ltb_spec (2 * p + e) (2 * P)), (Nat.ltb_spec p P);
      try reflexivity; lia.
Qed.

(** The single excitations, which are made for one or two pairs. *)
Lemma check_single_excitation (i j : nat) :
  P <= 2 -> i < P -> P <= j < K ->
  APIG.check_sd self (excite_orbs g [i * 2 + 1] [j * 2]) = Ok tt.
Proof.
  intros HP2 Hi Hj.
  assert (Ha : is_occupied g (i * 2 + 1) = true)
    by (rewrite ground_bit; apply Nat.ltb_lt; lia).
  assert (Hb : is_occupied g (j * 2) = false)
    by (rewrite ground_bit; apply Nat.ltb_ge; lia).
  assert (Hg : bounded self g).
  { intros b Hbig. fold K in Hbig. rewrite ground_bit.
    apply Nat.ltb_ge. lia. }
  assert (Hx : bounded self (excite_orbs g [i * 2 + 1] [j * 2]))
    by (apply bounded_excite_orbs; [exact Hg | fold K; lia]).
  apply check_sd_bounded; [|exact Hx | intro; lia].
  rewrite (popcount_count _ (2 * K)) by exact Hx.
  rewrite count_spin.
  pose proof (spin_count_excite_orbs self g (i * 2 + 1) (j * 2) 0 Ha
                (or_intror Hb)) as H0.
  pose proof (spin_count_excite_orbs self g (i * 2 + 1) (j * 2) 1 Ha
                (or_intror Hb)) as H1.
  fold K in H0, H1.
  specialize (H0 ltac:(lia) ltac:(lia) ltac:(lia)).
  specialize (H1 ltac:(lia) ltac:(lia) ltac:(lia)).
  rewrite (Nat.mul_comm i 2), mod_odd in H0, H1.
  rewrite (Nat.mul_comm j 2), mod_even in H0, H1.
  cbn [Nat.eqb] in H0, H1.
  rewrite !spin_count_ground_value in H0, H1 by lia.
  unfold spin_count in H0, H1. fold K in H0, H1.
  rewrite (Nat.mul_comm i 2), (Nat.mul_comm j 2). lia.
Qed.

Lemma in_ind_occ (p : nat) : In p (APIG.ind_occ self) -> p < P.
Proof.
  unfold APIG.ind_occ. intro H. apply in_rev, filter_In in H.
  destruct H as [_ H]. rewrite is_pair_occupied_ground in H.
  apply Nat.ltb_lt in H. exact H.
Qed.

Lemma in_ind_vir (a : nat) : In a (APIG.ind_vir self) -> P <= a < K.
Proof.
  unfold APIG.ind_vir. intro H. apply filter_In in H.
  destruct H as [H1 H2]. apply in_seq in H1.
  rewrite is_pair_occupied_ground in H2.
  apply negb_true_iff, Nat.ltb_ge in H2. fold P in H2. unfold K. lia.
Qed.

Lemma check_pair_excitations (test : nat -> nat -> bool) (l : list N)
    (k : nat) (x : N) :
  In x (APIG.pair_excitations test self l k) ->
  APIG.check_sd self x = Ok tt.
Proof.
  unfold APIG.pair_excitations. intro H. apply in_flat_map in H.
  destruct H as (occs & Ho & H). apply in_map_iff in H.
  destruct H as (virs & <- & Hv).
  apply combinations_spec in Ho;
    [|apply NoDup_firstn, NoDup_rev, NoDup_filter, seq_NoDup].
  apply combinations_spec in Hv;
    [|apply NoDup_firstn, NoDup_filter, seq_NoDup].
  destruct Ho as (O1 & O2 & O3), Hv as (V1 & V2 & V3).
  apply check_pair_excitation; try assumption.
  - rewrite O3, V3. reflexivity.
  - intros p Hp. apply in_ind_occ, (in_firstn _ _ _ (O2 p Hp)).
  - intros a Ha. apply in_ind_vir, (in_firstn _ _ _ (V2 a Ha)).
Qed.

Lemma check_add_pair_excitations (test : nat -> nat -> bool)
    (nums : list nat) :
  forall l,
    (forall x, In x l -> APIG.check_sd self x = Ok tt) ->
    forall x, In x (APIG.add_pair_excitations test self nums l) ->
              APIG.check_sd self x = Ok tt.
Proof.
  induction nums as [|k nums IH]; intros l Hl x Hx;
    cbn [APIG.add_pair_excitations] in Hx.
  - apply Hl, Hx.
  - destruct (length l <? APIG.num_needed self); [|apply Hl, Hx].
    apply (IH (l ++ APIG.pair_excitations test self l k)); [|exact Hx].
    intros y Hy. apply in_app_or in Hy. destruct Hy as [Hy|Hy].
    + apply Hl, Hy.
    + apply (check_pair_excitations test l k y Hy).
Qed.

Lemma check_generated (test : nat -> nat -> bool) (res : list N) :
  APIG.generate_pspace test self = Ok res ->
  forall x, In x res -> APIG.check_sd self x = Ok tt.
Proof.
  unfold APIG.generate_pspace. intros H x Hx.
  destruct (APIG.npairs self =? 0); [discriminate|].
  destruct (negb _); [discriminate|].
  destruct (negb _); [discriminate|].
  injection H as <-. apply in_firstn in Hx.
  assert (Hpairs : forall y,
             In y (APIG.add_pair_excitations test self
                     (seq 1 (length (APIG.ind_occ self)))
                     [APIG.ground self]) ->
             APIG.check_sd self y = Ok tt).
  { apply check_add_pair_excitations. intros y [<-|[]].
    apply (check_pair_excitation [] []);
      [constructor | constructor | reflexivity | intros ? [] | intros ? []]. }
  fold P in Hx. destruct (Nat.leb_spec P 2) as [HP2|HP2].
  - apply in_app_or in Hx. destruct Hx as [Hx|Hx]; [apply Hpairs, Hx|].
    unfold APIG.single_excitations in Hx. apply in_flat_map in Hx.
    destruct Hx as (i & Hi & Hx). apply in_map_iff in Hx.
    destruct Hx as (j & <- & Hj).
    apply check_single_excitation;
      [exact HP2 | apply in_ind_occ, Hi | apply in_ind_vir, Hj].
  - apply Hpairs, Hx.
Qed.

End SetterAccepts.


(** The tuple that [generate_pspace] returns for [npairs <= norbs] passes
    the checks of the setter of [pspace], so that [__init__] stores it:
    every determinant has [nelec] electrons and no spin orbital beyond the
    system, and for more than two pairs it is a closed-shell determinant
    (for one or two pairs the single excitations are not, and are not
    checked). *)
Theorem generate_pspace_passes_setter :
  forall (test : nat -> nat -> bool) (self : APIG.geminal) (res : list N),
    APIG.npairs self <= APIG.norbs self ->
    APIG.generate_pspace test self = Ok res ->
    APIG.set_pspace self res = Ok res.
Proof.
  intros test self res Hle H.
  assert (Hpos : 0 < APIG.npairs self).
  { unfold APIG.generate_pspace in H.
    destruct (Nat.eqb_spec (APIG.npairs self) 0); [discriminate | lia]. }
  unfold APIG.set_pspace.
  rewrite (for_each_checks (APIG.check_sd self) res); [reflexivity|].
  apply (check_generated self Hpos Hle test res H).
Qed.

Lemma generate_pspace_passes_setter_witness :
  APIG.set_pspace apig_2_4 (APIG.pspace apig_2_4) = Ok (APIG.pspace apig_2_4).
Proof.
  apply (generate_pspace_passes_setter APIG.exact_test apig_2_4
           (APIG.pspace apig_2_4)).
  - cbn. lia.
  - vm_compute. reflexivity.
Defined.

